(** * Litematic browser: filter/sort pipeline, windowing, and URL state codec

    A shallow embedding of the state logic of [App] (the gallery component)
    and of its helper functions.

    A string is the sequence of the UTF-8 bytes of its text, so that white
    space is the full set of [WhiteSpace] and [LineTerminator] code points.
    Case mapping belongs to the host's Unicode tables and is a parameter
    ([Js.Host]), as is what an empty object literal inherits.  JavaScript
    numbers that hold indices, lengths, epochs and pixel heights are
    integers of [Z]; what [parseInt] returns is an integer-valued double or an
    infinity ([Js.Num]); [NaN] and [null] are [None].  React state is an
    explicit record, and every effect body is a function from state to
    state. *)

From Stdlib Require Import ZArith List String Ascii Bool Lia.
From Stdlib Require Import Permutation Sorted.
From Stdlib Require Import DecimalString DecimalPos DecimalZ.
From Stdlib Require Import OrderedTypeEx.
Import ListNotations.

Local Open Scope string_scope.
Local Open Scope Z_scope.

(* ================================================================== *)
(** ** String primitives of the host language *)

Module Js.

(** The one-byte white space: TAB, LF, VT, FF, CR and SPACE. *)
Definition isAsciiSpace (c : ascii) : bool :=
  let n := N_of_ascii c in
  ((9 <=? n) && (n <=? 13))%N || (n =? 32)%N.

(** The first byte of a white space code point of two or three bytes. *)
Definition isSpaceLead (c : ascii) : bool :=
  let n := N_of_ascii c in
  ((n =? 194) || (n =? 225) || (n =? 226) || (n =? 227) || (n =? 239))%N.

(** The bytes after the first of U+00A0 (two bytes) and of U+1680,
    U+2000..U+200A, U+2028, U+2029, U+202F, U+205F, U+3000 and U+FEFF
    (three bytes). *)
Definition spaceTail (c : ascii) (r : string) : nat :=
  let n := N_of_ascii c in
  match r with
  | String d r' =>
      let m := N_of_ascii d in
      if ((n =? 194) && (m =? 160))%N then 2%nat
      else
        match r' with
        | String e _ =>
            let k := N_of_ascii e in
            if ((n =? 225) && (m =? 154) && (k =? 128))%N then 3%nat
            else if ((n =? 226) && (m =? 128)
                     && (((128 <=? k) && (k <=? 138)) || (k =? 168) || (k =? 169)
                         || (k =? 175)))%N then 3%nat
            else if ((n =? 226) && (m =? 129) && (k =? 159))%N then 3%nat
            else if ((n =? 227) && (m =? 128) && (k =? 128))%N then 3%nat
            else if ((n =? 239) && (m =? 187) && (k =? 191))%N then 3%nat
            else 0%nat
        | EmptyString => 0%nat
        end
  | EmptyString => 0%nat
  end.

(** The number of bytes of the white space code point at the head of [s];
    0 when [s] does not begin with white space.  This is the class [\s] of
    regular expressions and what [trim] and [parseInt] strip. *)
Definition spaceLen (s : string) : nat :=
  match s with
  | EmptyString => 0%nat
  | String c r =>
      if isAsciiSpace c then 1%nat
      else if isSpaceLead c then spaceTail c r
      else 0%nat
  end.

(** For each byte of [s], whether it belongs to a white space code point;
    [skip] bytes at the head are the rest of one that has begun. *)
Fixpoint marks (skip : nat) (s : string) : list bool :=
  match s with
  | EmptyString => []
  | String c r =>
      match skip with
      | S k => true :: marks k r
      | O =>
          match spaceLen s with
          | O => false :: marks 0 r
          | S k => true :: marks k r
          end
      end
  end.

(** Drop the marked bytes at the head. *)
Fixpoint dropMarked (m : list bool) (s : string) {struct s} : string :=
  match s, m with
  | String c r, true :: m' => dropMarked m' r
  | _, _ => s
  end.

(** Drop the marked bytes at the end. *)
Fixpoint dropMarkedEnd (m : list bool) (s : string) {struct s} : string :=
  match s, m with
  | String c r, b :: m' =>
      match dropMarkedEnd m' r with
      | EmptyString => if b then EmptyString else String c EmptyString
      | r' => String c r'
      end
  | _, _ => s
  end.

Definition trimStart (s : string) : string := dropMarked (marks 0 s) s.

Definition trimEnd (s : string) : string := dropMarkedEnd (marks 0 s) s.

(** [s.trim()] *)
Definition trim (s : string) : string := trimEnd (trimStart s).

(** Truthiness of a string value: only the empty string is falsy. *)
Definition truthy (s : string) : bool := negb (s =? "")%string.

(** [s.split(sep)] for a one-character separator: always at least one piece. *)
Fixpoint split (sep : ascii) (s : string) : list string :=
  match s with
  | EmptyString => [EmptyString]
  | String c r =>
      if (c =? sep)%char then EmptyString :: split sep r
      else match split sep r with
           | h :: t => String c h :: t
           | [] => [String c EmptyString]
           end
  end.

(** The pieces of [s] between maximal runs of marked bytes; [inSep] tells
    that the previous byte belonged to such a run. *)
Fixpoint splitMarked (inSep : bool) (m : list bool) (s : string) {struct s}
    : list string :=
  match s, m with
  | String c r, b :: m' =>
      if b then
        if inSep then splitMarked true m' r
        else EmptyString :: splitMarked true m' r
      else match splitMarked false m' r with
           | h :: t => String c h :: t
           | [] => [String c EmptyString]
           end
  | _, _ => [s]
  end.

(** [s.split(/\s+/)] *)
Definition splitWs (s : string) : list string := splitMarked false (marks 0 s) s.

(** [xs.filter(Boolean)] on strings *)
Definition filterTruthy (xs : list string) : list string := filter truthy xs.

(** [xs.join(sep)] *)
Definition join (sep : string) (xs : list string) : string := String.concat sep xs.

(** [s.includes(t)]: [t] starts at some position of [s]. *)
Fixpoint includes (s t : string) : bool :=
  String.prefix t s ||
  match s with
  | EmptyString => false
  | String _ r => includes r t
  end.

(** What the host provides beyond the byte level: [caseMap], the Unicode
    case mapping behind [String.prototype.toLowerCase], and [inherited k],
    the text that [String(x)] gives for the member [x] that an empty object
    literal inherits under the name [k] ([None] when it inherits none: every
    name but those of [Object.prototype], such as [constructor] or
    [toString]). *)
Class Host : Type := mkHost {
  caseMap : string -> string;
  inherited : string -> option string
}.

(** [s.toLowerCase()]: white space has no case, so a text of white space
    only comes back as it is; any other text goes through the case mapping
    of the host. *)
Definition toLowerCase {host : Host} (s : string) : string :=
  if (trim s =? "")%string then s else caseMap s.

(** Case mapping does not look across a space: the one rule of
    [toLowerCase] that reads the neighbours of a letter, the one for a final
    sigma, stops at a character that is neither cased nor case-ignorable,
    as a space is. *)
Definition caseByWords (host : Host) : Prop :=
  forall a b, toLowerCase (a ++ " " ++ b) = (toLowerCase a ++ " " ++ toLowerCase b)%string.

(** Letter case as the [i] flag of a regular expression sees it for a
    pattern of ASCII letters: only the letters A to Z fold. *)
Definition foldChar (c : ascii) : ascii :=
  let n := N_of_ascii c in
  if ((65 <=? n) && (n <=? 90))%N then ascii_of_N (n + 32) else c.

Fixpoint foldCase (s : string) : string :=
  match s with
  | EmptyString => EmptyString
  | String c r => String (foldChar c) (foldCase r)
  end.

(** An integer-valued Number other than [NaN]. *)
Inductive Num : Type :=
| Int (z : Z)
| Infinity (negative : bool).

(** The Number value for an integer: the nearest double, ties to the even
    significand, and an infinity from [2^1024 - 2^970] on. *)
Definition roundToDouble (z : Z) : Num :=
  let a := Z.abs z in
  if a <? 2 ^ 53 then Int z
  else
    let ulp := 2 ^ (Z.log2 a - 52) in
    let q := a / ulp in
    let r := a mod ulp in
    let up := (ulp <? 2 * r) || ((2 * r =? ulp) && Z.odd q) in
    let m := (if up then q + 1 else q) * ulp in
    if 2 ^ 1024 <=? m then Infinity (z <? 0) else Int (Z.sgn z * m).

Definition digitVal (c : ascii) : option Z :=
  let n := N_of_ascii c in
  if ((48 <=? n) && (n <=? 57))%N then Some (Z.of_N (n - 48)) else None.

(** The digit loop of [parseInt]: the longest prefix of decimal digits;
    [None] while no digit has been read. *)
Fixpoint parseDigits (s : string) (acc : option Z) : option Z :=
  match s with
  | EmptyString => acc
  | String c r =>
      match digitVal c with
      | Some d =>
          parseDigits r (Some (10 * match acc with Some a => a | None => 0 end + d))
      | None => acc
      end
  end.

(** [Number.parseInt(s, 10)]; [None] is [NaN]. *)
Definition parseInt (s : string) : option Num :=
  match trimStart s with
  | String "-" r => option_map (fun n => roundToDouble (- n)) (parseDigits r None)
  | String "+" r => option_map roundToDouble (parseDigits r None)
  | s' => option_map roundToDouble (parseDigits s' None)
  end.

(** [a || 0] for a Number [a]: [NaN] and zero give 0. *)
Definition orZero (a : option Num) : Num :=
  match a with
  | Some v => v
  | None => Int 0
  end.

(** [Number.isFinite(a) ? a : 0] *)
Definition finiteOrZero (a : option Num) : Z :=
  match a with
  | Some (Int z) => z
  | _ => 0
  end.

(** [a - b]; an infinity minus itself is [NaN]. *)
Definition sub (a b : Num) : option Num :=
  match a, b with
  | Int x, Int y => Some (roundToDouble (x - y))
  | Int _, Infinity n => Some (Infinity (negb n))
  | Infinity n, Int _ => Some (Infinity n)
  | Infinity n, Infinity n' => if Bool.eqb n n' then None else Some (Infinity n)
  end.

Definition isFinite (a : Num) : bool :=
  match a with
  | Int _ => true
  | Infinity _ => false
  end.


(** [Math.max(lo, Math.min(hi, p))] for integers [lo] and [hi]. *)
Definition clamp (lo hi : Z) (p : Num) : Z :=
  match p with
  | Int z => Z.max lo (Z.min hi z)
  | Infinity false => Z.max lo hi
  | Infinity true => lo
  end.

(** How [Array.prototype.sort] reads what a comparator returns: [NaN]
    counts as 0, and only the sign matters. *)
Definition sortOrder (v : option Num) : Z :=
  match v with
  | Some (Int z) => z
  | Some (Infinity true) => -1
  | Some (Infinity false) => 1
  | None => 0
  end.

(** [String(n)] for an integer [n] below [10^21] in size, which indices,
    counts and status codes are. *)
Definition numberToString (n : Z) : string :=
  NilZero.string_of_int (Z.to_int n).

(** Some byte of [s] begins a white space code point. *)
Fixpoint anySpace (s : string) : bool :=
  match s with
  | EmptyString => false
  | String c r => (0 <? spaceLen s)%nat || anySpace r
  end.

(** [s.includes(c)] for one character. *)
Fixpoint hasChar (c : ascii) (s : string) : bool :=
  match s with
  | EmptyString => false
  | String d r => (d =? c)%char || hasChar c r
  end.

(** Every character is a decimal digit. *)
Fixpoint allDigits (s : string) : bool :=
  match s with
  | EmptyString => true
  | String c r =>
      match digitVal c with
      | Some _ => allDigits r
      | None => false
      end
  end.

(** The string of the given bytes. *)
Fixpoint bytes (l : list N) : string :=
  match l with
  | [] => EmptyString
  | n :: r => String (ascii_of_N n) (bytes r)
  end.

End Js.

(** Evaluate [digitVal] at a character literal in the goal. *)
Ltac eval_digit :=
  match goal with
  | |- context [Js.digitVal ?c] =>
      let v := eval vm_compute in (Js.digitVal c) in
      change (Js.digitVal c) with v; cbv iota beta
  end.

(* ================================================================== *)
(** ** Query strings *)

Module URLSearchParams.

(** An ordered list of name/value pairs. *)
Definition t : Type := list (string * string).

Definition empty : t := [].

(** [sp.get(name)]: the first value under [name], or [null]. *)
Fixpoint get (sp : t) (name : string) : option string :=
  match sp with
  | [] => None
  | (k, v) :: rest => if (k =? name)%string then Some v else get rest name
  end.

Definition remove (sp : t) (name : string) : t :=
  filter (fun kv => negb (fst kv =? name)%string) sp.

(** [sp.set(name, value)]: overwrite the first pair under [name] and drop the
    others, or append. *)
Fixpoint set (sp : t) (name value : string) : t :=
  match sp with
  | [] => [(name, value)]
  | (k, v) :: rest =>
      if (k =? name)%string then (name, value) :: remove rest name
      else (k, v) :: set rest name value
  end.

End URLSearchParams.
(* ================================================================== *)
(** ** Data model *)

Module Dim.
Record t : Type := mk { x : Z; y : Z; z : Z }.
End Dim.

(** [timeCreated: string | number] *)
Inductive TimeCreated : Type :=
| TimeString (s : string)
| TimeNumber (n : Z).

Record RawLitematicEntry : Type := mkRaw {
  raw_file : string;
  raw_fileSizeBytes : Z;
  raw_dimensions : Dim.t;
  raw_size : string;
  raw_dataVersion : Z;
  raw_version : string;
  raw_timeCreated : TimeCreated;
  raw_author : string;
  raw_has_image : bool
}.

(** The normalized entry: the raw fields plus [id] and [createdAt].  The two
    resource links [renderPath] and [filePath] are presentation only and are
    left out. *)
Record LitematicEntry : Type := mkEntry {
  file : string;
  fileSizeBytes : Z;
  dimensions : Dim.t;
  size : string;
  dataVersion : Z;
  version : string;
  timeCreated : TimeCreated;
  author : string;
  has_image : bool;
  id : string;
  createdAt : Z
}.

Inductive SortKey : Type := newest | oldest | az.

Definition WINDOW_SIZE : Z := 200.
Definition BUFFER_ROWS : Z := 3.
Definition ROW_GAP : Z := 16.
Definition SCROLL_PARAM_KEY : string := "idx".

(* ================================================================== *)
(** ** Module-level helpers *)

Definition parseListParam (raw : option string) : list string :=
  match raw with
  | None => []
  | Some r =>
      if Js.truthy r
      then Js.filterTruthy (map Js.trim (Js.split "," r))
      else []
  end.

Definition listToParam (values : list string) : option string :=
  match values with
  | [] => None
  | _ => Some (Js.join "," values)
  end.

(** The template literal of [matchesSearch], before lower-casing. *)
Definition compositeText (entry : LitematicEntry) : string :=
  (file entry ++ " " ++ author entry ++ " " ++ version entry ++ " " ++ size entry)%string.

Definition haystack {host : Js.Host} (entry : LitematicEntry) : string :=
  Js.toLowerCase (compositeText entry).

Definition matchesSearch {host : Js.Host} (entry : LitematicEntry)
    (terms : list string) : bool :=
  match terms with
  | [] => true
  | _ => forallb (fun t => Js.includes (haystack entry) t) terms
  end.

(* ================================================================== *)
(** ** Component state *)

(** Callbacks handed to [requestAnimationFrame]. The closure variable
    [attempts] of [tryScroll] travels with the callback. *)
Inductive Frame : Type :=
| FrameScrollTop
| FrameTryScroll (targetId : string) (attempts : Z).

(** Callbacks handed to [setTimeout]. *)
Inductive Timeout : Type :=
| TimeoutApplyParams
| TimeoutEndRestoring.

Record AppState : Type := mkApp {
  entries : list LitematicEntry;
  q : string;
  versionIncludes : list string;
  versionExcludes : list string;
  authorIncludes : list string;
  authorExcludes : list string;
  sortKey : SortKey;
  preview : option LitematicEntry;
  windowStart : Z;
  measuredCardHeight : option Z;
  cols : Z;
  anchorIndex : Z;
  pendingPreviewId : option string;
  pendingIndex : option Js.Num;
  pendingScrollId : option string;
  restoringRef : bool;
  scrollY : Z;
  frames : list Frame;
  timeouts : list Timeout
}.

(** The state of a freshly mounted component, given the layout columns. *)
Definition initialState (c : Z) : AppState :=
  mkApp [] "" [] [] [] [] newest None 0 None c 0 None None None false 0 [] [].

Section Setters.
Variable st : AppState.

Definition setEntries v := mkApp v (q st) (versionIncludes st) (versionExcludes st) (authorIncludes st) (authorExcludes st) (sortKey st) (preview st) (windowStart st) (measuredCardHeight st) (cols st) (anchorIndex st) (pendingPreviewId st) (pendingIndex st) (pendingScrollId st) (restoringRef st) (scrollY st) (frames st) (timeouts st).
Definition setQ v := mkApp (entries st) v (versionIncludes st) (versionExcludes st) (authorIncludes st) (authorExcludes st) (sortKey st) (preview st) (windowStart st) (measuredCardHeight st) (cols st) (anchorIndex st) (pendingPreviewId st) (pendingIndex st) (pendingScrollId st) (restoringRef st) (scrollY st) (frames st) (timeouts st).
Definition setVersionIncludes v := mkApp (entries st) (q st) v (versionExcludes st) (authorIncludes st) (authorExcludes st) (sortKey st) (preview st) (windowStart st) (measuredCardHeight st) (cols st) (anchorIndex st) (pendingPreviewId st) (pendingIndex st) (pendingScrollId st) (restoringRef st) (scrollY st) (frames st) (timeouts st).
Definition setVersionExcludes v := mkApp (entries st) (q st) (versionIncludes st) v (authorIncludes st) (authorExcludes st) (sortKey st) (preview st) (windowStart st) (measuredCardHeight st) (cols st) (anchorIndex st) (pendingPreviewId st) (pendingIndex st) (pendingScrollId st) (restoringRef st) (scrollY st) (frames st) (timeouts st).
Definition setAuthorIncludes v := mkApp (entries st) (q st) (versionIncludes st) (versionExcludes st) v (authorExcludes st) (sortKey st) (preview st) (windowStart st) (measuredCardHeight st) (cols st) (anchorIndex st) (pendingPreviewId st) (pendingIndex st) (pendingScrollId st) (restoringRef st) (scrollY st) (frames st) (timeouts st).
Definition setAuthorExcludes v := mkApp (entries st) (q st) (versionIncludes st) (versionExcludes st) (authorIncludes st) v (sortKey st) (preview st) (windowStart st) (measuredCardHeight st) (cols st) (anchorIndex st) (pendingPreviewId st) (pendingIndex st) (pendingScrollId st) (restoringRef st) (scrollY st) (frames st) (timeouts st).
Definition setSortKey v := mkApp (entries st) (q st) (versionIncludes st) (versionExcludes st) (authorIncludes st) (authorExcludes st) v (preview st) (windowStart st) (measuredCardHeight st) (cols st) (anchorIndex st) (pendingPreviewId st) (pendingIndex st) (pendingScrollId st) (restoringRef st) (scrollY st) (frames st) (timeouts st).
Definition setPreview v := mkApp (entries st) (q st) (versionIncludes st) (versionExcludes st) (authorIncludes st) (authorExcludes st) (sortKey st) v (windowStart st) (measuredCardHeight st) (cols st) (anchorIndex st) (pendingPreviewId st) (pendingIndex st) (pendingScrollId st) (restoringRef st) (scrollY st) (frames st) (timeouts st).
Definition setWindowStart v := mkApp (entries st) (q st) (versionIncludes st) (versionExcludes st) (authorIncludes st) (authorExcludes st) (sortKey st) (preview st) v (measuredCardHeight st) (cols st) (anchorIndex st) (pendingPreviewId st) (pendingIndex st) (pendingScrollId st) (restoringRef st) (scrollY st) (frames st) (timeouts st).
Definition setMeasuredCardHeight v := mkApp (entries st) (q st) (versionIncludes st) (versionExcludes st) (authorIncludes st) (authorExcludes st) (sortKey st) (preview st) (windowStart st) v (cols st) (anchorIndex st) (pendingPreviewId st) (pendingIndex st) (pendingScrollId st) (restoringRef st) (scrollY st) (frames st) (timeouts st).
Definition setCols v := mkApp (entries st) (q st) (versionIncludes st) (versionExcludes st) (authorIncludes st) (authorExcludes st) (sortKey st) (preview st) (windowStart st) (measuredCardHeight st) v (anchorIndex st) (pendingPreviewId st) (pendingIndex st) (pendingScrollId st) (restoringRef st) (scrollY st) (frames st) (timeouts st).
Definition setAnchorIndex v := mkApp (entries st) (q st) (versionIncludes st) (versionExcludes st) (authorIncludes st) (authorExcludes st) (sortKey st) (preview st) (windowStart st) (measuredCardHeight st) (cols st) v (pendingPreviewId st) (pendingIndex st) (pendingScrollId st) (restoringRef st) (scrollY st) (frames st) (timeouts st).
Definition setPendingPreviewId v := mkApp (entries st) (q st) (versionIncludes st) (versionExcludes st) (authorIncludes st) (authorExcludes st) (sortKey st) (preview st) (windowStart st) (measuredCardHeight st) (cols st) (anchorIndex st) v (pendingIndex st) (pendingScrollId st) (restoringRef st) (scrollY st) (frames st) (timeouts st).
Definition setPendingIndex v := mkApp (entries st) (q st) (versionIncludes st) (versionExcludes st) (authorIncludes st) (authorExcludes st) (sortKey st) (preview st) (windowStart st) (measuredCardHeight st) (cols st) (anchorIndex st) (pendingPreviewId st) v (pendingScrollId st) (restoringRef st) (scrollY st) (frames st) (timeouts st).
Definition setPendingScrollId v := mkApp (entries st) (q st) (versionIncludes st) (versionExcludes st) (authorIncludes st) (authorExcludes st) (sortKey st) (preview st) (windowStart st) (measuredCardHeight st) (cols st) (anchorIndex st) (pendingPreviewId st) (pendingIndex st) v (restoringRef st) (scrollY st) (frames st) (timeouts st).
Definition setRestoringRef v := mkApp (entries st) (q st) (versionIncludes st) (versionExcludes st) (authorIncludes st) (authorExcludes st) (sortKey st) (preview st) (windowStart st) (measuredCardHeight st) (cols st) (anchorIndex st) (pendingPreviewId st) (pendingIndex st) (pendingScrollId st) v (scrollY st) (frames st) (timeouts st).
Definition setScrollY v := mkApp (entries st) (q st) (versionIncludes st) (versionExcludes st) (authorIncludes st) (authorExcludes st) (sortKey st) (preview st) (windowStart st) (measuredCardHeight st) (cols st) (anchorIndex st) (pendingPreviewId st) (pendingIndex st) (pendingScrollId st) (restoringRef st) v (frames st) (timeouts st).
Definition setFrames v := mkApp (entries st) (q st) (versionIncludes st) (versionExcludes st) (authorIncludes st) (authorExcludes st) (sortKey st) (preview st) (windowStart st) (measuredCardHeight st) (cols st) (anchorIndex st) (pendingPreviewId st) (pendingIndex st) (pendingScrollId st) (restoringRef st) (scrollY st) v (timeouts st).
Definition setTimeouts v := mkApp (entries st) (q st) (versionIncludes st) (versionExcludes st) (authorIncludes st) (authorExcludes st) (sortKey st) (preview st) (windowStart st) (measuredCardHeight st) (cols st) (anchorIndex st) (pendingPreviewId st) (pendingIndex st) (pendingScrollId st) (restoringRef st) (scrollY st) (frames st) v.

End Setters.

(** [requestAnimationFrame(cb)] and [setTimeout(cb, ms)] append to the queues. *)
Definition requestAnimationFrame (cb : Frame) (st : AppState) : AppState :=
  setFrames st (frames st ++ [cb])%list.

Definition setTimeout (cb : Timeout) (st : AppState) : AppState :=
  setTimeouts st (timeouts st ++ [cb])%list.

(* ================================================================== *)
(** ** Catalog normalization (the [load] effect) *)

Definition normalizeEntry (entry : RawLitematicEntry) (idx : Z) : LitematicEntry :=
  let createdAt :=
    match raw_timeCreated entry with
    | TimeString s => Js.parseInt s
    | TimeNumber n => Some (Js.Int n)
    end in
  {| file := raw_file entry;
     fileSizeBytes := raw_fileSizeBytes entry;
     dimensions := raw_dimensions entry;
     size := raw_size entry;
     dataVersion := raw_dataVersion entry;
     version := raw_version entry;
     timeCreated := raw_timeCreated entry;
     author := raw_author entry;
     has_image := raw_has_image entry;
     id := (raw_file entry ++ "-" ++ Js.numberToString idx)%string;
     createdAt := Js.finiteOrZero createdAt |}.

(** [xs.map((entry, idx) => ...)], counting from [idx]. *)
Fixpoint mapFrom {A B : Type} (f : A -> Z -> B) (idx : Z) (xs : list A) : list B :=
  match xs with
  | [] => []
  | a :: r => f a idx :: mapFrom f (idx + 1) r
  end.

Definition normalize (rawEntries : list RawLitematicEntry) : list LitematicEntry :=
  mapFrom normalizeEntry 0 rawEntries.

(* ================================================================== *)
(** ** Filter/sort pipeline *)

Definition searchTerms {host : Js.Host} (st : AppState) : list string :=
  Js.filterTruthy (Js.splitWs (Js.toLowerCase (q st))).

(** [values.length ? new Set(values) : null] *)
Definition newSetOrNull (values : list string) : option (list string) :=
  match values with
  | [] => None
  | _ => Some values
  end.

Definition has (s : list string) (v : string) : bool :=
  existsb (fun x => (x =? v)%string) s.

Definition versionIncludeSet st := newSetOrNull (versionIncludes st).
Definition versionExcludeSet st := newSetOrNull (versionExcludes st).
Definition authorIncludeSet st := newSetOrNull (authorIncludes st).
Definition authorExcludeSet st := newSetOrNull (authorExcludes st).

(** [set && set.has(v)] and [set && !set.has(v)] *)
Definition setAndHas (s : option (list string)) (v : string) : bool :=
  match s with
  | Some l => has l v
  | None => false
  end.

Definition setAndLacks (s : option (list string)) (v : string) : bool :=
  match s with
  | Some l => negb (has l v)
  | None => false
  end.

Definition filterCallback {host : Js.Host} (st : AppState) (entry : LitematicEntry)
    : bool :=
  if setAndHas (versionExcludeSet st) (version entry) then false
  else if setAndHas (authorExcludeSet st) (author entry) then false
  else if setAndLacks (versionIncludeSet st) (version entry) then false
  else if setAndLacks (authorIncludeSet st) (author entry) then false
  else matchesSearch entry (searchTerms st).

(** [Array.prototype.sort] with a comparator: a stable sort; [x] goes before
    the first element it does not compare greater than. *)
Fixpoint sortInsert {A : Type} (cmp : A -> A -> Z) (x : A) (l : list A) : list A :=
  match l with
  | [] => [x]
  | y :: r => if cmp x y <=? 0 then x :: l else y :: sortInsert cmp x r
  end.

Fixpoint jsSort {A : Type} (cmp : A -> A -> Z) (l : list A) : list A :=
  match l with
  | [] => []
  | x :: r => sortInsert cmp x (jsSort cmp r)
  end.

(** The sort comparator; [localeCompare] stands for
    [a.localeCompare(b, undefined, { sensitivity: "base" })], which belongs
    to the host's collation tables. *)
Definition compareEntries (localeCompare : string -> string -> Z)
    (key : SortKey) (a b : LitematicEntry) : Z :=
  match key with
  | oldest => createdAt a - createdAt b
  | az => localeCompare (file a) (file b)
  | newest => createdAt b - createdAt a
  end.

Definition filterList {host : Js.Host} (st : AppState) : list LitematicEntry :=
  filter (filterCallback st) (entries st).

Definition filtered {host : Js.Host} (localeCompare : string -> string -> Z)
    (st : AppState) : list LitematicEntry :=
  jsSort (compareEntries localeCompare (sortKey st)) (filterList st).

(** A collation used where a concrete one is needed: compare the names byte
    by byte, the letters A to Z folded. *)
Definition asciiCollate (a b : string) : Z :=
  match String.compare (Js.foldCase a) (Js.foldCase b) with
  | Lt => -1
  | Eq => 0
  | Gt => 1
  end.

(* ================================================================== *)
(** ** Facet counter *)

Definition versionPreviewList {host : Js.Host} (st : AppState) : list LitematicEntry :=
  filter (fun entry =>
    if setAndHas (versionExcludeSet st) (version entry) then false
    else if setAndHas (authorExcludeSet st) (author entry) then false
    else if setAndLacks (authorIncludeSet st) (author entry) then false
    else matchesSearch entry (searchTerms st)) (entries st).

Definition authorPreviewList {host : Js.Host} (st : AppState) : list LitematicEntry :=
  filter (fun entry =>
    if setAndHas (versionExcludeSet st) (version entry) then false
    else if setAndHas (authorExcludeSet st) (author entry) then false
    else if setAndLacks (versionIncludeSet st) (version entry) then false
    else matchesSearch entry (searchTerms st)) (entries st).

(** What a property of the counting object can hold, or a read of one can
    give: a number, a string, or a member inherited from [Object.prototype]
    (a function or the prototype itself) with the text [String] gives for
    it. *)
Inductive CountValue : Type :=
| Count (n : Z)
| Text (s : string)
| Member (text : string).

(** The own properties of the counting object [{}], the newest first. *)
Definition Counts : Type := list (string * CountValue).

Fixpoint own (m : Counts) (k : string) : option CountValue :=
  match m with
  | [] => None
  | (k', v) :: rest => if (k' =? k)%string then Some v else own rest k
  end.

(** [map[k]]: an own property, else what the object inherits; [None] is
    [undefined]. *)
Definition valueOf {host : Js.Host} (m : Counts) (k : string) : option CountValue :=
  match own m k with
  | Some v => Some v
  | None => option_map Member (Js.inherited k)
  end.

(** [(v || 0) + 1]: a number is incremented, a string or an inherited member
    is turned into text with "1" appended. *)
Definition increment (v : option CountValue) : CountValue :=
  match v with
  | Some (Count n) => Count (n + 1)
  | Some (Text s) => if Js.truthy s then Text (s ++ "1") else Count 1
  | Some (Member t) => Text (t ++ "1")
  | None => Count 1
  end.

(** [map[k] = v]: where the object inherits the [__proto__] accessor, its
    setter ignores a value that is no object; any other name becomes an own
    property. *)
Definition assign {host : Js.Host} (m : Counts) (k : string) (v : CountValue) : Counts :=
  match Js.inherited k with
  | Some _ => if (k =? "__proto__")%string then m else (k, v) :: m
  | None => (k, v) :: m
  end.

(** [map[k] = (map[k] || 0) + 1] *)
Definition bump {host : Js.Host} (m : Counts) (k : string) : Counts :=
  assign m k (increment (valueOf m k)).

(** The [forEach] loop over a preview list. *)
Definition countBy {host : Js.Host} (key : LitematicEntry -> string)
    (l : list LitematicEntry) : Counts :=
  fold_left (fun m e => bump m (key e)) l [].

(** [map[k] || 0] *)
Definition countOrZero {host : Js.Host} (m : Counts) (k : string) : CountValue :=
  match valueOf m k with
  | Some (Count n) => Count n
  | Some (Text s) => if Js.truthy s then Text s else Count 0
  | Some (Member t) => Member t
  | None => Count 0
  end.

Definition filteredVersionCounts {host : Js.Host} (st : AppState) : Counts :=
  countBy version (versionPreviewList st).

Definition filteredAuthorCounts {host : Js.Host} (st : AppState) : Counts :=
  countBy author (authorPreviewList st).

(* ================================================================== *)
(** ** Navigation state codec *)

(** [sp.get(name) || ""] *)
Definition orEmpty (o : option string) : string :=
  match o with
  | Some s => s
  | None => ""
  end.

(** Truthiness of [string | null]. *)
Definition truthyOpt (o : option string) : bool :=
  match o with
  | Some s => Js.truthy s
  | None => false
  end.

Definition sortKeyName (k : SortKey) : string :=
  match k with
  | newest => "newest"
  | oldest => "oldest"
  | az => "az"
  end.

(** The inbound decoder. The state setters run in source order; the timer
    that may end the restoration is queued last. *)
Definition applyParams (sp : URLSearchParams.t) (st : AppState) : AppState :=
  let st := setRestoringRef st true in
  let st := setQ st (orEmpty (URLSearchParams.get sp "q")) in
  let sortParam := URLSearchParams.get sp "sort" in
  let st :=
    match sortParam with
    | Some s =>
        if (s =? "newest")%string then setSortKey st newest
        else if (s =? "oldest")%string then setSortKey st oldest
        else if (s =? "az")%string then setSortKey st az
        else st
    | None => st
    end in
  let st := setVersionIncludes st (parseListParam (URLSearchParams.get sp "vInc")) in
  let st := setVersionExcludes st (parseListParam (URLSearchParams.get sp "vExc")) in
  let st := setAuthorIncludes st (parseListParam (URLSearchParams.get sp "aInc")) in
  let st := setAuthorExcludes st (parseListParam (URLSearchParams.get sp "aExc")) in
  let st := setPendingPreviewId st (URLSearchParams.get sp "preview") in
  let scrollVal := URLSearchParams.get sp SCROLL_PARAM_KEY in
  let st :=
    setPendingIndex st
      (match scrollVal with
       | Some v => if Js.truthy v then Some (Js.orZero (Js.parseInt v)) else None
       | None => None
       end) in
  setTimeout TimeoutApplyParams st.

(** The effect on [entries] that resolves a pending preview identifier:
    [entries.find] returns the first entry whose [id] or [file] matches. *)
Definition previewEffect (st : AppState) : AppState :=
  match pendingPreviewId st, entries st with
  | Some pid, _ :: _ =>
      if Js.truthy pid then
        let st' :=
          match find (fun e => (id e =? pid)%string || (file e =? pid)%string) (entries st) with
          | Some m => setPreview st (Some m)
          | None => st
          end in
        setPendingPreviewId st' None
      else st
  | _, _ => st
  end.

(** The outbound encoder. *)
Definition buildParams (indexOverride : option Z) (st : AppState) : URLSearchParams.t :=
  let params := URLSearchParams.empty in
  let params :=
    if Js.truthy (Js.trim (q st)) then URLSearchParams.set params "q" (q st) else params in
  let params :=
    match sortKey st with
    | newest => params
    | k => URLSearchParams.set params "sort" (sortKeyName k)
    end in
  let vInc := listToParam (versionIncludes st) in
  let vExc := listToParam (versionExcludes st) in
  let aInc := listToParam (authorIncludes st) in
  let aExc := listToParam (authorExcludes st) in
  let params := if truthyOpt vInc then URLSearchParams.set params "vInc" (orEmpty vInc) else params in
  let params := if truthyOpt vExc then URLSearchParams.set params "vExc" (orEmpty vExc) else params in
  let params := if truthyOpt aInc then URLSearchParams.set params "aInc" (orEmpty aInc) else params in
  let params := if truthyOpt aExc then URLSearchParams.set params "aExc" (orEmpty aExc) else params in
  let params :=
    match preview st with
    | Some p => if Js.truthy (id p) then URLSearchParams.set params "preview" (id p) else params
    | None => params
    end in
  let idxVal :=
    match indexOverride with
    | Some i => i
    | None => anchorIndex st
    end in
  URLSearchParams.set params SCROLL_PARAM_KEY (Js.numberToString (Z.max 0 idxVal)).

(** A facet value that the comma-separated encoding carries unchanged: not
    empty, free of commas, and without white space at either end. *)
Definition isCleanToken (t : string) : bool :=
  Js.truthy t && (Js.trim t =? t)%string && negb (Js.hasChar "," t).

(* ================================================================== *)
(** ** Windowing engine *)

(** [(measuredCardHeight || 360) + ROW_GAP] *)
Definition approxRowHeight (st : AppState) : Z :=
  match measuredCardHeight st with
  | Some h => if h =? 0 then 360 else h
  | None => 360
  end + ROW_GAP.

(** The effect on [filtered.length] that resets the window, unless a
    restoration is pending. *)
Definition resetEffect (st : AppState) : AppState :=
  match pendingIndex st with
  | Some _ => st
  | None => setAnchorIndex (setWindowStart st 0) 0
  end.

(** The effect on [filtered.length] that clamps the window start. *)
Definition clampEffect (filteredLength : Z) (st : AppState) : AppState :=
  setWindowStart st (Z.min (windowStart st) (Z.max 0 (filteredLength - 1))).

(** [Math.ceil(a / b)] for a positive divisor. *)
Definition ceilDiv (a b : Z) : Z := - ((- a) / b).

Definition windowEnd (filteredLength : Z) (st : AppState) : Z :=
  Z.min filteredLength (windowStart st + WINDOW_SIZE).

(** [Math.floor(windowStart / cols)]; [cols] is positive. *)
Definition topRows (st : AppState) : Z := windowStart st / cols st.

Definition bottomRows (filteredLength : Z) (st : AppState) : Z :=
  ceilDiv (filteredLength - windowEnd filteredLength st) (cols st).

Definition topSpacer (st : AppState) : Z :=
  Z.max 0 (topRows st * approxRowHeight st).

Definition bottomSpacer (filteredLength : Z) (st : AppState) : Z :=
  Z.max 0 (bottomRows filteredLength st * approxRowHeight st).

(** [xs.slice(start, end)], with the relative-index rule for negative bounds. *)
Definition slice {A : Type} (xs : list A) (start stop : Z) : list A :=
  let len := Z.of_nat (List.length xs) in
  let k := if start <? 0 then Z.max (len + start) 0 else Z.min start len in
  let final := if stop <? 0 then Z.max (len + stop) 0 else Z.min stop len in
  firstn (Z.to_nat (final - k)) (skipn (Z.to_nat k) xs).

Definition visible (flt : list LitematicEntry) (st : AppState) : list LitematicEntry :=
  slice flt (windowStart st) (windowEnd (Z.of_nat (List.length flt)) st).

(** The effect that measures one rendered card, when there is one. *)
Definition measureEffect (card : option Z) (st : AppState) : AppState :=
  match card with
  | Some h => setMeasuredCardHeight st (Some h)
  | None => st
  end.

(* ================================================================== *)
(** ** Scroll anchor tracker *)

(** What [document.querySelector] does with a selector: it throws on one
    that is no valid selector, returns [null], or returns an element, of which
    the bounding top is read. *)
Inductive QueryResult : Type :=
| QueryThrows
| QueryNull
| QueryElement (rectTop : Z).

(** What the component reads from the document: the outcome of a selector
    lookup, the height of the header, and the top of the grid. *)
Record Dom : Type := mkDom {
  querySelector : string -> QueryResult;
  headerHeight : Z;
  gridTop : Z
}.

Definition quote : ascii := "034"%char.

(** The [replace] call of [tryScroll]: a backslash is put before each double
    quote of the id, and before nothing else. *)
Fixpoint escapeQuotes (s : string) : string :=
  match s with
  | EmptyString => EmptyString
  | String c r =>
      if (c =? quote)%char then String "\" (String quote (escapeQuotes r))
      else String c (escapeQuotes r)
  end.

(** The selector that [tryScroll] builds for a target id. *)
Definition entrySelector (targetId : string) : string :=
  ("[data-entry-id=" ++ String quote (escapeQuotes targetId ++ String quote "]"))%string.

(** [(header height || 0) + 8] *)
Definition getHeaderOffset (dom : Dom) : Z := headerHeight dom + 8.

(** The scroll listener, as far as it writes the window state; its
    [replaceState] call only rewrites the address bar. *)
Definition handleScroll (dom : Dom) (st : AppState) : AppState :=
  if restoringRef st then st
  else
    let offset := getHeaderOffset dom in
    let rel := Z.max 0 (scrollY st + offset - gridTop dom) in
    let row := rel / approxRowHeight st in
    let withinRow := rel - row * approxRowHeight st in
    let anchorRow := if approxRowHeight st <? 2 * withinRow then row + 1 else row in
    let anchor := Z.max 0 (anchorRow * cols st) in
    let start := Z.max 0 (anchor - BUFFER_ROWS * cols st) in
    setWindowStart (setAnchorIndex st anchor) start.

(** The restoration effect on [filtered.length], [cols], [approxRowHeight]. *)
Definition restoreEffect (flt : list LitematicEntry) (st : AppState) : AppState :=
  match pendingIndex st with
  | None => st
  | Some pending =>
      let len := Z.of_nat (List.length flt) in
      if len =? 0 then st
      else
        let idx := Js.clamp 0 (len - 1) pending in
        if idx =? 0 then
          let st := setPendingIndex st None in
          let st := setRestoringRef st true in
          requestAnimationFrame FrameScrollTop st
        else
          let start := Z.max 0 (idx - BUFFER_ROWS * cols st) in
          let st := setAnchorIndex st idx in
          let st := setWindowStart st start in
          let st :=
            setPendingScrollId st
              (match nth_error flt (Z.to_nat idx) with
               | Some e => if Js.truthy (id e) then Some (id e) else None
               | None => None
               end) in
          let st := setPendingIndex st None in
          setRestoringRef st true
  end.

(** The effect on [visible] that starts the element search. *)
Definition locateEffect (st : AppState) : AppState :=
  match pendingScrollId st with
  | Some targetId =>
      if Js.truthy targetId
      then requestAnimationFrame (FrameTryScroll targetId 0) st
      else st
  | None => st
  end.

(** One callback of an animation frame.  A lookup that throws ends the
    callback where it stands: nothing is queued and nothing is written. *)
Definition runCallback (dom : Dom) (cb : Frame) (st : AppState) : AppState :=
  match cb with
  | FrameScrollTop =>
      let st := setScrollY st 0 in
      setTimeout TimeoutEndRestoring st
  | FrameTryScroll targetId attempts =>
      match querySelector dom (entrySelector targetId) with
      | QueryThrows => st
      | QueryElement rectTop =>
          let top := rectTop + scrollY st - getHeaderOffset dom in
          let st := setScrollY st (Z.max 0 top) in
          let st := setTimeout TimeoutEndRestoring st in
          setPendingScrollId st None
      | QueryNull =>
          let attempts := attempts + 1 in
          if attempts <? 10
          then requestAnimationFrame (FrameTryScroll targetId attempts) st
          else setRestoringRef st false
      end
  end.

(** One animation frame: the browser runs every callback that was queued
    before the frame, oldest first; what they queue waits for the next
    frame. *)
Definition runFrame (dom : Dom) (st : AppState) : AppState :=
  fold_left (fun s cb => runCallback dom cb s) (frames st) (setFrames st []).

(** One timer firing: the browser runs the oldest queued timer callback. *)
Definition runTimeout (st : AppState) : AppState :=
  match timeouts st with
  | [] => st
  | TimeoutApplyParams :: rest =>
      let st := setTimeouts st rest in
      match pendingIndex st with
      | None => setRestoringRef st false
      | Some _ => st
      end
  | TimeoutEndRestoring :: rest =>
      setRestoringRef (setTimeouts st rest) false
  end.

(** The frames of a run, one document snapshot per frame. *)
Fixpoint runFrames (doms : list Dom) (st : AppState) : AppState :=
  match doms with
  | [] => st
  | dom :: rest => runFrames rest (runFrame dom st)
  end.

(** The document as seen at frames [i], [i+1], ..., [i+n-1]. *)
Definition framesFrom (doms : nat -> Dom) (i n : nat) : list Dom :=
  map doms (seq i n).

(** All queued timers fire, oldest first. *)
Definition drainTimeouts (st : AppState) : AppState :=
  Nat.iter (List.length (timeouts st)) runTimeout st.

(** One timer firing, whichever of the queued timers is due: the [i]-th. *)
Definition fireTimeout (i : nat) (st : AppState) : AppState :=
  match nth_error (timeouts st) i with
  | None => st
  | Some cb =>
      let st := setTimeouts st (firstn i (timeouts st) ++ skipn (S i) (timeouts st))%list in
      match cb with
      | TimeoutApplyParams =>
          match pendingIndex st with
          | None => setRestoringRef st false
          | Some _ => st
          end
      | TimeoutEndRestoring => setRestoringRef st false
      end
  end.

(* ================================================================== *)
(** ** The effects of one commit *)

(** Which dependency lists differ from those of the previous render:
    [entries]; the filters ([q], [sortKey], the four facet lists and
    [preview?.id]); [filtered.length]; [cols]; [approxRowHeight]; and
    [visible]. *)
Record Changed : Type := mkChanged {
  entriesChanged : bool;
  filtersChanged : bool;
  lengthChanged : bool;
  colsChanged : bool;
  rowHeightChanged : bool;
  visibleChanged : bool
}.

(** The effects that write the component state, run in source order after
    a render, each one only when one of its dependencies has changed:
    preview resolution, window reset and clamp, the scroll handler (called
    once when its effect is set up again), restoration, card measurement and
    the start of the element search.  [flt] is [filtered] as rendered and
    [card] the height of the first card of the document, if any.  The
    effect that pushes the query string writes the address bar only. *)
Definition flush (ch : Changed) (dom : Dom) (flt : list LitematicEntry)
    (card : option Z) (st : AppState) : AppState :=
  let len := Z.of_nat (List.length flt) in
  let st := if entriesChanged ch then previewEffect st else st in
  let st := if lengthChanged ch then resetEffect st else st in
  let st := if lengthChanged ch then clampEffect len st else st in
  let st :=
    if rowHeightChanged ch || colsChanged ch || filtersChanged ch
    then handleScroll dom st else st in
  let st :=
    if lengthChanged ch || colsChanged ch || rowHeightChanged ch
    then restoreEffect flt st else st in
  let st := if lengthChanged ch || colsChanged ch then measureEffect card st else st in
  if visibleChanged ch then locateEffect st else st.

(** What can happen to a mounted component between two navigations: an
    animation frame, a timer that fires, a scroll event at some offset, or
    a render followed by its effects. *)
Inductive Step : Type :=
| StepFrame (dom : Dom)
| StepTimer (i : nat)
| StepScroll (dom : Dom) (y : Z)
| StepFlush (ch : Changed) (dom : Dom) (flt : list LitematicEntry) (card : option Z).

Definition runStep (s : Step) (st : AppState) : AppState :=
  match s with
  | StepFrame dom => runFrame dom st
  | StepTimer i => fireTimeout i st
  | StepScroll dom y => handleScroll dom (setScrollY st y)
  | StepFlush ch dom flt card => flush ch dom flt card st
  end.

Definition runSteps (steps : list Step) (st : AppState) : AppState :=
  fold_left (fun s step => runStep step s) steps st.

(** The documents of a schedule. *)
Definition stepDom (s : Step) : option Dom :=
  match s with
  | StepFrame dom => Some dom
  | StepTimer _ => None
  | StepScroll dom _ => Some dom
  | StepFlush _ dom _ _ => Some dom
  end.

(** No selector lookup fails in [dom]. *)
Definition neverThrows (dom : Dom) : Prop :=
  forall selector, querySelector dom selector <> QueryThrows.


(* ================================================================== *)
(** ** Progress of a restoration *)

(** Every queued element search has made at least [k] attempts and, once
    [k] is positive, fewer than ten; the callback that scrolls to the top is
    queued only when [k] is 0. *)
Definition searchesFrom (k : Z) (st : AppState) : Prop :=
  forall cb, In cb (frames st) ->
    match cb with
    | FrameScrollTop => k = 0
    | FrameTryScroll _ attempts => k <= attempts /\ (0 < k -> attempts < 10)
    end.

(** The suppression flag is clear, or something is queued that will clear
    it: a frame callback, or the timer that ends the restoration. *)
Definition restorationEnds (st : AppState) : Prop :=
  restoringRef st = false \/ frames st <> [] \/ In TimeoutEndRestoring (timeouts st).

(* ================================================================== *)
(** ** Layout, option lists and display helpers *)

(** [getCols]: the column count of the grid for a window width; [None] is a
    run without a window. *)
Definition getCols (innerWidth : option Z) : Z :=
  match innerWidth with
  | None => 1
  | Some w =>
      if 1536 <=? w then 4
      else if 1280 <=? w then 3
      else if 640 <=? w then 2
      else 1
  end.

(** [Array.from(new Set(xs))], which is also [unique] of the utilities: the
    first occurrence of each value, in order. *)
Fixpoint uniqueFrom (seen : list string) (xs : list string) : list string :=
  match xs with
  | [] => []
  | x :: r =>
      if has seen x then uniqueFrom seen r
      else x :: uniqueFrom (x :: seen) r
  end.

Definition unique (xs : list string) : list string := uniqueFrom [] xs.

(** [a.split(".").map((n) => Number.parseInt(n, 10) || 0)] *)
Definition versionParts (a : string) : list Js.Num :=
  map (fun n => Js.orZero (Js.parseInt n)) (Js.split "." a).

(** [p[i] || 0] *)
Definition partAt (p : list Js.Num) (i : nat) : Js.Num := nth i p (Js.Int 0).

(** The loop of [compareVersionsDesc] from index [i] with [n] rounds to go.
    [None]: the loop ran to its end; [Some diff]: it returned [diff], which
    is [NaN] ([None]) when both parts are the same infinity. *)
Fixpoint versionLoop (pa pb : list Js.Num) (i n : nat) : option (option Js.Num) :=
  match n with
  | O => None
  | S n' =>
      let diff := Js.sub (partAt pb i) (partAt pa i) in
      match diff with
      | Some (Js.Int 0) => versionLoop pa pb (S i) n'
      | _ => Some diff
      end
  end.

(** The integer of a part that is finite. *)
Definition partValue (p : list Js.Num) (i : nat) : Z :=
  match partAt p i with
  | Js.Int z => z
  | Js.Infinity _ => 0
  end.

(** [localeCompare] is the host's default collation. *)
Definition compareVersionsDesc (localeCompare : string -> string -> Z)
    (a b : string) : option Js.Num :=
  let pa := versionParts a in
  let pb := versionParts b in
  let len := Nat.max (List.length pa) (List.length pb) in
  match versionLoop pa pb 0 len with
  | Some diff => diff
  | None => Some (Js.Int (localeCompare b a))
  end.

(** The order in which [sort(compareVersionsDesc)] puts two versions. *)
Definition versionOrder (localeCompare : string -> string -> Z) (a b : string) : Z :=
  Js.sortOrder (compareVersionsDesc localeCompare a b).

(** Every part of the version is a finite number: none has the three
    hundred digits and more that make an infinity. *)
Definition finiteVersion (a : string) : bool :=
  forallb Js.isFinite (versionParts a).

Definition availableVersions (localeCompare : string -> string -> Z)
    (st : AppState) : list string :=
  jsSort (versionOrder localeCompare) (unique (map version (entries st))).

Definition availableAuthors (localeCompare : string -> string -> Z)
    (st : AppState) : list string :=
  jsSort localeCompare (unique (map author (entries st))).

(** [type Option = { value: string; count?: number }]; at run time the
    count is whatever the counting object gave. *)
Record Option : Type := mkOption {
  value : string;
  count : option CountValue
}.

(** [a ?? 0] *)
Definition orNullish (a : option CountValue) : CountValue :=
  match a with
  | Some v => v
  | None => Count 0
  end.

(** The Number that a subtraction makes of a count: the text of a function
    or of an object is no numeral, so anything but a number gives [NaN]
    ([None]). *)
Definition countNumber (v : CountValue) : option Z :=
  match v with
  | Count n => Some n
  | Text _ => None
  | Member _ => None
  end.

(** [(b.count ?? 0) - (a.count ?? 0) || a.value.localeCompare(b.value)]: a
    difference that is 0 or [NaN] gives way to the collation. *)
Definition compareOptions (localeCompare : string -> string -> Z)
    (a b : Option) : Z :=
  match countNumber (orNullish (count b)), countNumber (orNullish (count a)) with
  | Some x, Some y =>
      if x - y =? 0 then localeCompare (value a) (value b) else x - y
  | _, _ => localeCompare (value a) (value b)
  end.

(** The count of an option as a number, 0 when it is none. *)
Definition optionCount (o : Option) : Z :=
  match countNumber (orNullish (count o)) with
  | Some n => n
  | None => 0
  end.

(** [counts[v] || 0] on the counts of a preview list. *)
Definition versionOptions {host : Js.Host} (localeCompare : string -> string -> Z)
    (st : AppState) : list Option :=
  jsSort (compareOptions localeCompare)
    (map (fun v => mkOption v (Some (countOrZero (filteredVersionCounts st) v)))
       (availableVersions localeCompare st)).

Definition authorOptions {host : Js.Host} (localeCompare : string -> string -> Z)
    (st : AppState) : list Option :=
  jsSort (compareOptions localeCompare)
    (map (fun a => mkOption a (Some (countOrZero (filteredAuthorCounts st) a)))
       (availableAuthors localeCompare st)).

Module AutocompleteBox.

(** The options offered under the input: not yet selected, holding the
    typed text, at most twenty. *)
Definition filtered {host : Js.Host} (options : list Option) (query : string)
    (selected : list string) : list Option :=
  let lower := Js.toLowerCase query in
  slice
    (filter (fun opt =>
       negb (has selected (value opt)) &&
       (negb (Js.truthy lower) || Js.includes (Js.toLowerCase (value opt)) lower))
       options)
    0 20.

(** [onAdd]: [(prev) => [...prev, v]] *)
Definition onAdd (prev : list string) (v : string) : list string :=
  (prev ++ [v])%list.

(** [onRemove]: [(prev) => prev.filter((x) => x !== v)] *)
Definition onRemove (prev : list string) (v : string) : list string :=
  filter (fun x => negb (x =? v)%string) prev.

End AutocompleteBox.

Definition hasFilters (st : AppState) : bool :=
  (0 <? String.length (Js.trim (q st)))%nat
  || (0 <? List.length (versionIncludes st))%nat
  || (0 <? List.length (versionExcludes st))%nat
  || (0 <? List.length (authorIncludes st))%nat
  || (0 <? List.length (authorExcludes st))%nat.

Definition clearFilters (st : AppState) : AppState :=
  let st := setQ st "" in
  let st := setVersionIncludes st [] in
  let st := setVersionExcludes st [] in
  let st := setAuthorIncludes st [] in
  setAuthorExcludes st [].

(* ================================================================== *)
(** ** Card titles *)

(** The longest run at the end of [s] of characters that satisfy [p] is cut
    off: what replacing [/[p]+$/] by nothing does. *)
Fixpoint stripTrailing (p : ascii -> bool) (s : string) : string :=
  match s with
  | EmptyString => EmptyString
  | String c r =>
      match stripTrailing p r with
      | EmptyString => if p c then EmptyString else String c EmptyString
      | r' => String c r'
      end
  end.

Definition isDigit (c : ascii) : bool :=
  match Js.digitVal c with
  | Some _ => true
  | None => false
  end.

Definition isDashOrUnderscore (c : ascii) : bool :=
  (c =? "-")%char || (c =? "_")%char.

(** The text before a final [suffix], compared as a regular expression with
    the [i] flag compares ASCII letters, when [s] ends with it. *)
Fixpoint stripSuffixIgnoringCase (suffix s : string) : option string :=
  if (Js.foldCase s =? suffix)%string then Some EmptyString
  else match s with
       | EmptyString => None
       | String c r => option_map (String c) (stripSuffixIgnoringCase suffix r)
       end.

(** [file.replace(/\.litematic$/i, "")] *)
Definition stripLitematic (file : string) : string :=
  match stripSuffixIgnoringCase ".litematic" file with
  | Some base => base
  | None => file
  end.

(** [base.replace(/[-_]*\d{8,}$/i, "")]: the match, if any, is the final run
    of digits, when it has eight or more, with the dashes and underscores
    right before it. *)
Definition stripSnowflake (base : string) : string :=
  let noDigits := stripTrailing isDigit base in
  if (8 <=? String.length base - String.length noDigits)%nat
  then stripTrailing isDashOrUnderscore noDigits
  else base.

(** [s.replace(/_/g, " ")] *)
Fixpoint underscoresToSpaces (s : string) : string :=
  match s with
  | EmptyString => EmptyString
  | String c r =>
      String (if (c =? "_")%char then " "%char else c) (underscoresToSpaces r)
  end.

Definition displayName (file : string) : string :=
  let base := stripLitematic file in
  let withoutSnowflake := stripTrailing isDashOrUnderscore (stripSnowflake base) in
  let cleaned := if Js.truthy withoutSnowflake then withoutSnowflake else base in
  underscoresToSpaces cleaned.

(* ================================================================== *)
(** ** Address bar *)

(** Equality of query strings.  The text form of a parameter list is
    one-to-one, so comparing two texts compares the lists. *)
Fixpoint paramsEqb (a b : URLSearchParams.t) : bool :=
  match a, b with
  | [], [] => true
  | (k, v) :: ra, (k', v') :: rb =>
      (k =? k')%string && (v =? v')%string && paramsEqb ra rb
  | _, _ => false
  end.

(** The address side of the component: the last query string written, and
    the query strings of the session history up to the current entry, the
    current one first. *)
Record Nav : Type := mkNav {
  lastPushedParamsRef : URLSearchParams.t;
  history : list URLSearchParams.t
}.

Definition pushState (qs : URLSearchParams.t) (nav : Nav) : Nav :=
  mkNav (lastPushedParamsRef nav) (qs :: history nav).

Definition replaceState (qs : URLSearchParams.t) (nav : Nav) : Nav :=
  mkNav (lastPushedParamsRef nav) (qs :: tl (history nav)).

(** The effect on filters, sort key and preview that pushes a history
    entry. *)
Definition syncEffect (st : AppState) (nav : Nav) : Nav :=
  if restoringRef st then nav
  else
    let qs := buildParams None st in
    if paramsEqb qs (lastPushedParamsRef nav) then nav
    else pushState qs (mkNav qs (history nav)).

(** The anchor that [handleScroll] computes from the scroll position. *)
Definition scrollAnchor (dom : Dom) (st : AppState) : Z :=
  let offset := getHeaderOffset dom in
  let rel := Z.max 0 (scrollY st + offset - gridTop dom) in
  let row := rel / approxRowHeight st in
  let withinRow := rel - row * approxRowHeight st in
  let anchorRow := if approxRowHeight st <? 2 * withinRow then row + 1 else row in
  Z.max 0 (anchorRow * cols st).

(** The address side of [handleScroll]: the current history entry is
    overwritten. *)
Definition scrollSync (dom : Dom) (st : AppState) (nav : Nav) : Nav :=
  if restoringRef st then nav
  else
    let qs := buildParams (Some (scrollAnchor dom st)) st in
    if paramsEqb qs (lastPushedParamsRef nav) then nav
    else replaceState qs (mkNav qs (history nav)).

(* ================================================================== *)
(** ** Catalog load *)

(** What a [throw] carries: an [Error] with its message, or something else. *)
Inductive Thrown : Type :=
| ThrownError (message : string)
| ThrownOther.

(** [await res.json()]: a failure, or a document whose [entries] may be
    missing. *)
Inductive JsonOutcome : Type :=
| JsonThrows (e : Thrown)
| JsonValue (jsonEntries : option (list RawLitematicEntry)).

(** [await fetch(...)] *)
Inductive FetchOutcome : Type :=
| FetchThrows (e : Thrown)
| FetchResponse (ok : bool) (status : Z) (body : JsonOutcome).

Record LoadState : Type := mkLoad {
  loadedEntries : list LitematicEntry;
  loading : bool;
  error : option string
}.

Definition errorMessage (e : Thrown) : string :=
  match e with
  | ThrownError m => m
  | ThrownOther => "Unable to load litematics"
  end.

(** The [catch] and [finally] blocks. *)
Definition loadFailed (e : Thrown) (cancelled : bool) (ls : LoadState) : LoadState :=
  let ls := if cancelled then ls
            else mkLoad (loadedEntries ls) (loading ls) (Some (errorMessage e)) in
  if cancelled then ls else mkLoad (loadedEntries ls) false (error ls).

(** [load]: [cancelled] is the flag as it stands when the fetch has settled. *)
Definition load (outcome : FetchOutcome) (cancelled : bool) (ls : LoadState) : LoadState :=
  let ls := mkLoad (loadedEntries ls) true None in
  match outcome with
  | FetchThrows e => loadFailed e cancelled ls
  | FetchResponse ok status body =>
      if negb ok then
        loadFailed
          (ThrownError ("Failed to load litematics (" ++ Js.numberToString status ++ ")"))
          cancelled ls
      else
        match body with
        | JsonThrows e => loadFailed e cancelled ls
        | JsonValue jsonEntries =>
            if cancelled then ls
            else
              let rawEntries := match jsonEntries with Some l => l | None => [] end in
              let ls := mkLoad (normalize rawEntries) (loading ls) (error ls) in
              mkLoad (loadedEntries ls) false (error ls)
        end
  end.

(** Every character of [s] satisfies [p]. *)
Fixpoint allChars (p : ascii -> bool) (s : string) : bool :=
  match s with
  | EmptyString => true
  | String c r => p c && allChars p r
  end.

(** The last character of [s] exists and satisfies [p]. *)
Fixpoint endsIn (p : ascii -> bool) (s : string) : bool :=
  match s with
  | EmptyString => false
  | String c EmptyString => p c
  | String _ r => endsIn p r
  end.

(* ================================================================== *)
(** ** Utilities *)

Module Utils.

(** [clsx(...xs)]: the class names that are neither [undefined], [false] nor
    empty, separated by spaces.  [None] is [undefined] or [false]. *)
Definition clsx (xs : list (option string)) : string :=
  Js.join " " (map orEmpty (filter truthyOpt xs)).

(** [Math.round(n / d)] for integers and a positive divisor: halves go up. *)
Definition roundDiv (n d : Z) : Z := (2 * n + d) / (2 * d).

(** The number and the unit that [timeAgo] prints; times are counts of
    milliseconds and [now] is [Date.now()]. *)
Definition timeAgoParts (now ts : Z) : Z * string :=
  let diff := now - ts in
  let sec := roundDiv diff 1000 in
  let min := roundDiv sec 60 in
  let hr := roundDiv min 60 in
  let day := roundDiv hr 24 in
  let yr := roundDiv day 365 in
  if sec <? 60 then (sec, "s")
  else if min <? 60 then (min, "m")
  else if hr <? 48 then (hr, "h")
  else if day <? 365 then (day, "d")
  else (yr, "y").

Definition timeAgo (now ts : Z) : string :=
  (Js.numberToString (fst (timeAgoParts now ts)) ++ snd (timeAgoParts now ts) ++ " ago")%string.

(** The fields of an author that [getAuthorName] reads; [isDiscordDeleted]
    is [a.type === AuthorType.DiscordDeleted]. *)
Record Author : Type := mkAuthor {
  authorDisplayName : option string;
  authorUsername : option string;
  authorReason : option string;
  isDiscordDeleted : bool
}.

Definition getAuthorName (a : Author) : string :=
  if truthyOpt (authorDisplayName a) then orEmpty (authorDisplayName a)
  else if truthyOpt (authorUsername a) then orEmpty (authorUsername a)
  else if truthyOpt (authorReason a) then orEmpty (authorReason a)
  else if isDiscordDeleted a then "Deleted" else "Unknown".

(** [s.replace(/\/{2,}/g, "/")]: a slash followed by a slash is dropped. *)
Fixpoint collapseSlashes (s : string) : string :=
  match s with
  | EmptyString => EmptyString
  | String c r =>
      if (c =? "/")%char then
        match r with
        | String "/" _ => collapseSlashes r
        | _ => String c (collapseSlashes r)
        end
      else String c (collapseSlashes r)
  end.

(** [s.replace(/^\/+/, "")] *)
Fixpoint stripLeadingSlashes (s : string) : string :=
  match s with
  | String "/" r => stripLeadingSlashes r
  | _ => s
  end.

(** The [joined] path of [assetURL]. *)
Definition joinedPath (channelPath entryPath rel : string) : string :=
  stripLeadingSlashes
    (collapseSlashes (Js.join "/" [channelPath; entryPath; rel])).

(** [encodeURI] belongs to the host. *)
Definition getRawURL (encodeURI : string -> string) (owner repo branch path : string)
    : string :=
  let safe := encodeURI (stripLeadingSlashes path) in
  ("https://raw.githubusercontent.com/" ++ owner ++ "/" ++ repo ++ "/" ++ branch
   ++ "/" ++ safe)%string.

Definition assetURL (encodeURI : string -> string)
    (channelPath entryPath rel owner repo branch : string) : string :=
  getRawURL encodeURI owner repo branch (joinedPath channelPath entryPath rel).

End Utils.

(** [s.startsWith("/")] *)
Definition startsWithSlash (s : string) : bool :=
  match s with
  | String c _ => (c =? "/")%char
  | EmptyString => false
  end.
(* ================================================================== *)
(** ** Sample data *)

Module Sample.

(** The names an empty object literal inherits in a browser. *)
Definition prototypeNames : list string :=
  ["constructor"; "hasOwnProperty"; "isPrototypeOf"; "propertyIsEnumerable";
   "toLocaleString"; "toString"; "valueOf"; "__defineGetter__";
   "__defineSetter__"; "__lookupGetter__"; "__lookupSetter__"].

(** A stand-in for a browser on ASCII text: the letters A to Z are
    lower-cased, and the inherited members print as native functions. *)
Definition host : Js.Host :=
  Js.mkHost Js.foldCase
    (fun k =>
       if (k =? "__proto__")%string then Some "[object Object]"
       else if (k =? "constructor")%string then Some "function Object() { [native code] }"
       else if existsb (String.eqb k) prototypeNames
            then Some ("function " ++ k ++ "() { [native code] }")%string
            else None).

Definition raw (f a v : string) (t : Z) : RawLitematicEntry :=
  mkRaw f 1024 (Dim.mk 3 4 5) "3x4x5" 3465 v (TimeNumber t) a false.

(** Two builds by different authors for different game versions. *)
Definition catalog : list LitematicEntry :=
  normalize [raw "Castle.litematic" "alice" "1.20" 200;
             raw "bridge.litematic" "bob" "1.21" 100].

(** Ten builds, all by one author. *)
Definition tenEntries : list LitematicEntry :=
  normalize (repeat (raw "farm.litematic" "carol" "1.20" 50) 10).

(** Sixty builds, enough for a window that starts at index 48. *)
Definition sixtyEntries : list LitematicEntry :=
  normalize (repeat (raw "farm.litematic" "carol" "1.20" 50) 60).

(** A build whose author is named like a member of [Object.prototype]. *)
Definition constructorBuild : LitematicEntry :=
  normalizeEntry (raw "tower.litematic" "constructor" "1.20" 300) 0.

(** White space beyond ASCII: U+00A0 and U+3000. *)
Definition noBreakSpace : string := Js.bytes [194; 160]%N.
Definition ideographicSpace : string := Js.bytes [227; 128; 128]%N.

(** A search text of three words, separated by a no-break space and by a
    tab with an ideographic space, and ending in a space. *)
Definition spacedQuery : string :=
  ("Castle" ++ noBreakSpace ++ "1.20" ++ Js.bytes [9]%N ++ ideographicSpace
   ++ "ALICE ")%string.

(** An author name that begins with a no-break space. *)
Definition paddedAuthor : string := (noBreakSpace ++ "bob")%string.

(** A document in which no card is rendered. *)
Definition emptyDom : Dom := mkDom (fun _ => QueryNull) 64 0.

(** A three-column state that has just decoded [idx=57]. *)
Definition restoring57 (catalog : list LitematicEntry) : AppState :=
  setPendingIndex (setEntries (initialState 3) catalog) (Some (Js.Int 57)).

(** A search for "castle", sorted by name, one version picked, scrolled to
    entry 42. *)
Definition castleSearch : AppState :=
  setAnchorIndex
    (setVersionIncludes (setSortKey (setQ (initialState 3) "castle") az) ["1.20"]) 42.

(** The visitor has picked one author, whose name holds a comma. *)
Definition commaAuthor : AppState :=
  setAuthorIncludes (initialState 3) ["Smith, John"].

(** The visitor has excluded the only author of the first sample build. *)
Definition aliceExcluded : AppState :=
  setAuthorExcludes (setEntries (initialState 3) catalog) ["alice"].

(** The visitor has excluded the game version of the first sample build. *)
Definition version120Excluded : AppState :=
  setVersionExcludes (setEntries (initialState 3) catalog) ["1.20"].

(** The visitor sorts oldest first; the address bar then changes under the
    component to a query string with an unknown sort value. *)
Definition sortedOldest : AppState := setSortKey (initialState 3) oldest.
Definition bogusSort : URLSearchParams.t := [("sort", "bogus"); ("idx", "0")].

(** A three-column view of a thousand builds, scrolled to the offset 50000:
    the anchor is entry 399 and the window starts at entry 390. *)
Definition scrolledDeep : AppState :=
  setScrollY (setAnchorIndex (setWindowStart (initialState 3) 390) 399) 50000.

(** The commit after the visitor has typed a search text that leaves sixty
    builds: the filters, the view length and the rendered slice differ. *)
Definition filterNarrowed : Changed := mkChanged false true true false false true.

(** A file name with a backslash before a double quote, as a build at load
    position 57 carries it in its id. *)
Definition quotedName : string :=
  ("a" ++ String "\" (String quote "b.litematic"))%string.

Definition quotedId : string := (quotedName ++ "-57")%string.

(** The selector that asks for the card of [quotedId]: after the escaping,
    the quote that ends the attribute value comes before the text ends. *)
Definition quotedSelector : string :=
  ("[data-entry-id=" ++ String quote ("a" ++ String "\" (String "\" (String quote
     ("b.litematic-57" ++ String quote "]")))))%string.

(** A document in which the lookup of that selector fails as a syntax
    error, and every other lookup finds nothing. *)
Definition strictDom : Dom :=
  mkDom (fun selector => if (selector =? quotedSelector)%string then QueryThrows else QueryNull)
    64 0.

(** A catalog of fifty-eight builds; the last and oldest one has the file
    name [quotedName]. *)
Definition quotedCatalog : list LitematicEntry :=
  normalize (repeat (raw "farm.litematic" "carol" "1.20" 50) 57
             ++ [raw quotedName "dave" "1.20" 40]).

(** A link with [idx=57] is opened: the decoder runs on the mounted
    component and its timer fires while the catalog is still on its way. *)
Definition sharedLinkOpened : AppState :=
  fireTimeout 0 (applyParams [("idx", "57")] (initialState 3)).

(** The catalog has arrived: the state at the commit that shows it. *)
Definition catalogArrived : AppState := setEntries sharedLinkOpened quotedCatalog.

(** What that commit finds changed: the entries, the view length and the
    rendered slice. *)
Definition catalogShown : Changed := mkChanged true false true false false true.

End Sample.

(* ================================================================== *)
(** ** Reference statements

    What the prose of the design says, written independently of the code
    above; the properties below compare the two. *)

Module Reference.

(** The text that is searched: file, author, version and size, with one
    space between them. *)
Definition composite (e : LitematicEntry) : string :=
  String.concat " " [file e; author e; version e; size e].

(** The words of a text: its maximal runs of bytes outside white space.
    [cur] is the word that is being read, [m] marks the white space. *)
Fixpoint wordsFrom (cur : string) (m : list bool) (s : string) {struct s}
    : list string :=
  match s, m with
  | String c r, b :: m' =>
      if b
      then match cur with
           | EmptyString => wordsFrom EmptyString m' r
           | _ => cur :: wordsFrom EmptyString m' r
           end
      else wordsFrom (cur ++ String c EmptyString) m' r
  | _, _ =>
      match cur with
      | EmptyString => []
      | _ => [cur]
      end
  end.

Definition words (s : string) : list string := wordsFrom EmptyString (Js.marks 0 s) s.

(** The search terms: the words of the lower-cased search text. *)
Definition terms {host : Js.Host} (searchText : string) : list string :=
  words (Js.toLowerCase searchText).

(** A lower-cased term occurs in [s] whatever the letter case of [s]: it is
    a substring of the lower-cased [s]. *)
Definition occursIgnoringCase {host : Js.Host} (t s : string) : Prop :=
  exists a b, Js.toLowerCase s = (a ++ t ++ b)%string.

(** [needle] occurs in [s], letter case ignored on both sides. *)
Definition containsIgnoringCase {host : Js.Host} (needle s : string) : Prop :=
  exists a b, Js.toLowerCase s = (a ++ Js.toLowerCase needle ++ b)%string.

(** An entry survives every active predicate. *)
Definition survives {host : Js.Host} (st : AppState) (e : LitematicEntry) : Prop :=
  ~ (versionExcludes st <> [] /\ In (version e) (versionExcludes st)) /\
  ~ (authorExcludes st <> [] /\ In (author e) (authorExcludes st)) /\
  (versionIncludes st <> [] -> In (version e) (versionIncludes st)) /\
  (authorIncludes st <> [] -> In (author e) (authorIncludes st)) /\
  (forall t, In t (terms (q st)) -> occursIgnoringCase t (composite e)).

(** Decoding the encoding of [st] onto [prior] gives back every part of the
    navigation state. *)
Definition roundTrips (st prior : AppState) : Prop :=
  let d := applyParams (buildParams None st) prior in
  q d = q st /\
  sortKey d = sortKey st /\
  versionIncludes d = versionIncludes st /\
  versionExcludes d = versionExcludes st /\
  authorIncludes d = authorIncludes st /\
  authorExcludes d = authorExcludes st /\
  pendingPreviewId d = option_map id (preview st) /\
  pendingIndex d = Some (Js.Int (anchorIndex st)).

(** An entry passes the preview of a facet that looks at the other facet
    and the search text only. *)
Definition passesAuthorFacetAndSearch {host : Js.Host} (st : AppState)
    (e : LitematicEntry) : Prop :=
  ~ (authorExcludes st <> [] /\ In (author e) (authorExcludes st)) /\
  (authorIncludes st <> [] -> In (author e) (authorIncludes st)) /\
  (forall t, In t (terms (q st)) -> occursIgnoringCase t (composite e)).

Definition passesVersionFacetAndSearch {host : Js.Host} (st : AppState)
    (e : LitematicEntry) : Prop :=
  ~ (versionExcludes st <> [] /\ In (version e) (versionExcludes st)) /\
  (versionIncludes st <> [] -> In (version e) (versionIncludes st)) /\
  (forall t, In t (terms (q st)) -> occursIgnoringCase t (composite e)).

(** The windowing invariant. *)
Definition windowInvariant (viewLength windowStart windowEnd : Z) : Prop :=
  0 <= windowStart <= windowEnd /\ windowEnd <= viewLength /\
  windowEnd - windowStart <= WINDOW_SIZE.

(** The restoration step driven by the decoded target itself: target 0
    scrolls to the top and hands nothing to the element search; any other
    target becomes the anchor, with the window start three rows above it. *)
Definition restoresFromTarget (flt : list LitematicEntry) (st : AppState)
    (target : Z) : Prop :=
  let st' := restoreEffect flt st in
  if target =? 0
  then frames st' = (frames st ++ [FrameScrollTop])%list /\
       pendingScrollId st' = pendingScrollId st
  else anchorIndex st' = target /\
       windowStart st' = Z.max 0 (target - BUFFER_ROWS * cols st).

End Reference.
(* ================================================================== *)
(** * Properties *)

(** ** Strings *)

Lemma prefix_iff (t s : string) :
  String.prefix t s = true <-> exists b, s = (t ++ b)%string.
Proof.
  revert s; induction t as [|c t IH]; intros s.
  - destruct s; simpl; split; eauto.
  - destruct s as [|d s]; simpl.
    + split; [discriminate | intros [b Hb]; discriminate].
    + destruct (ascii_dec c d) as [->|Hcd].
      * rewrite IH. split; intros [b Hb]; exists b; congruence.
      * split; [discriminate | intros [b Hb]; congruence].
Qed.

(** [includes] finds exactly the substrings. *)
Lemma includes_iff (s t : string) :
  Js.includes s t = true <-> exists a b, s = (a ++ t ++ b)%string.
Proof.
  induction s as [|c s IH].
  - change (Js.includes "" t) with (String.prefix t "" || false).
    rewrite orb_false_r, prefix_iff. split.
    + intros [b Hb]; exists "", b; exact Hb.
    + intros [a [b Hab]]. destruct a; simpl in Hab; [eauto | discriminate].
  - change (Js.includes (String c s) t)
      with (String.prefix t (String c s) || Js.includes s t).
    rewrite orb_true_iff, prefix_iff, IH. split.
    + intros [[b Hb] | [a [b Hab]]].
      * exists "", b; exact Hb.
      * exists (String c a), b; simpl; congruence.
    + intros [a [b Hab]]. destruct a as [|d a]; simpl in Hab.
      * left; eauto.
      * right; exists a, b; congruence.
Qed.

Lemma string_length_app (a b : string) :
  String.length (a ++ b) = (String.length a + String.length b)%nat.
Proof. induction a as [|c a IH]; simpl; [reflexivity | rewrite IH; reflexivity]. Qed.

Lemma string_app_assoc (a b c : string) :
  ((a ++ b) ++ c)%string = (a ++ (b ++ c))%string.
Proof. induction a as [|x a IH]; simpl; congruence. Qed.

Lemma string_app_nil_r (a : string) : (a ++ "")%string = a.
Proof. induction a as [|x a IH]; simpl; congruence. Qed.

Lemma truthy_iff (s : string) : Js.truthy s = true <-> s <> "".
Proof.
  destruct s; simpl; split; intros H; try reflexivity; try discriminate.
  exfalso. apply H. reflexivity.
Qed.

(** A text that ends in [c] splits before [c] or at its very end. *)
Lemma app_last_split (cur v u : string) (c : ascii) :
  (cur ++ String c "")%string = (v ++ u)%string ->
  u = "" \/ exists u', u = (u' ++ String c "")%string /\ cur = (v ++ u')%string.
Proof.
  revert v. induction cur as [|d cur IH]; intros v H.
  - destruct v as [|e v]; simpl in H.
    + right. exists "". split; [symmetry; exact H | reflexivity].
    + injection H as _ H. destruct v; simpl in H; [|discriminate].
      left. symmetry. exact H.
  - destruct v as [|e v]; simpl in H.
    + right. exists (String d cur). split; [symmetry; exact H | reflexivity].
    + injection H as -> H. destruct (IH _ H) as [Hu | [u' [Hu Hc]]].
      * left. exact Hu.
      * right. exists u'. split; [exact Hu | simpl; congruence].
Qed.

(** ** Letter case of the ASCII range *)

Lemma foldCase_app (a b : string) :
  Js.foldCase (a ++ b) = (Js.foldCase a ++ Js.foldCase b)%string.
Proof. induction a as [|c a IH]; simpl; congruence. Qed.

Lemma foldChar_idem (c : ascii) : Js.foldChar (Js.foldChar c) = Js.foldChar c.
Proof. destruct c as [[] [] [] [] [] [] [] []]; reflexivity. Qed.

Lemma foldCase_idem (s : string) : Js.foldCase (Js.foldCase s) = Js.foldCase s.
Proof.
  induction s as [|c s IH]; simpl; [reflexivity|].
  rewrite foldChar_idem, IH. reflexivity.
Qed.

Lemma foldCase_length (s : string) :
  String.length (Js.foldCase s) = String.length s.
Proof. induction s as [|c s IH]; simpl; congruence. Qed.

Lemma foldChar_high (c : ascii) : (128 <= N_of_ascii c)%N -> Js.foldChar c = c.
Proof.
  intros H. unfold Js.foldChar.
  destruct ((65 <=? N_of_ascii c) && (N_of_ascii c <=? 90))%N eqn:E; [|reflexivity].
  apply andb_true_iff in E. destruct E as [_ E]. apply N.leb_le in E. lia.
Qed.

Lemma foldChar_asciiSpace (c : ascii) : Js.isAsciiSpace c = true -> Js.foldChar c = c.
Proof.
  unfold Js.isAsciiSpace, Js.foldChar. intros H.
  destruct ((65 <=? N_of_ascii c) && (N_of_ascii c <=? 90))%N eqn:E; [|reflexivity].
  apply andb_true_iff in E. destruct E as [E1 E2].
  apply N.leb_le in E1, E2.
  apply orb_true_iff in H. destruct H as [H|H].
  - apply andb_true_iff in H. destruct H as [_ H]. apply N.leb_le in H. lia.
  - apply N.eqb_eq in H. lia.
Qed.

Lemma isSpaceLead_high (c : ascii) : Js.isSpaceLead c = true -> (128 <= N_of_ascii c)%N.
Proof.
  unfold Js.isSpaceLead. intros H.
  repeat (apply orb_true_iff in H; destruct H as [H|H]);
    apply N.eqb_eq in H; lia.
Qed.

(** ** White space *)

Lemma spaceLen_le (s : string) : (Js.spaceLen s <= String.length s)%nat.
Proof.
  destruct s as [|c r]; simpl; [lia|].
  destruct (Js.isAsciiSpace c); [lia|].
  destruct (Js.isSpaceLead c); [|lia].
  unfold Js.spaceTail. destruct r as [|d r]; simpl; [lia|].
  destruct (_ && _)%N; [lia|].
  destruct r as [|e r]; simpl; [lia|].
  repeat (match goal with |- context [if ?b then _ else _] => destruct b end); lia.
Qed.

(** White space at the head of a text is still there when the text goes on. *)
Lemma spaceLen_mono (x y : string) (k : nat) :
  Js.spaceLen x = S k -> Js.spaceLen (x ++ y) = S k.
Proof.
  destruct x as [|c r]; simpl; [discriminate|].
  destruct (Js.isAsciiSpace c); [trivial|].
  destruct (Js.isSpaceLead c); [|discriminate].
  unfold Js.spaceTail. destruct r as [|d r]; simpl; [discriminate|].
  destruct (_ && _)%N; [trivial|].
  destruct r as [|e r]; simpl; [discriminate|]. trivial.
Qed.

(** A space after a text adds no white space at the head of the text. *)
Lemma spaceLen_before_space (u y : string) :
  u <> "" -> Js.spaceLen (u ++ String " " y) = Js.spaceLen u.
Proof.
  destruct u as [|c r]; [congruence|]. intros _. simpl.
  destruct (Js.isAsciiSpace c); [reflexivity|].
  destruct (Js.isSpaceLead c); [|reflexivity].
  unfold Js.spaceTail. destruct r as [|d r]; simpl.
  - change (N_of_ascii " ") with 32%N.
    replace (32 =? 160)%N with false by reflexivity. rewrite andb_false_r.
    destruct y as [|e y]; [reflexivity|].
    replace (32 =? 154)%N with false by reflexivity.
    replace (32 =? 128)%N with false by reflexivity.
    replace (32 =? 129)%N with false by reflexivity.
    replace (32 =? 187)%N with false by reflexivity.
    rewrite !andb_false_r. reflexivity.
  - destruct (_ && _)%N; [reflexivity|].
    destruct r as [|e r]; simpl; [|reflexivity].
    change (N_of_ascii " ") with 32%N.
    replace (32 =? 128)%N with false by reflexivity.
    replace (128 <=? 32)%N with false by reflexivity.
    replace (32 =? 168)%N with false by reflexivity.
    replace (32 =? 169)%N with false by reflexivity.
    replace (32 =? 175)%N with false by reflexivity.
    replace (32 =? 159)%N with false by reflexivity.
    replace (32 =? 191)%N with false by reflexivity.
    rewrite ?andb_false_r, ?andb_false_l, ?orb_false_r. simpl.
    rewrite ?andb_false_r. reflexivity.
Qed.

Lemma anySpace_iff (t : string) :
  Js.anySpace t = false <->
  forall v u, t = (v ++ u)%string -> u <> "" -> Js.spaceLen u = 0%nat.
Proof.
  induction t as [|c t IH].
  - split; [|reflexivity]. intros _ v u H Hu.
    destruct v; simpl in H; [congruence | discriminate].
  - cbn [Js.anySpace]. rewrite orb_false_iff, IH, Nat.ltb_ge. split.
    + intros [H0 Hrest] v u H Hu. destruct v as [|d v]; simpl in H.
      * subst u. lia.
      * injection H as _ H. exact (Hrest v u H Hu).
    + intros H. split.
      * rewrite (H "" (String c t) eq_refl); [lia | discriminate].
      * intros v u Ht Hu. apply (H (String c v) u); [simpl; congruence | exact Hu].
Qed.

Lemma marks_length (s : string) :
  forall skip, List.length (Js.marks skip s) = String.length s.
Proof.
  induction s as [|c r IH]; intros skip; [reflexivity|].
  cbn [Js.marks]. destruct skip; [destruct (Js.spaceLen _)|]; simpl; rewrite IH; reflexivity.
Qed.

Lemma marks_cons (skip : nat) (c : ascii) (r : string) :
  Js.marks skip (String c r) =
    match skip with
    | S k => true :: Js.marks k r
    | O => match Js.spaceLen (String c r) with
           | O => false :: Js.marks 0 r
           | S k => true :: Js.marks k r
           end
    end.
Proof. reflexivity. Qed.

Lemma splitMarked_cons (s : string) :
  forall inSep m, exists h t, Js.splitMarked inSep m s = h :: t.
Proof.
  induction s as [|c r IH]; intros inSep m; [simpl; do 2 eexists; reflexivity|].
  destruct m as [|b m]; [simpl; do 2 eexists; reflexivity|]. cbn [Js.splitMarked].
  destruct b.
  - destruct inSep; [apply IH | do 2 eexists; reflexivity].
  - destruct (IH false m) as [h [t ->]]. do 2 eexists; reflexivity.
Qed.

(** The non-empty pieces between runs of white space are the words. *)
Lemma splitMarked_words (s : string) :
  forall m, List.length m = String.length s ->
    (forall cur,
       match Js.splitMarked false m s with
       | h :: t => Js.filterTruthy ((cur ++ h)%string :: t)
       | [] => []
       end = Reference.wordsFrom cur m s) /\
    Js.filterTruthy (Js.splitMarked true m s) = Reference.wordsFrom "" m s.
Proof.
  induction s as [|c r IH]; intros m Hlen.
  - destruct m; [|discriminate]. split; [|reflexivity].
    intros cur. simpl. rewrite string_app_nil_r. destruct cur; reflexivity.
  - destruct m as [|b m]; [discriminate|]. injection Hlen as Hlen.
    destruct (IH m Hlen) as [IHa IHb].
    cbn [Js.splitMarked Reference.wordsFrom]. destruct b.
    + split.
      * intros cur. unfold Js.filterTruthy in *. cbn [filter].
        rewrite string_app_nil_r, IHb. destruct cur; reflexivity.
      * exact IHb.
    + destruct (splitMarked_cons r false m) as [h [t Hht]].
      specialize (IHa). rewrite Hht in IHa. rewrite Hht. split.
      * intros cur. rewrite <- IHa, string_app_assoc. reflexivity.
      * cbn [String.append]. rewrite <- (IHa (String c "")). reflexivity.
Qed.

Lemma splitWs_words (s : string) :
  Js.filterTruthy (Js.splitWs s) = Reference.words s.
Proof.
  unfold Js.splitWs, Reference.words.
  destruct (splitMarked_words s (Js.marks 0 s) (marks_length s 0)) as [Ha _].
  specialize (Ha ""). destruct (Js.splitMarked false (Js.marks 0 s) s) as [|h t] eqn:E.
  - destruct (splitMarked_cons s false (Js.marks 0 s)) as [h [t H]]. congruence.
  - exact Ha.
Qed.

(** A word is not empty and holds no white space. *)
Lemma wordsFrom_clean (s : string) :
  forall skip cur t,
    (forall v u, cur = (v ++ u)%string -> u <> "" -> Js.spaceLen (u ++ s) = 0%nat) ->
    In t (Reference.wordsFrom cur (Js.marks skip s) s) ->
    t <> "" /\ Js.anySpace t = false.
Proof.
  assert (Hcur : forall cur s',
            (forall v u, cur = (v ++ u)%string -> u <> "" ->
                         Js.spaceLen (u ++ s') = 0%nat) ->
            Js.anySpace cur = false).
  { intros cur s' H. apply anySpace_iff. intros v u Hvu Hu.
    destruct (Js.spaceLen u) as [|k] eqn:E; [reflexivity|].
    specialize (H v u Hvu Hu). rewrite (spaceLen_mono u s' k E) in H. discriminate. }
  induction s as [|c r IH]; intros skip cur t Hinv Hin.
  - simpl in Hin. destruct cur as [|d cur]; [contradiction|].
    destruct Hin as [<-|[]]. split; [discriminate|]. exact (Hcur _ _ Hinv).
  - rewrite marks_cons in Hin.
    assert (Htrue : forall k,
              In t (Reference.wordsFrom cur (true :: Js.marks k r) (String c r)) ->
              t <> "" /\ Js.anySpace t = false).
    { intros k H. cbn [Reference.wordsFrom] in H.
      assert (Hrest : In t (Reference.wordsFrom "" (Js.marks k r) r) ->
                      t <> "" /\ Js.anySpace t = false).
      { apply IH. intros v u Hvu Hu. destruct v; simpl in Hvu; [congruence | discriminate]. }
      destruct cur as [|d cur]; [exact (Hrest H)|].
      destruct H as [<-|H]; [|exact (Hrest H)].
      split; [discriminate|]. exact (Hcur _ _ Hinv). }
    destruct skip as [|k]; [|exact (Htrue _ Hin)].
    destruct (Js.spaceLen (String c r)) as [|k] eqn:E; [|exact (Htrue _ Hin)].
    cbn [Reference.wordsFrom] in Hin. apply (IH 0%nat _ t) in Hin; [exact Hin|].
    intros v u Hvu Hu. destruct (app_last_split _ _ _ _ Hvu) as [Hnil | [u' [-> Hc]]];
      [congruence|].
    rewrite string_app_assoc. cbn [String.append].
    destruct u' as [|d u']; [exact E|].
    apply (Hinv v (String d u') Hc). discriminate.
Qed.

Lemma words_clean (s t : string) :
  In t (Reference.words s) -> t <> "" /\ Js.anySpace t = false.
Proof.
  apply wordsFrom_clean. intros v u Hvu Hu.
  destruct v; simpl in Hvu; [congruence | discriminate].
Qed.

(** The words of two texts with a space between them. *)
Lemma wordsFrom_app_space (a b : string) :
  forall skip cur, (skip <= String.length a)%nat ->
    Reference.wordsFrom cur (Js.marks skip (a ++ String " " b)) (a ++ String " " b)
    = (Reference.wordsFrom cur (Js.marks skip a) a ++ Reference.words b)%list.
Proof.
  induction a as [|c a IH]; intros skip cur Hskip.
  - simpl in Hskip. replace skip with 0%nat by lia.
    cbn [String.append]. rewrite marks_cons.
    change (Js.spaceLen (String " " b)) with 1%nat.
    cbn [Reference.wordsFrom Js.marks]. destruct cur; reflexivity.
  - cbn [String.append]. rewrite !marks_cons.
    change (String c (a ++ String " " b)) with (String c a ++ String " " b)%string.
    rewrite spaceLen_before_space by discriminate.
    simpl in Hskip.
    pose proof (spaceLen_le (String c a)) as Hle. cbn [String.length] in Hle.
    destruct skip as [|k].
    + destruct (Js.spaceLen (String c a)) as [|k] eqn:E;
        cbn [String.append Reference.wordsFrom].
      * apply IH. lia.
      * rewrite IH by lia. destruct cur; reflexivity.
    + cbn [String.append Reference.wordsFrom].
      rewrite IH by lia. destruct cur; reflexivity.
Qed.

Lemma words_app_space (a b : string) :
  Reference.words (a ++ " " ++ b) = (Reference.words a ++ Reference.words b)%list.
Proof. apply wordsFrom_app_space. lia. Qed.

(** What is left when white space is cut off at the head. *)
Lemma dropMarked_marks (s : string) :
  forall skip,
    (Js.dropMarked (Js.marks skip s) s = "" /\
     Reference.wordsFrom "" (Js.marks skip s) s = []) \/
    (exists c r, Js.dropMarked (Js.marks skip s) s = String c r /\
                 Js.spaceLen (String c r) = 0%nat).
Proof.
  induction s as [|c r IH]; intros skip; [left; split; reflexivity|].
  rewrite marks_cons. destruct skip as [|k].
  - destruct (Js.spaceLen (String c r)) as [|k] eqn:E.
    + right. exists c, r. split; [reflexivity | exact E].
    + cbn [Js.dropMarked Reference.wordsFrom]. apply IH.
  - cbn [Js.dropMarked Reference.wordsFrom]. apply IH.
Qed.

(** A blank text has no words. *)
Lemma words_blank (s : string) : Js.trim s = "" -> Reference.words s = [].
Proof.
  unfold Js.trim, Js.trimStart, Js.trimEnd, Reference.words. intros H.
  destruct (dropMarked_marks s 0) as [[_ Hw] | [c [r [Hd Hs]]]]; [exact Hw|].
  rewrite Hd in H. rewrite marks_cons, Hs in H. cbn [Js.dropMarkedEnd] in H.
  destruct (Js.dropMarkedEnd (Js.marks 0 r) r); discriminate.
Qed.

(** ** The stand-in host *)

(** Bytes of white space are not letters. *)
Lemma spaceLen_uncased (c : ascii) (r : string) (k : nat) :
  Js.spaceLen (String c r) = S k ->
  Js.foldChar c = c /\
  Js.foldCase (String.substring 0 k r) = String.substring 0 k r.
Proof.
  cbn [Js.spaceLen]. destruct (Js.isAsciiSpace c) eqn:Ea.
  - intros [= <-]. split; [apply foldChar_asciiSpace, Ea|].
    destruct r; reflexivity.
  - destruct (Js.isSpaceLead c) eqn:El; [|discriminate].
    intros H. split; [apply foldChar_high, isSpaceLead_high, El|].
    unfold Js.spaceTail in H. destruct r as [|d r]; [discriminate|].
    destruct ((N_of_ascii c =? 194) && (N_of_ascii d =? 160))%N eqn:E2.
    + injection H as <-. apply andb_true_iff in E2. destruct E2 as [_ E2].
      apply N.eqb_eq in E2. cbn [String.substring Js.foldCase].
      rewrite foldChar_high by lia. destruct r; reflexivity.
    + destruct r as [|e r]; [discriminate|].
      assert (Hk : k = 2%nat /\ (128 <= N_of_ascii d)%N /\ (128 <= N_of_ascii e)%N).
      { repeat match type of H with
               | (if ?b then _ else _) = _ =>
                   let E := fresh "E" in destruct b eqn:E
               end; try discriminate; injection H as <-;
          (split; [reflexivity|]);
          repeat match goal with
                 | E : (_ && _)%bool = true |- _ =>
                     apply andb_true_iff in E; destruct E
                 | E : (_ || _)%bool = true |- _ =>
                     apply orb_true_iff in E; destruct E
                 | E : (_ =? _)%N = true |- _ => apply N.eqb_eq in E
                 | E : (_ <=? _)%N = true |- _ => apply N.leb_le in E
                 end; split; lia. }
      destruct Hk as (-> & Hd & He).
      cbn [String.substring Js.foldCase].
      rewrite !foldChar_high by assumption. destruct r; reflexivity.
Qed.

Lemma substring_succ (k : nat) (c : ascii) (r : string) :
  String.substring 0 (S k) (String c r) = String c (String.substring 0 k r).
Proof. reflexivity. Qed.

Lemma foldCase_blank (s : string) :
  forall skip,
    Js.foldCase (String.substring 0 skip s) = String.substring 0 skip s ->
    Js.dropMarked (Js.marks skip s) s = "" ->
    Js.foldCase s = s.
Proof.
  induction s as [|c r IH]; intros skip Hpre Hdrop; [reflexivity|].
  rewrite marks_cons in Hdrop. destruct skip as [|k].
  - destruct (Js.spaceLen (String c r)) as [|k] eqn:E; [discriminate Hdrop|].
    cbn [Js.dropMarked] in Hdrop.
    destruct (spaceLen_uncased c r k E) as [Hc Hr].
    cbn [Js.foldCase]. rewrite Hc, (IH k Hr Hdrop). reflexivity.
  - cbn [Js.dropMarked] in Hdrop. rewrite substring_succ in Hpre.
    cbn [Js.foldCase] in Hpre. injection Hpre as Hc Hr.
    cbn [Js.foldCase]. rewrite Hc, (IH k Hr Hdrop). reflexivity.
Qed.

(** White space has no case. *)
Lemma toLowerCase_blank {host : Js.Host} (s : string) :
  Js.trim s = "" -> Js.toLowerCase s = s.
Proof. intros H. unfold Js.toLowerCase. rewrite H. reflexivity. Qed.

Lemma trim_blank_foldCase (s : string) : Js.trim s = "" -> Js.foldCase s = s.
Proof.
  intros H. apply (foldCase_blank s 0).
  - destruct s; reflexivity.
  - unfold Js.trim, Js.trimStart, Js.trimEnd in H.
    destruct (dropMarked_marks s 0) as [[Hd _] | [c [r [Hd Hs]]]]; [exact Hd|].
    rewrite Hd in H. rewrite marks_cons, Hs in H. cbn [Js.dropMarkedEnd] in H.
    destruct (Js.dropMarkedEnd (Js.marks 0 r) r); discriminate.
Qed.

(** The stand-in host folds the letters A to Z. *)
Lemma sample_toLowerCase (s : string) :
  Js.toLowerCase (host := Sample.host) s = Js.foldCase s.
Proof.
  unfold Js.toLowerCase. destruct (String.eqb_spec (Js.trim s) "") as [H|_].
  - symmetry. apply trim_blank_foldCase, H.
  - reflexivity.
Qed.

(** The stand-in host maps case word by word, as every host does. *)
Lemma sample_caseByWords : Js.caseByWords Sample.host.
Proof.
  intros a b. rewrite !sample_toLowerCase, !foldCase_app. reflexivity.
Qed.
(** ** Sets of facet values *)

Lemma has_iff (l : list string) (v : string) : has l v = true <-> In v l.
Proof.
  unfold has. rewrite existsb_exists. split.
  - intros [x [Hx Heq]]. apply String.eqb_eq in Heq; subst; assumption.
  - intros H; exists v; split; [assumption | apply String.eqb_refl].
Qed.

Lemma setAndHas_iff (l : list string) (v : string) :
  setAndHas (newSetOrNull l) v = true <-> l <> [] /\ In v l.
Proof.
  destruct l as [|x l]; simpl.
  - split; [discriminate | intros [H _]; congruence].
  - change (has (x :: l) v = true <-> x :: l <> [] /\ In v (x :: l)).
    rewrite has_iff. split; [intros H; split; [discriminate | exact H] | tauto].
Qed.

Lemma setAndLacks_false_iff (l : list string) (v : string) :
  setAndLacks (newSetOrNull l) v = false <-> (l <> [] -> In v l).
Proof.
  destruct l as [|x l]; simpl.
  - split; [intros _ H; congruence | reflexivity].
  - change (negb (has (x :: l) v) = false <-> (x :: l <> [] -> In v (x :: l))).
    rewrite negb_false_iff, has_iff. split; [tauto | intros H; apply H; discriminate].
Qed.

(** ** Sorting *)

Section Sort.
Context {A : Type}.
Variable cmp : A -> A -> Z.

Lemma sortInsert_perm (x : A) (l : list A) :
  Permutation (sortInsert cmp x l) (x :: l).
Proof.
  induction l as [|y l IH]; simpl; [reflexivity|].
  destruct (cmp x y <=? 0); [reflexivity|].
  rewrite IH. apply perm_swap.
Qed.

Lemma jsSort_perm (l : list A) : Permutation (jsSort cmp l) l.
Proof.
  induction l as [|x l IH]; simpl; [constructor|].
  rewrite sortInsert_perm. constructor; exact IH.
Qed.

Lemma jsSort_In (l : list A) (x : A) : In x (jsSort cmp l) <-> In x l.
Proof.
  split; apply Permutation_in; [|symmetry]; apply jsSort_perm.
Qed.

(** What a comparator must satisfy for the result to be ordered. *)
Hypothesis cmp_total : forall a b, 0 < cmp a b -> cmp b a <= 0.
Hypothesis cmp_trans : forall a b c, cmp a b <= 0 -> cmp b c <= 0 -> cmp a c <= 0.

Lemma sortInsert_sorted (x : A) (l : list A) :
  StronglySorted (fun a b => cmp a b <= 0) l ->
  StronglySorted (fun a b => cmp a b <= 0) (sortInsert cmp x l).
Proof.
  induction 1 as [|y l Hs IH Hall]; simpl.
  - constructor; constructor.
  - destruct (Z.leb_spec (cmp x y) 0) as [Hle|Hgt].
    + constructor; [constructor; assumption|].
      constructor; [exact Hle|].
      rewrite Forall_forall in *. intros z Hz.
      apply cmp_trans with y; [exact Hle | apply Hall, Hz].
    + constructor; [exact IH|].
      rewrite Forall_forall in *. intros z Hz.
      apply (Permutation_in _ (sortInsert_perm x l)) in Hz.
      destruct Hz as [<-|Hz]; [apply cmp_total, Hgt | apply Hall, Hz].
Qed.

Lemma jsSort_sorted (l : list A) :
  StronglySorted (fun a b => cmp a b <= 0) (jsSort cmp l).
Proof.
  induction l as [|x l IH]; simpl; [constructor | apply sortInsert_sorted, IH].
Qed.

End Sort.


(** ** Filter/sort pipeline *)

(** The searched text of the code is the reference one. *)
Lemma compositeText_composite (e : LitematicEntry) :
  compositeText e = Reference.composite e.
Proof. reflexivity. Qed.

(** The search terms of the code are the words of the lower-cased text. *)
Lemma searchTerms_terms {host : Js.Host} (st : AppState) :
  searchTerms st = Reference.terms (q st).
Proof. unfold searchTerms, Reference.terms. apply splitWs_words. Qed.

Lemma matchesSearch_iff {host : Js.Host} (e : LitematicEntry) (terms : list string) :
  matchesSearch e terms = true <->
  forall t, In t terms -> Reference.occursIgnoringCase t (Reference.composite e).
Proof.
  assert (H : forallb (fun t => Js.includes (haystack e) t) terms = true <->
              forall t, In t terms ->
                        Reference.occursIgnoringCase t (Reference.composite e)).
  { rewrite forallb_forall. unfold haystack, Reference.occursIgnoringCase.
    rewrite compositeText_composite.
    split; intros H t Ht; apply includes_iff, H, Ht. }
  destruct terms as [|t0 terms]; [|exact H].
  simpl. split; [intros _ t [] | reflexivity].
Qed.

Lemma filterCallback_iff {host : Js.Host} (st : AppState) (e : LitematicEntry) :
  filterCallback st e = true <-> Reference.survives st e.
Proof.
  unfold filterCallback, Reference.survives,
    versionExcludeSet, authorExcludeSet, versionIncludeSet, authorIncludeSet.
  rewrite <- searchTerms_terms.
  rewrite <- !setAndHas_iff, <- !setAndLacks_false_iff, <- matchesSearch_iff.
  destruct (setAndHas (newSetOrNull (versionExcludes st)) (version e));
  destruct (setAndHas (newSetOrNull (authorExcludes st)) (author e));
  destruct (setAndLacks (newSetOrNull (versionIncludes st)) (version e));
  destruct (setAndLacks (newSetOrNull (authorIncludes st)) (author e));
  intuition congruence.
Qed.

Lemma filtered_In {host : Js.Host} (localeCompare : string -> string -> Z)
    (st : AppState) (e : LitematicEntry) :
  In e (filtered localeCompare st) <-> In e (entries st) /\ filterCallback st e = true.
Proof.
  unfold filtered, filterList. rewrite jsSort_In, filter_In. reflexivity.
Qed.

(** C1. The filtered view holds exactly the entries of the catalog that
    survive every active predicate: not in a non-empty exclude set of either
    facet, present in each non-empty include set, and with every search
    term, the words of the lower-cased search text, a substring of the
    lower-cased text built from file, author, version and size; the view is
    a rearrangement of the catalog filtered by a test that decides exactly
    that, so each survivor is kept as often as it occurs.  A search term is
    never empty and holds no white space; the search text made of Castle, a
    no-break space, 1.20, a tab, an ideographic space, ALICE and a space
    has the terms castle, 1.20 and alice where A to Z are the only letters
    with case.  With versionIncludes = ["1.20"]
    only version-1.20 entries pass (on an otherwise unconstrained state,
    all of them), and with versionExcludes = ["1.20"] set as well nothing
    passes. *)
Theorem filtered_exactly_survivors {host : Js.Host} (localeCompare : string -> string -> Z) :
  (forall st e,
     In e (filtered localeCompare st) <-> In e (entries st) /\ Reference.survives st e) /\
  (forall st, exists keep : LitematicEntry -> bool,
     (forall e, keep e = true <-> Reference.survives st e) /\
     Permutation (filtered localeCompare st) (filter keep (entries st))) /\
  (forall searchText t,
     In t (Reference.terms searchText) -> t <> "" /\ Js.anySpace t = false) /\
  searchTerms (host := Sample.host) (setQ (initialState 3) Sample.spacedQuery)
  = ["castle"; "1.20"; "alice"] /\
  (forall st0 e,
     In e (filtered localeCompare (setVersionIncludes st0 ["1.20"])) ->
     version e = "1.20") /\
  (forall catalog c e,
     In e (filtered localeCompare
             (setVersionIncludes (setEntries (initialState c) catalog) ["1.20"])) <->
     In e catalog /\ version e = "1.20") /\
  (forall st0,
     filtered localeCompare
       (setVersionExcludes (setVersionIncludes st0 ["1.20"]) ["1.20"]) = []).
Proof.
  split; [|split; [|split; [|split; [|split; [|split]]]]].
  - intros st e. rewrite filtered_In, filterCallback_iff. reflexivity.
  - intros st. exists (filterCallback st). split.
    + intros e. apply filterCallback_iff.
    + apply jsSort_perm.
  - intros searchText t. apply words_clean.
  - vm_compute. reflexivity.
  - intros st0 e H. apply filtered_In in H. destruct H as [_ H].
    apply filterCallback_iff in H. destruct H as (_ & _ & Hinc & _).
    simpl in Hinc. destruct Hinc as [Hv|[]]; [discriminate | auto].
  - intros catalog c e. rewrite filtered_In, filterCallback_iff.
    unfold Reference.survives; simpl. split.
    + intros [Hin (_ & _ & Hinc & _)]. split; [exact Hin|].
      destruct Hinc as [Hv|[]]; [discriminate | auto].
    + intros [Hin Hv]. split; [exact Hin|].
      split; [intros [H _]; congruence|].
      split; [intros [H _]; congruence|].
      split; [intros _; left; congruence|].
      split; [intros H; congruence|].
      intros t Ht. vm_compute in Ht. destruct Ht.
  - intros st0. unfold filtered, filterList.
    replace (filter _ _) with (@nil LitematicEntry); [reflexivity|].
    symmetry. induction (entries _) as [|e l IH]; [reflexivity|].
    simpl filter. rewrite IH. clear IH.
    destruct (filterCallback _ e) eqn:Hf; [|reflexivity].
    apply filterCallback_iff in Hf. destruct Hf as (Hexc & _ & Hinc & _).
    simpl in Hexc, Hinc. exfalso. apply Hexc. split; [discriminate|].
    apply Hinc. discriminate.
Qed.
(** A blank search text gives no search terms. *)
Lemma searchTerms_blank {host : Js.Host} (st : AppState) :
  Js.trim (q st) = "" -> searchTerms st = [].
Proof.
  intros H. rewrite searchTerms_terms. unfold Reference.terms.
  rewrite (toLowerCase_blank _ H). apply words_blank, H.
Qed.

Lemma filterList_unconstrained {host : Js.Host} (st : AppState) :
  Js.trim (q st) = "" -> versionIncludes st = [] -> versionExcludes st = [] ->
  authorIncludes st = [] -> authorExcludes st = [] ->
  filterList st = entries st.
Proof.
  intros Hq Hvi Hve Hai Hae. unfold filterList.
  assert (Hall : forall e, filterCallback st e = true).
  { intros e. unfold filterCallback, versionExcludeSet, authorExcludeSet,
      versionIncludeSet, authorIncludeSet.
    rewrite (searchTerms_blank st Hq), Hvi, Hve, Hai, Hae. reflexivity. }
  induction (entries st) as [|e l IH]; simpl; [reflexivity|].
  rewrite Hall, IH. reflexivity.
Qed.

Lemma StronglySorted_impl {A : Type} (R R' : A -> A -> Prop) (l : list A) :
  (forall a b, R a b -> R' a b) -> StronglySorted R l -> StronglySorted R' l.
Proof.
  intros HR. induction 1 as [|x l Hs IH Hall]; constructor; [exact IH|].
  eapply Forall_impl; [|exact Hall]. intros b; apply HR.
Qed.

(** The reference collation is a total preorder that is blind to case. *)

Lemma asciiCollate_total (a b : string) :
  0 < asciiCollate a b -> asciiCollate b a <= 0.
Proof.
  unfold asciiCollate.
  rewrite (String.compare_antisym (Js.foldCase b) (Js.foldCase a)).
  destruct (String.compare (Js.foldCase a) (Js.foldCase b)); simpl; lia.
Qed.

Lemma compare_le_trans (x y z : string) :
  String.compare x y <> Gt -> String.compare y z <> Gt -> String.compare x z <> Gt.
Proof.
  intros Hxy Hyz.
  destruct (String.compare x y) eqn:Exy; [| |congruence].
  - apply String_as_OT.cmp_eq in Exy. subst. exact Hyz.
  - destruct (String.compare y z) eqn:Eyz; [| |congruence].
    + apply String_as_OT.cmp_eq in Eyz. subst. rewrite Exy. discriminate.
    + apply String_as_OT.cmp_lt in Exy, Eyz.
      pose proof (String_as_OT.lt_trans _ _ _ Exy Eyz) as H.
      apply String_as_OT.cmp_lt in H. unfold String_as_OT.cmp in H.
      rewrite H. discriminate.
Qed.

Lemma asciiCollate_le (a b : string) :
  asciiCollate a b <= 0 <-> String.compare (Js.foldCase a) (Js.foldCase b) <> Gt.
Proof.
  unfold asciiCollate.
  destruct (String.compare (Js.foldCase a) (Js.foldCase b));
    split; intros H; try lia; try discriminate; congruence.
Qed.

Lemma asciiCollate_trans (a b c : string) :
  asciiCollate a b <= 0 -> asciiCollate b c <= 0 -> asciiCollate a c <= 0.
Proof. rewrite !asciiCollate_le. apply compare_le_trans. Qed.

Lemma asciiCollate_base (a b : string) :
  asciiCollate a b = asciiCollate (Js.foldCase a) (Js.foldCase b).
Proof. unfold asciiCollate. rewrite !foldCase_idem. reflexivity. Qed.

Section SortOrder.

Context {host : Js.Host}.
Variable localeCompare : string -> string -> Z.

(** What collation at base sensitivity provides: a total preorder on
    strings that does not see letter case. *)
Hypothesis localeCompare_total :
  forall a b, 0 < localeCompare a b -> localeCompare b a <= 0.
Hypothesis localeCompare_trans :
  forall a b c, localeCompare a b <= 0 -> localeCompare b c <= 0 -> localeCompare a c <= 0.
Hypothesis localeCompare_base :
  forall a b, localeCompare a b = localeCompare (Js.toLowerCase a) (Js.toLowerCase b).

(** C6. For every state, the view under sort key [oldest] is ordered by
    createdAt ascending, under [newest] by createdAt descending, and under
    [az] by file name ascending in the case-blind collation order.  The sort
    rearranges the filtered list, not the catalog.  A filtered list with
    entries at epochs 100 and 200, in either order, gives
    [entry@100, entry@200] under [oldest] and [entry@200, entry@100] under
    [newest]; so does a catalog of these two entries when nothing is
    filtered. *)
Theorem sort_orders_filtered_list :
  (forall st0,
     StronglySorted (fun a b => createdAt a <= createdAt b)
       (filtered localeCompare (setSortKey st0 oldest))) /\
  (forall st0,
     StronglySorted (fun a b => createdAt b <= createdAt a)
       (filtered localeCompare (setSortKey st0 newest))) /\
  (forall st0,
     StronglySorted
       (fun a b => localeCompare (Js.toLowerCase (file a)) (Js.toLowerCase (file b)) <= 0)
       (filtered localeCompare (setSortKey st0 az))) /\
  (forall st, Permutation (filtered localeCompare st) (filterList st)) /\
  (forall st e100 e200,
     createdAt e100 = 100 -> createdAt e200 = 200 ->
     (filterList st = [e100; e200] \/ filterList st = [e200; e100]) ->
     filtered localeCompare (setSortKey st oldest) = [e100; e200] /\
     filtered localeCompare (setSortKey st newest) = [e200; e100]) /\
  (forall c e100 e200,
     createdAt e100 = 100 -> createdAt e200 = 200 ->
     let view k l := filtered localeCompare (setSortKey (setEntries (initialState c) l) k) in
     view oldest [e100; e200] = [e100; e200] /\
     view oldest [e200; e100] = [e100; e200] /\
     view newest [e100; e200] = [e200; e100] /\
     view newest [e200; e100] = [e200; e100]).
Proof.
  split; [|split; [|split; [|split; [|split]]]].
  - intros st0. unfold filtered.
    eapply StronglySorted_impl; [|apply jsSort_sorted].
    + intros a b; simpl; lia.
    + intros a b; simpl; lia.
    + intros a b c; simpl; lia.
  - intros st0. unfold filtered.
    eapply StronglySorted_impl; [|apply jsSort_sorted].
    + intros a b; simpl; lia.
    + intros a b; simpl; lia.
    + intros a b c; simpl; lia.
  - intros st0. unfold filtered.
    eapply StronglySorted_impl; [|apply jsSort_sorted].
    + intros a b; simpl. rewrite <- localeCompare_base. trivial.
    + intros a b; simpl; apply localeCompare_total.
    + intros a b c; simpl; apply localeCompare_trans.
  - intros st. apply jsSort_perm.
  - intros st e100 e200 H100 H200 Hl. unfold filtered.
    change (filterList (setSortKey st oldest)) with (filterList st).
    change (filterList (setSortKey st newest)) with (filterList st).
    destruct Hl as [-> | ->]; simpl; rewrite H100, H200; simpl; auto.
  - intros c e100 e200 H100 H200 view. unfold view, filtered.
    rewrite !filterList_unconstrained by reflexivity.
    simpl. rewrite H100, H200. simpl. auto.
Qed.

End SortOrder.

Lemma asciiCollate_base_sample (a b : string) :
  asciiCollate a b
  = asciiCollate (Js.toLowerCase (host := Sample.host) a)
      (Js.toLowerCase (host := Sample.host) b).
Proof. rewrite !sample_toLowerCase. apply asciiCollate_base. Qed.

Lemma sort_orders_filtered_list_witness :
  (forall a b, 0 < asciiCollate a b -> asciiCollate b a <= 0) /\
  (forall a b c, asciiCollate a b <= 0 -> asciiCollate b c <= 0 -> asciiCollate a c <= 0) /\
  (forall a b, asciiCollate a b
               = asciiCollate (Js.toLowerCase (host := Sample.host) a)
                   (Js.toLowerCase (host := Sample.host) b)) /\
  StronglySorted
    (fun a b => asciiCollate (Js.toLowerCase (host := Sample.host) (file a))
                  (Js.toLowerCase (host := Sample.host) (file b)) <= 0)
    (filtered (host := Sample.host) asciiCollate
       (setSortKey (setEntries (initialState 3) Sample.catalog) az)).
Proof.
  split; [exact asciiCollate_total|].
  split; [exact asciiCollate_trans|].
  split; [exact asciiCollate_base_sample|].
  exact (proj1 (proj2 (proj2
    (sort_orders_filtered_list (host := Sample.host) asciiCollate
       asciiCollate_total asciiCollate_trans asciiCollate_base_sample))) _).
Defined.

(** ** Windowing engine *)

(** Every writer of [windowStart] keeps it a valid index base: not negative. *)
Lemma windowStart_writers_nonneg (st : AppState) :
  0 <= windowStart st ->
  (0 <= windowStart (resetEffect st)) /\
  (forall len, 0 <= windowStart (clampEffect len st)) /\
  (forall dom, 0 <= windowStart (handleScroll dom st)) /\
  (forall flt, 0 <= windowStart (restoreEffect flt st)).
Proof.
  intros H. repeat split.
  - unfold resetEffect. destruct (pendingIndex st); simpl; lia.
  - intros len. unfold clampEffect; simpl. lia.
  - intros dom. unfold handleScroll. destruct (restoringRef st); simpl; lia.
  - intros flt. unfold restoreEffect.
    destruct (pendingIndex st) as [p|]; [|exact H].
    destruct (Z.of_nat (List.length flt) =? 0); [exact H|].
    destruct (_ =? 0); simpl; lia.
Qed.

(** Right after the clamp effect the window satisfies the invariant. *)
Lemma clampEffect_invariant (st0 : AppState) (viewLength start : nat) :
  let len := Z.of_nat viewLength in
  let st' := clampEffect len (setWindowStart st0 (Z.of_nat start)) in
  Reference.windowInvariant len (windowStart st') (windowEnd len st') /\
  ((viewLength < start)%nat -> windowStart st' = Z.max 0 (len - 1)).
Proof.
  intros len st'. subst len st'.
  unfold Reference.windowInvariant, windowEnd, clampEffect, WINDOW_SIZE; simpl. lia.
Qed.

(** What each effect of a commit leaves alone. *)

Lemma previewEffect_keeps (st : AppState) :
  let st' := previewEffect st in
  restoringRef st' = restoringRef st /\ pendingIndex st' = pendingIndex st /\
  pendingScrollId st' = pendingScrollId st /\ frames st' = frames st /\
  timeouts st' = timeouts st /\ scrollY st' = scrollY st /\
  measuredCardHeight st' = measuredCardHeight st /\ cols st' = cols st /\
  windowStart st' = windowStart st /\ anchorIndex st' = anchorIndex st.
Proof.
  unfold previewEffect. destruct (pendingPreviewId st) as [pid|];
    [|repeat split; reflexivity].
  destruct (entries st) as [|e l]; [repeat split; reflexivity|].
  destruct (Js.truthy pid); [|repeat split; reflexivity].
  destruct (find _ _); repeat split; reflexivity.
Qed.

Lemma resetEffect_keeps (st : AppState) :
  let st' := resetEffect st in
  restoringRef st' = restoringRef st /\ pendingIndex st' = pendingIndex st /\
  pendingScrollId st' = pendingScrollId st /\ frames st' = frames st /\
  timeouts st' = timeouts st /\ scrollY st' = scrollY st /\
  measuredCardHeight st' = measuredCardHeight st /\ cols st' = cols st.
Proof.
  unfold resetEffect. destruct (pendingIndex st) eqn:E; simpl; rewrite ?E;
    repeat split; reflexivity.
Qed.

Lemma clampEffect_keeps (len : Z) (st : AppState) :
  let st' := clampEffect len st in
  restoringRef st' = restoringRef st /\ pendingIndex st' = pendingIndex st /\
  pendingScrollId st' = pendingScrollId st /\ frames st' = frames st /\
  timeouts st' = timeouts st /\ scrollY st' = scrollY st /\
  measuredCardHeight st' = measuredCardHeight st /\ cols st' = cols st /\
  anchorIndex st' = anchorIndex st.
Proof. repeat split; reflexivity. Qed.

Lemma handleScroll_keeps (dom : Dom) (st : AppState) :
  let st' := handleScroll dom st in
  restoringRef st' = restoringRef st /\ pendingIndex st' = pendingIndex st /\
  pendingScrollId st' = pendingScrollId st /\ frames st' = frames st /\
  timeouts st' = timeouts st /\ scrollY st' = scrollY st /\
  measuredCardHeight st' = measuredCardHeight st /\ cols st' = cols st.
Proof.
  unfold handleScroll. destruct (restoringRef st) eqn:E; simpl; rewrite ?E;
    repeat split; reflexivity.
Qed.

Lemma measureEffect_keeps (card : option Z) (st : AppState) :
  let st' := measureEffect card st in
  restoringRef st' = restoringRef st /\ pendingIndex st' = pendingIndex st /\
  pendingScrollId st' = pendingScrollId st /\ frames st' = frames st /\
  timeouts st' = timeouts st /\ scrollY st' = scrollY st /\ cols st' = cols st /\
  windowStart st' = windowStart st /\ anchorIndex st' = anchorIndex st.
Proof. destruct card; repeat split; reflexivity. Qed.

Lemma locateEffect_keeps (st : AppState) :
  let st' := locateEffect st in
  restoringRef st' = restoringRef st /\ pendingIndex st' = pendingIndex st /\
  pendingScrollId st' = pendingScrollId st /\
  timeouts st' = timeouts st /\ scrollY st' = scrollY st /\
  measuredCardHeight st' = measuredCardHeight st /\ cols st' = cols st /\
  windowStart st' = windowStart st /\ anchorIndex st' = anchorIndex st.
Proof.
  unfold locateEffect. destruct (pendingScrollId st) as [t|] eqn:E;
    [destruct (Js.truthy t)|]; simpl; rewrite ?E; repeat split; reflexivity.
Qed.

Lemma restoreEffect_idle (flt : list LitematicEntry) (st : AppState) :
  pendingIndex st = None -> restoreEffect flt st = st.
Proof. intros H. unfold restoreEffect. rewrite H. reflexivity. Qed.

(** The window start that the scroll handler writes depends on the scroll
    offset, the row height and the column count only. *)
Lemma handleScroll_windowStart (dom : Dom) (st st0 : AppState) :
  restoringRef st = false ->
  restoringRef st0 = false ->
  scrollY st = scrollY st0 ->
  measuredCardHeight st = measuredCardHeight st0 ->
  cols st = cols st0 ->
  windowStart (handleScroll dom st) = windowStart (handleScroll dom st0).
Proof.
  intros Hr Hr0 Hy Hm Hc. unfold handleScroll, approxRowHeight.
  rewrite Hr, Hr0, Hy, Hm, Hc. reflexivity.
Qed.

(** After a commit in which the filters have changed, outside a
    restoration, the window start is the one that the scroll handler
    computes from the scroll offset: the view length does not enter it. *)
Lemma flush_windowStart_from_scroll (ch : Changed) (dom : Dom)
    (flt : list LitematicEntry) (card : option Z) (st : AppState) :
  filtersChanged ch = true ->
  restoringRef st = false ->
  pendingIndex st = None ->
  windowStart (flush ch dom flt card st) = windowStart (handleScroll dom st).
Proof.
  intros Hf Hr Hp. unfold flush. rewrite Hf, !orb_true_r.
  set (s1 := if entriesChanged ch then previewEffect st else st).
  assert (H1 : restoringRef s1 = false /\ pendingIndex s1 = None /\
               scrollY s1 = scrollY st /\
               measuredCardHeight s1 = measuredCardHeight st /\ cols s1 = cols st).
  { subst s1. destruct (entriesChanged ch); [|auto].
    destruct (previewEffect_keeps st) as (A & B & _ & _ & _ & C & D & E & _).
    rewrite A, B, C, D, E. auto. }
  clearbody s1. destruct H1 as (R1 & P1 & Y1 & M1 & C1).
  set (s2 := if lengthChanged ch then resetEffect s1 else s1).
  assert (H2 : restoringRef s2 = false /\ pendingIndex s2 = None /\
               scrollY s2 = scrollY st /\
               measuredCardHeight s2 = measuredCardHeight st /\ cols s2 = cols st).
  { subst s2. destruct (lengthChanged ch); [|auto].
    destruct (resetEffect_keeps s1) as (A & B & _ & _ & _ & C & D & E).
    rewrite A, B, C, D, E. auto. }
  clearbody s2. clear s1 R1 P1 Y1 M1 C1. destruct H2 as (R2 & P2 & Y2 & M2 & C2).
  set (s3 := if lengthChanged ch then clampEffect _ s2 else s2).
  assert (H3 : restoringRef s3 = false /\ pendingIndex s3 = None /\
               scrollY s3 = scrollY st /\
               measuredCardHeight s3 = measuredCardHeight st /\ cols s3 = cols st).
  { subst s3. destruct (lengthChanged ch); auto. }
  clearbody s3. clear s2 R2 P2 Y2 M2 C2. destruct H3 as (R3 & P3 & Y3 & M3 & C3).
  assert (P4 : pendingIndex (handleScroll dom s3) = None).
  { destruct (handleScroll_keeps dom s3) as (_ & B & _). rewrite B. exact P3. }
  rewrite (handleScroll_windowStart dom st s3) by (symmetry + idtac; congruence).
  set (s4 := handleScroll dom s3) in *. clearbody s4.
  assert (H5 : (if lengthChanged ch || colsChanged ch || rowHeightChanged ch
                then restoreEffect flt s4 else s4) = s4).
  { destruct (lengthChanged ch || colsChanged ch || rowHeightChanged ch);
      [apply restoreEffect_idle, P4 | reflexivity]. }
  rewrite H5. clear H5.
  set (s6 := if lengthChanged ch || colsChanged ch then measureEffect card s4 else s4).
  assert (H6 : windowStart s6 = windowStart s4).
  { subst s6. destruct (lengthChanged ch || colsChanged ch); [|reflexivity].
    destruct (measureEffect_keeps card s4) as (_ & _ & _ & _ & _ & _ & _ & W & _).
    exact W. }
  clearbody s6. rewrite <- H6.
  destruct (visibleChanged ch); [|reflexivity].
  destruct (locateEffect_keeps s6) as (_ & _ & _ & _ & _ & _ & _ & W & _). exact W.
Qed.

(** C4. The clamp effect alone establishes the invariant
    0 <= windowStart <= windowEnd <= viewLength and
    windowEnd - windowStart <= WINDOW_SIZE, for every view length and every
    window start.  The commit does not end there: when the filters have
    changed, outside a restoration, the scroll handler runs after the reset
    and the clamp, and the window start it leaves is computed from the
    scroll offset alone, whatever the length of the view.  So when a filter
    change narrows a view that is scrolled to the offset 50000 (three
    columns, window start 390, anchor 399) to 60 entries, the reset and the
    clamp put the window start at 0 and the scroll handler puts it back at
    390: the window end is 60, the rendered slice is empty, and the
    invariant is broken. *)
Theorem window_start_past_view_after_filter_change :
  (forall st0 (viewLength start : nat),
     let len := Z.of_nat viewLength in
     let st' := clampEffect len (setWindowStart st0 (Z.of_nat start)) in
     Reference.windowInvariant len (windowStart st') (windowEnd len st')) /\
  (forall ch dom flt card st,
     filtersChanged ch = true -> restoringRef st = false -> pendingIndex st = None ->
     windowStart (flush ch dom flt card st) = windowStart (handleScroll dom st)) /\
  windowStart (handleScroll Sample.emptyDom Sample.scrolledDeep) = 390 /\
  anchorIndex (handleScroll Sample.emptyDom Sample.scrolledDeep) = 399 /\
  windowStart (clampEffect 60 (resetEffect Sample.scrolledDeep)) = 0 /\
  let st' := flush Sample.filterNarrowed Sample.emptyDom Sample.sixtyEntries None
               Sample.scrolledDeep in
  Z.of_nat (List.length Sample.sixtyEntries) = 60 /\
  windowStart st' = 390 /\
  windowEnd 60 st' = 60 /\
  visible Sample.sixtyEntries st' = [] /\
  ~ Reference.windowInvariant 60 (windowStart st') (windowEnd 60 st').
Proof.
  split; [intros st0 viewLength start; apply clampEffect_invariant|].
  split; [intros ch dom flt card st; apply flush_windowStart_from_scroll|].
  split; [vm_compute; reflexivity|]. split; [vm_compute; reflexivity|].
  split; [vm_compute; reflexivity|].
  cbv zeta.
  assert (Hs : windowStart (flush Sample.filterNarrowed Sample.emptyDom
                              Sample.sixtyEntries None Sample.scrolledDeep) = 390)
    by (vm_compute; reflexivity).
  assert (He : windowEnd 60 (flush Sample.filterNarrowed Sample.emptyDom
                               Sample.sixtyEntries None Sample.scrolledDeep) = 60)
    by (vm_compute; reflexivity).
  split; [vm_compute; reflexivity|]. split; [exact Hs|]. split; [exact He|].
  split; [vm_compute; reflexivity|].
  unfold Reference.windowInvariant. rewrite Hs, He. lia.
Qed.

Lemma floor_div_bounds (a b : Z) : 0 < b -> (a / b) * b <= a < (a / b + 1) * b.
Proof.
  intros Hb. pose proof (Z.div_mod a b) as Hdm.
  pose proof (Z.mod_pos_bound a b Hb). nia.
Qed.

Lemma ceilDiv_bounds (a b : Z) :
  0 < b -> (ceilDiv a b - 1) * b < a <= ceilDiv a b * b.
Proof.
  intros Hb. unfold ceilDiv.
  pose proof (floor_div_bounds (- a) b Hb). nia.
Qed.

(** C5. For every view length, window start, column count >= 1 and
    measured card height, the windowing engine computes windowEnd =
    min(viewLength, windowStart + WINDOW_SIZE); topRows is the floor of
    windowStart / columns and bottomRows the ceiling of
    (viewLength - windowEnd) / columns, each pinned down by its two bounds;
    the spacers are topRows * approxRowHeight and
    bottomRows * approxRowHeight; WINDOW_SIZE is 200.  The window start and
    the measured height are natural numbers. *)
Theorem windowing_engine_outputs (st0 : AppState) (viewLength : Z)
    (start : nat) (height : option nat) :
  1 <= cols st0 ->
  let st := setMeasuredCardHeight (setWindowStart st0 (Z.of_nat start))
              (option_map Z.of_nat height) in
  windowEnd viewLength st = Z.min viewLength (windowStart st + WINDOW_SIZE) /\
  (topRows st * cols st <= windowStart st < (topRows st + 1) * cols st) /\
  ((bottomRows viewLength st - 1) * cols st
     < viewLength - windowEnd viewLength st
     <= bottomRows viewLength st * cols st) /\
  topSpacer st = topRows st * approxRowHeight st /\
  bottomSpacer viewLength st = bottomRows viewLength st * approxRowHeight st /\
  WINDOW_SIZE = 200.
Proof.
  intros Hcols st.
  assert (Hws : 0 <= windowStart st) by (subst st; simpl; lia).
  assert (Hc : 1 <= cols st) by exact Hcols.
  assert (Hh : 0 <= approxRowHeight st).
  { subst st. unfold approxRowHeight, ROW_GAP. simpl.
    destruct height as [h|]; simpl; [destruct (Z.of_nat h =? 0)|]; lia. }
  assert (Hfloor := floor_div_bounds (windowStart st) (cols st) ltac:(lia)).
  assert (Hceil := ceilDiv_bounds (viewLength - windowEnd viewLength st) (cols st)
                     ltac:(lia)).
  fold (topRows st) in Hfloor. fold (bottomRows viewLength st) in Hceil.
  assert (Hend : windowEnd viewLength st <= viewLength)
    by (unfold windowEnd, WINDOW_SIZE; lia).
  assert (Htop : 0 <= topRows st) by nia.
  assert (Hbottom : 0 <= bottomRows viewLength st) by nia.
  repeat split; try tauto.
  - unfold topSpacer. apply Z.max_r. apply Z.mul_nonneg_nonneg; assumption.
  - unfold bottomSpacer. apply Z.max_r. apply Z.mul_nonneg_nonneg; assumption.
Qed.

Lemma windowing_engine_outputs_witness :
  1 <= cols (initialState 3) /\
  topSpacer (setMeasuredCardHeight (setWindowStart (initialState 3) 48) (Some 360))
    = 16 * 376 /\
  bottomSpacer 1000 (setMeasuredCardHeight (setWindowStart (initialState 3) 48) (Some 360))
    = 251 * 376.
Proof.
  assert (H : 1 <= cols (initialState 3)) by (simpl; lia).
  split; [exact H|].
  destruct (windowing_engine_outputs (initialState 3) 1000 48%nat (Some 360%nat) H)
    as (_ & _ & _ & Ht & Hb & _).
  split; [exact Ht | exact Hb].
Defined.

(** Measuring a card changes the row height only: the anchor and the window
    start stay where they are. *)
Lemma measureEffect_keeps_anchor (card : option Z) (st : AppState) :
  anchorIndex (measureEffect card st) = anchorIndex st /\
  windowStart (measureEffect card st) = windowStart st.
Proof. destruct card; split; reflexivity. Qed.

(** The materialized slice never holds more than WINDOW_SIZE entries. *)
Lemma visible_bounded (flt : list LitematicEntry) (st : AppState) :
  0 <= windowStart st ->
  Z.of_nat (List.length (visible flt st)) <= WINDOW_SIZE.
Proof.
  intros Hws. unfold visible, slice, windowEnd, WINDOW_SIZE.
  set (len := Z.of_nat (List.length flt)).
  assert (Hlen : 0 <= len) by (subst len; lia).
  replace (windowStart st <? 0) with false by (symmetry; apply Z.ltb_ge; lia).
  replace (Z.min len (windowStart st + 200) <? 0) with false
    by (symmetry; apply Z.ltb_ge; lia).
  rewrite length_firstn. lia.
Qed.

(** ** Restoration *)

(** C7, read on the decoded target itself, fails when the target lies
    beyond the view: with ten entries, target 57 and three columns, the
    anchor becomes 9 and the window starts at 0. *)
Lemma restore_target_beyond_view :
  ~ Reference.restoresFromTarget
      (filtered (host := Sample.host) asciiCollate (Sample.restoring57 Sample.tenEntries))
      (Sample.restoring57 Sample.tenEntries) 57.
Proof.
  unfold Reference.restoresFromTarget. vm_compute. intros [H _]. discriminate H.
Qed.

(** C7 (amended). While the view is not empty, restoration first clamps the
    decoded target into [0, viewLength - 1].  If the clamped index is 0, a
    scroll to the top is queued, windowStart, anchorIndex and the
    element-search target are left alone, and running the queued frame puts
    the viewport at the top with no search frame behind it.  Otherwise
    anchorIndex is the clamped index, windowStart is
    max(0, index - BUFFER_ROWS * columns), the card at that index is handed
    to the element search and no scroll is queued.  Target 57 with 3 columns
    in a view of at least 58 entries gives windowStart 48. *)
Theorem restore_uses_clamped_target (flt : list LitematicEntry) (st : AppState)
    (target : Z) :
  pendingIndex st = Some (Js.Int target) ->
  flt <> [] ->
  let idx := Z.max 0 (Z.min (Z.of_nat (List.length flt) - 1) target) in
  let st' := restoreEffect flt st in
  (idx = 0 ->
     frames st' = (frames st ++ [FrameScrollTop])%list /\
     pendingScrollId st' = pendingScrollId st /\
     windowStart st' = windowStart st /\
     anchorIndex st' = anchorIndex st /\
     pendingIndex st' = None /\
     restoringRef st' = true /\
     (frames st = [] ->
      forall dom,
        scrollY (runFrame dom st') = 0 /\
        frames (runFrame dom st') = [] /\
        pendingScrollId (runFrame dom st') = pendingScrollId st)) /\
  (idx <> 0 ->
     anchorIndex st' = idx /\
     windowStart st' = Z.max 0 (idx - BUFFER_ROWS * cols st) /\
     pendingScrollId st' =
       match nth_error flt (Z.to_nat idx) with
       | Some e => if Js.truthy (id e) then Some (id e) else None
       | None => None
       end /\
     frames st' = frames st /\
     pendingIndex st' = None /\
     restoringRef st' = true) /\
  (target = 57 -> cols st = 3 -> 57 < Z.of_nat (List.length flt) ->
     windowStart st' = 48 /\ anchorIndex st' = 57).
Proof.
  intros Hpending Hflt idx st'.
  assert (Hlen : (Z.of_nat (List.length flt) =? 0) = false).
  { apply Z.eqb_neq. destruct flt; [congruence | simpl; lia]. }
  assert (Hst' : st' =
    if idx =? 0 then
      requestAnimationFrame FrameScrollTop
        (setRestoringRef (setPendingIndex st None) true)
    else
      setRestoringRef
        (setPendingIndex
           (setPendingScrollId
              (setWindowStart (setAnchorIndex st idx)
                 (Z.max 0 (idx - BUFFER_ROWS * cols st)))
              (match nth_error flt (Z.to_nat idx) with
               | Some e => if Js.truthy (id e) then Some (id e) else None
               | None => None
               end)) None) true).
  { subst st'. unfold restoreEffect. rewrite Hpending, Hlen. reflexivity. }
  assert (Hrun : forall dom s, frames s = [FrameScrollTop] ->
            runFrame dom s = setTimeout TimeoutEndRestoring (setScrollY (setFrames s []) 0)).
  { intros dom s Hs. unfold runFrame. rewrite Hs. reflexivity. }
  split; [|split].
  - intros H0. rewrite Hst'. apply Z.eqb_eq in H0. rewrite H0. simpl.
    repeat split; try reflexivity;
      rewrite Hrun by (simpl; rewrite H; reflexivity); reflexivity.
  - intros Hne. rewrite Hst'. apply Z.eqb_neq in Hne. rewrite Hne. simpl.
    repeat split; reflexivity.
  - intros Ht Hc Hl57. rewrite Hst'.
    assert (Hidx : idx = 57) by (subst idx; lia).
    rewrite Hidx. simpl. rewrite Hc. split; reflexivity.
Qed.

Lemma restore_uses_clamped_target_witness :
  pendingIndex (Sample.restoring57 Sample.sixtyEntries) = Some (Js.Int 57) /\
  Sample.sixtyEntries <> [] /\
  windowStart (restoreEffect Sample.sixtyEntries (Sample.restoring57 Sample.sixtyEntries)) = 48 /\
  anchorIndex (restoreEffect Sample.sixtyEntries (Sample.restoring57 Sample.sixtyEntries)) = 57.
Proof.
  assert (H1 : pendingIndex (Sample.restoring57 Sample.sixtyEntries) = Some (Js.Int 57))
    by reflexivity.
  assert (H2 : Sample.sixtyEntries <> []) by (vm_compute; discriminate).
  split; [exact H1|]. split; [exact H2|].
  apply (restore_uses_clamped_target Sample.sixtyEntries
           (Sample.restoring57 Sample.sixtyEntries) 57 H1 H2).
  - reflexivity.
  - reflexivity.
  - vm_compute. reflexivity.
Defined.

(** ** Element search *)

Lemma runFrames_app (l1 l2 : list Dom) (st : AppState) :
  runFrames (l1 ++ l2) st = runFrames l2 (runFrames l1 st).
Proof. revert st; induction l1 as [|d l1 IH]; intros st; simpl; auto. Qed.

Lemma runFrame_idle (dom : Dom) (st : AppState) :
  frames st = [] -> runFrame dom st = st.
Proof. intros H. unfold runFrame. rewrite H. destruct st; simpl in *; subst; reflexivity. Qed.

Lemma runFrames_idle (l : list Dom) (st : AppState) :
  frames st = [] -> runFrames l st = st.
Proof.
  intros H. induction l as [|d l IH]; simpl; [reflexivity|].
  rewrite runFrame_idle by exact H. exact IH.
Qed.

Lemma framesFrom_succ (doms : nat -> Dom) (i n : nat) :
  framesFrom doms i (S n) = doms i :: framesFrom doms (S i) n.
Proof. reflexivity. Qed.

Lemma drainTimeouts_idle (st : AppState) : timeouts st = [] -> drainTimeouts st = st.
Proof. intros H. unfold drainTimeouts. rewrite H. reflexivity. Qed.

(** A lookup that throws ends its callback without a trace. *)
Lemma runCallback_throws (dom : Dom) (targetId : string) (attempts : Z) (st : AppState) :
  querySelector dom (entrySelector targetId) = QueryThrows ->
  runCallback dom (FrameTryScroll targetId attempts) st = st.
Proof. intros H. unfold runCallback. rewrite H. reflexivity. Qed.

(** C9. The escaping of the target id puts a backslash before each double
    quote and before nothing else, so for the id of a build whose file name
    holds a backslash followed by a double quote the selector is cut short:
    the quote that ends the attribute value comes before the text ends.
    When a link with idx=57 is opened on a catalog whose build at position
    57 has such a name, the commit that shows the catalog hands the id of
    that build to the element search.  In a document that refuses the
    selector the first lookup throws inside the frame callback: no further
    frame is queued, no timer is set, the suppression flag stays set and
    the target stays pending, and no later frame or timer changes that. *)
Theorem element_search_stalls_on_quoted_id :
  entrySelector Sample.quotedId = Sample.quotedSelector /\
  querySelector Sample.strictDom (entrySelector Sample.quotedId) = QueryThrows /\
  let view := filtered (host := Sample.host) asciiCollate Sample.catalogArrived in
  let st := flush Sample.catalogShown Sample.strictDom view (Some 360)
              Sample.catalogArrived in
  option_map id (nth_error view 57) = Some Sample.quotedId /\
  restoringRef st = true /\
  pendingIndex st = None /\
  timeouts st = [] /\
  frames st = [FrameTryScroll Sample.quotedId 0] /\
  let st' := runFrame Sample.strictDom st in
  frames st' = [] /\
  timeouts st' = [] /\
  restoringRef st' = true /\
  pendingScrollId st' = Some Sample.quotedId /\
  (forall doms n, runFrames (framesFrom doms 0 n) st' = st') /\
  (forall i, fireTimeout i st' = st') /\
  drainTimeouts st' = st'.
Proof.
  split; [vm_compute; reflexivity|]. split; [vm_compute; reflexivity|].
  cbv zeta.
  set (st := flush Sample.catalogShown Sample.strictDom
               (filtered (host := Sample.host) asciiCollate Sample.catalogArrived)
               (Some 360) Sample.catalogArrived).
  split; [vm_compute; reflexivity|]. split; [vm_compute; reflexivity|].
  split; [vm_compute; reflexivity|]. split; [vm_compute; reflexivity|].
  split; [vm_compute; reflexivity|].
  assert (Hf : frames (runFrame Sample.strictDom st) = []) by (vm_compute; reflexivity).
  assert (Ht : timeouts (runFrame Sample.strictDom st) = []) by (vm_compute; reflexivity).
  split; [exact Hf|]. split; [exact Ht|].
  split; [vm_compute; reflexivity|]. split; [vm_compute; reflexivity|].
  split; [intros doms n; apply runFrames_idle, Hf|].
  split; [|apply drainTimeouts_idle, Ht].
  intros i. unfold fireTimeout. rewrite Ht. destruct i; reflexivity.
Qed.

(** ** Numbers as text *)

Lemma to_int_not_nil (n : Z) :
  Z.to_int n <> Decimal.Pos Decimal.Nil /\ Z.to_int n <> Decimal.Neg Decimal.Nil.
Proof.
  destruct n as [|p|p]; simpl; split; try discriminate;
    intros [= H]; exact (DecimalPos.Unsigned.to_uint_nonnil p H).
Qed.

Lemma numberToString_inj (a b : Z) :
  Js.numberToString a = Js.numberToString b -> a = b.
Proof.
  unfold Js.numberToString. intros H.
  destruct (to_int_not_nil a) as [Ha1 Ha2]. destruct (to_int_not_nil b) as [Hb1 Hb2].
  pose proof (NilZero.isi _ Ha1 Ha2) as Ia. pose proof (NilZero.isi _ Hb1 Hb2) as Ib.
  rewrite H in Ia. rewrite Ia in Ib. injection Ib as Ib.
  apply DecimalZ.to_int_inj, Ib.
Qed.

Lemma allDigits_uint (d : Decimal.uint) :
  Js.allDigits (NilEmpty.string_of_uint d) = true.
Proof. induction d; simpl; auto. Qed.

Lemma numberToString_nonneg (n : Z) :
  0 <= n ->
  exists d, d <> Decimal.Nil /\ Js.numberToString n = NilEmpty.string_of_uint d /\
            Z.of_N (Pos.of_uint d) = n.
Proof.
  intros Hn. destruct n as [|p|p]; [| |lia].
  - exists (Decimal.D0 Decimal.Nil). repeat split. discriminate.
  - exists (Pos.to_uint p).
    pose proof (DecimalPos.Unsigned.to_uint_nonnil p) as Hnil.
    split; [exact Hnil|]. split.
    + unfold Js.numberToString; simpl. destruct (Pos.to_uint p); [congruence|..]; reflexivity.
    + rewrite DecimalPos.Unsigned.of_to. reflexivity.
Qed.

Lemma allDigits_numberToString (n : Z) :
  0 <= n -> Js.allDigits (Js.numberToString n) = true.
Proof.
  intros Hn. destruct (numberToString_nonneg n Hn) as [d [_ [-> _]]].
  apply allDigits_uint.
Qed.

Lemma allDigits_no_dash (x y : string) :
  Js.allDigits (x ++ String "-" y) = false.
Proof.
  induction x as [|c x IH]; simpl; [reflexivity|].
  destruct (Js.digitVal c); [exact IH | reflexivity].
Qed.

(** The text after the last dash determines both parts. *)
Lemma dash_suffix_inj (a b s t : string) :
  Js.allDigits s = true -> Js.allDigits t = true ->
  (a ++ "-" ++ s)%string = (b ++ "-" ++ t)%string -> a = b /\ s = t.
Proof.
  intros Hs Ht. revert b. induction a as [|c a IH]; intros [|d b] H; simpl in H.
  - injection H as H. auto.
  - injection H as _ H. rewrite H, allDigits_no_dash in Hs. discriminate.
  - injection H as _ H. rewrite <- H, allDigits_no_dash in Ht. discriminate.
  - injection H as Hc H. destruct (IH _ H) as [-> ->]. subst. auto.
Qed.

Lemma parseDigits_cons (c : ascii) (s : string) (a : option Z) :
  Js.parseDigits (String c s) a =
  match Js.digitVal c with
  | Some v => Js.parseDigits s (Some (10 * match a with Some x => x | None => 0 end + v))
  | None => a
  end.
Proof. reflexivity. Qed.

Lemma parseDigits_acc (d : Decimal.uint) (acc : positive) :
  Js.parseDigits (NilEmpty.string_of_uint d) (Some (Z.pos acc))
  = Some (Z.pos (Pos.of_uint_acc d acc)).
Proof.
  revert acc; induction d; intros acc; [reflexivity|..];
    cbn [NilEmpty.string_of_uint Pos.of_uint_acc];
    rewrite parseDigits_cons; eval_digit;
    rewrite <- IHd; f_equal; f_equal; lia.
Qed.

Lemma parseDigits_zero (d : Decimal.uint) :
  Js.parseDigits (NilEmpty.string_of_uint d) (Some 0) = Some (Z.of_N (Pos.of_uint d)).
Proof.
  induction d; [reflexivity | exact IHd |..];
    cbn [NilEmpty.string_of_uint Pos.of_uint];
    rewrite parseDigits_cons; eval_digit;
    apply parseDigits_acc.
Qed.

Lemma roundToDouble_safe (z : Z) : Z.abs z < 2 ^ 53 -> Js.roundToDouble z = Js.Int z.
Proof.
  intros H. unfold Js.roundToDouble. apply Z.ltb_lt in H. rewrite H. reflexivity.
Qed.

(** Nothing is trimmed before a digit. *)
Lemma trimStart_digit (c : ascii) (r : string) (v : Z) :
  Js.digitVal c = Some v -> Js.trimStart (String c r) = String c r.
Proof.
  intros H. unfold Js.trimStart. rewrite marks_cons.
  assert (Hs : Js.spaceLen (String c r) = 0%nat).
  { cbn [Js.spaceLen].
    replace (Js.isAsciiSpace c) with false; [replace (Js.isSpaceLead c) with false|];
      [reflexivity | |];
      destruct c as [[] [] [] [] [] [] [] []]; try reflexivity; discriminate H. }
  rewrite Hs. reflexivity.
Qed.

(** [parseInt] reads back what [String] prints for an index. *)
Lemma parseInt_numberToString (n : Z) :
  0 <= n < 2 ^ 53 -> Js.parseInt (Js.numberToString n) = Some (Js.Int n).
Proof.
  intros [Hn Hsafe]. destruct (numberToString_nonneg n Hn) as [d [Hnil [-> Hval]]].
  assert (Hparse : Js.parseInt (NilEmpty.string_of_uint d)
                   = option_map Js.roundToDouble
                       (Js.parseDigits (NilEmpty.string_of_uint d) (Some 0))).
  { unfold Js.parseInt.
    destruct d; [congruence|..]; cbn [NilEmpty.string_of_uint];
      (erewrite trimStart_digit by (vm_compute; reflexivity)); reflexivity. }
  rewrite Hparse, parseDigits_zero, Hval. simpl.
  rewrite roundToDouble_safe by lia. reflexivity.
Qed.

(** ** Catalog identities *)

Lemma mapFrom_In {A B : Type} (f : A -> Z -> B) (l : list A) :
  forall i b, In b (mapFrom f i l) -> exists a k, i <= k /\ In a l /\ b = f a k.
Proof.
  induction l as [|a l IH]; intros i b H; simpl in H; [contradiction|].
  destruct H as [<-|H].
  - exists a, i. split; [lia|]. split; [left; reflexivity | reflexivity].
  - destruct (IH _ _ H) as [a' [k [Hk [Hin ->]]]].
    exists a', k. split; [lia|]. split; [right; exact Hin | reflexivity].
Qed.

Lemma mapFrom_nth {A B : Type} (f : A -> Z -> B) (l : list A) :
  forall i n a, nth_error l n = Some a ->
    nth_error (mapFrom f i l) n = Some (f a (i + Z.of_nat n)).
Proof.
  induction l as [|x l IH]; intros i n a H; destruct n as [|n]; simpl in *;
    try discriminate.
  - injection H as <-. rewrite Z.add_0_r. reflexivity.
  - rewrite (IH (i + 1) n a H). do 2 f_equal. lia.
Qed.

Lemma normalizeEntry_id_inj (a b : RawLitematicEntry) (i k : Z) :
  0 <= i -> 0 <= k ->
  id (normalizeEntry a i) = id (normalizeEntry b k) -> i = k.
Proof.
  intros Hi Hk H. simpl in H.
  apply dash_suffix_inj in H; try (apply allDigits_numberToString; assumption).
  apply numberToString_inj, H.
Qed.

Lemma mapFrom_ids_NoDup (l : list RawLitematicEntry) :
  forall i, 0 <= i -> NoDup (map id (mapFrom normalizeEntry i l)).
Proof.
  induction l as [|a l IH]; intros i Hi; simpl; constructor.
  - intros Hin. apply in_map_iff in Hin. destruct Hin as [e [Heq Hin]].
    apply mapFrom_In in Hin. destruct Hin as [b [k [Hk [_ ->]]]].
    apply normalizeEntry_id_inj in Heq; lia.
  - apply IH. lia.
Qed.

Lemma NoDup_map_filter_eqb {A : Type} (f : A -> string) (x : string) (l : list A) :
  NoDup (map f l) ->
  (List.length (filter (fun e => (f e =? x)%string) l) <= 1)%nat.
Proof.
  induction l as [|a l IH]; simpl; intros Hnd; [lia|].
  inversion Hnd as [|? ? Hnotin Hnd']; subst.
  destruct (String.eqb_spec (f a) x) as [Heq|Hne]; [|apply IH, Hnd'].
  simpl. replace (filter _ l) with (@nil A); [simpl; lia|].
  symmetry. clear IH Hnd Hnd'. induction l as [|b l IHl]; [reflexivity|].
  simpl. destruct (String.eqb_spec (f b) x) as [Hb|Hb].
  - exfalso. apply Hnotin. left. congruence.
  - apply IHl. intros Hin. apply Hnotin. right. exact Hin.
Qed.

Lemma NoDup_map_inj {A B : Type} (f : A -> B) (l : list A) :
  NoDup (map f l) ->
  forall a b, In a l -> In b l -> f a = f b -> a = b.
Proof.
  induction l as [|x l IH]; simpl; intros Hnd a b Ha Hb Hf; [contradiction|].
  inversion Hnd as [|? ? Hnotin Hnd']; subst.
  destruct Ha as [<-|Ha], Hb as [<-|Hb]; auto.
  - exfalso. apply Hnotin. rewrite Hf. apply in_map, Hb.
  - exfalso. apply Hnotin. rewrite <- Hf. apply in_map, Ha.
Qed.

(** A pending preview identifier that is the id of a catalog entry, and no
    entry's file name, opens exactly that entry. *)
Lemma previewEffect_resolves_id (st : AppState) (e : LitematicEntry) (pid : string) :
  NoDup (map id (entries st)) ->
  pendingPreviewId st = Some pid ->
  Js.truthy pid = true ->
  In e (entries st) ->
  id e = pid ->
  (forall e', In e' (entries st) -> file e' <> pid) ->
  preview (previewEffect st) = Some e /\ pendingPreviewId (previewEffect st) = None.
Proof.
  intros Hnd Hpid Ht Hin Hid Hfile. unfold previewEffect. rewrite Hpid, Ht.
  destruct (entries st) as [|x l] eqn:El; [contradiction|]. rewrite <- El in *.
  destruct (find _ (entries st)) as [m|] eqn:Hfind.
  - apply find_some in Hfind. destruct Hfind as [Hm Hmatch].
    apply orb_true_iff in Hmatch. destruct Hmatch as [Hmid|Hmfile].
    + apply String.eqb_eq in Hmid.
      rewrite (NoDup_map_inj id _ Hnd m e Hm Hin) by congruence.
      split; reflexivity.
    + apply String.eqb_eq in Hmfile. exfalso. exact (Hfile m Hm Hmfile).
  - exfalso. apply (find_none _ _ Hfind) in Hin.
    rewrite Hid, String.eqb_refl in Hin. discriminate.
Qed.

(** C10. Within one load the identities of the normalized entries are
    pairwise distinct: the entry at load position [i] has the id made of its
    file name, a dash and [i] in decimal, and for every identifier at most
    one entry of the catalog carries it: two entries of the catalog with the
    same id are the same entry. *)
Theorem normalized_ids_distinct (rawEntries : list RawLitematicEntry) :
  NoDup (map id (normalize rawEntries)) /\
  (forall i r, nth_error rawEntries i = Some r ->
     option_map id (nth_error (normalize rawEntries) i)
     = Some (raw_file r ++ "-" ++ Js.numberToString (Z.of_nat i))%string) /\
  (forall pid,
     (List.length (filter (fun e => (id e =? pid)%string) (normalize rawEntries)) <= 1)%nat) /\
  (forall e1 e2,
     In e1 (normalize rawEntries) -> In e2 (normalize rawEntries) ->
     id e1 = id e2 -> e1 = e2).
Proof.
  assert (Hnd : NoDup (map id (normalize rawEntries)))
    by (apply mapFrom_ids_NoDup; lia).
  split; [exact Hnd|]. split; [|split].
  - intros i r H. unfold normalize. rewrite (mapFrom_nth _ _ 0 i r H). reflexivity.
  - intros pid. apply NoDup_map_filter_eqb, Hnd.
  - apply NoDup_map_inj, Hnd.
Qed.

(** ** Navigation state codec *)

Lemma get_set_same (sp : URLSearchParams.t) (k v : string) :
  URLSearchParams.get (URLSearchParams.set sp k v) k = Some v.
Proof.
  induction sp as [|[k' v'] sp IH]; simpl.
  - rewrite String.eqb_refl. reflexivity.
  - destruct (k' =? k)%string eqn:E; simpl.
    + rewrite String.eqb_refl. reflexivity.
    + rewrite E. exact IH.
Qed.

Lemma get_remove_other (sp : URLSearchParams.t) (k k' : string) :
  k <> k' -> URLSearchParams.get (URLSearchParams.remove sp k) k' = URLSearchParams.get sp k'.
Proof.
  intros Hne. induction sp as [|[a v] sp IH]; simpl; [reflexivity|].
  destruct (String.eqb_spec a k) as [->|Hak]; simpl.
  - destruct (String.eqb_spec k k'); [congruence | exact IH].
  - rewrite IH. reflexivity.
Qed.

Lemma get_set_other (sp : URLSearchParams.t) (k k' v : string) :
  k <> k' -> URLSearchParams.get (URLSearchParams.set sp k v) k' = URLSearchParams.get sp k'.
Proof.
  intros Hne. induction sp as [|[a w] sp IH]; simpl.
  - destruct (String.eqb_spec k k'); [congruence | reflexivity].
  - destruct (String.eqb_spec a k) as [->|Hak]; simpl.
    + destruct (String.eqb_spec k k'); [congruence|].
      apply get_remove_other, Hne.
    + rewrite IH. reflexivity.
Qed.

(** What the decoder reads and writes, field by field. *)
Lemma applyParams_fields (sp : URLSearchParams.t) (st : AppState) :
  let d := applyParams sp st in
  q d = orEmpty (URLSearchParams.get sp "q") /\
  sortKey d =
    match URLSearchParams.get sp "sort" with
    | Some s =>
        if (s =? "newest")%string then newest
        else if (s =? "oldest")%string then oldest
        else if (s =? "az")%string then az
        else sortKey st
    | None => sortKey st
    end /\
  versionIncludes d = parseListParam (URLSearchParams.get sp "vInc") /\
  versionExcludes d = parseListParam (URLSearchParams.get sp "vExc") /\
  authorIncludes d = parseListParam (URLSearchParams.get sp "aInc") /\
  authorExcludes d = parseListParam (URLSearchParams.get sp "aExc") /\
  pendingPreviewId d = URLSearchParams.get sp "preview" /\
  pendingIndex d =
    match URLSearchParams.get sp "idx" with
    | Some v => if Js.truthy v then Some (Js.orZero (Js.parseInt v)) else None
    | None => None
    end /\
  restoringRef d = true /\
  timeouts d = (timeouts st ++ [TimeoutApplyParams])%list /\
  entries d = entries st /\ preview d = preview st /\
  windowStart d = windowStart st /\ anchorIndex d = anchorIndex st /\
  pendingScrollId d = pendingScrollId st /\ frames d = frames st /\
  scrollY d = scrollY st /\ cols d = cols st /\
  measuredCardHeight d = measuredCardHeight st.
Proof.
  unfold applyParams, SCROLL_PARAM_KEY.
  destruct (URLSearchParams.get sp "sort") as [s|];
    [destruct (s =? "newest")%string, (s =? "oldest")%string, (s =? "az")%string|];
    cbv zeta; simpl; repeat split; reflexivity.
Qed.

Lemma truthyOpt_some (o : option string) :
  (if truthyOpt o then o else None) = (if truthyOpt o then Some (orEmpty o) else None).
Proof. destruct o; reflexivity. Qed.

(** What the encoder writes under each key. *)
Lemma buildParams_gets (o : option Z) (st : AppState) :
  let sp := buildParams o st in
  let facet l := if truthyOpt (listToParam l) then listToParam l else None in
  URLSearchParams.get sp "q" = (if Js.truthy (Js.trim (q st)) then Some (q st) else None) /\
  URLSearchParams.get sp "sort" =
    match sortKey st with
    | newest => None
    | k => Some (sortKeyName k)
    end /\
  URLSearchParams.get sp "vInc" = facet (versionIncludes st) /\
  URLSearchParams.get sp "vExc" = facet (versionExcludes st) /\
  URLSearchParams.get sp "aInc" = facet (authorIncludes st) /\
  URLSearchParams.get sp "aExc" = facet (authorExcludes st) /\
  URLSearchParams.get sp "preview" =
    match preview st with
    | Some p => if Js.truthy (id p) then Some (id p) else None
    | None => None
    end /\
  URLSearchParams.get sp "idx" =
    Some (Js.numberToString
            (Z.max 0 match o with Some i => i | None => anchorIndex st end)).
Proof.
  unfold buildParams, SCROLL_PARAM_KEY. cbv zeta.
  rewrite !truthyOpt_some.
  generalize (truthyOpt (listToParam (versionIncludes st))),
             (truthyOpt (listToParam (versionExcludes st))),
             (truthyOpt (listToParam (authorIncludes st))),
             (truthyOpt (listToParam (authorExcludes st))),
             (orEmpty (listToParam (versionIncludes st))),
             (orEmpty (listToParam (versionExcludes st))),
             (orEmpty (listToParam (authorIncludes st))),
             (orEmpty (listToParam (authorExcludes st))).
  intros t1 t2 t3 t4 v1 v2 v3 v4.
  destruct (Js.truthy (Js.trim (q st))), (sortKey st), t1, t2, t3, t4;
    (destruct (preview st) as [p|]; [destruct (Js.truthy (id p))|]);
    repeat split; reflexivity.
Qed.

Lemma split_no_sep (c : ascii) (x : string) :
  Js.hasChar c x = false -> Js.split c x = [x].
Proof.
  induction x as [|d x IH]; simpl; [reflexivity|].
  intros H. apply orb_false_iff in H. destruct H as [Hd Hx].
  rewrite Hd, (IH Hx). reflexivity.
Qed.

Lemma split_app_sep (c : ascii) (x rest : string) :
  Js.hasChar c x = false ->
  Js.split c (x ++ String c rest) = x :: Js.split c rest.
Proof.
  induction x as [|d x IH]; simpl; intros H.
  - rewrite Ascii.eqb_refl. reflexivity.
  - apply orb_false_iff in H. destruct H as [Hd Hx].
    rewrite Hd, (IH Hx). reflexivity.
Qed.

(** Joining comma-free pieces and splitting again gives the pieces back. *)
Lemma split_join (l : list string) :
  l <> [] ->
  Forall (fun t => Js.hasChar "," t = false) l ->
  Js.split "," (Js.join "," l) = l.
Proof.
  intros Hne Hall. induction Hall as [|x l Hx Hall IH]; [congruence|].
  destruct l as [|y l].
  - simpl. apply split_no_sep, Hx.
  - change (Js.join "," (x :: y :: l)) with (x ++ String "," (Js.join "," (y :: l)))%string.
    rewrite split_app_sep by exact Hx. f_equal. apply IH. discriminate.
Qed.

Lemma isCleanToken_iff (t : string) :
  isCleanToken t = true <->
  Js.truthy t = true /\ Js.trim t = t /\ Js.hasChar "," t = false.
Proof.
  unfold isCleanToken. rewrite !andb_true_iff, negb_true_iff, String.eqb_eq. tauto.
Qed.

Lemma join_truthy (x : string) (l : list string) :
  Js.truthy x = true -> Js.truthy (Js.join "," (x :: l)) = true.
Proof.
  destruct x as [|c x]; [discriminate|]. intros _.
  destruct l; reflexivity.
Qed.

Lemma filterTruthy_trim_clean (l : list string) :
  Forall (fun t => isCleanToken t = true) l ->
  Js.filterTruthy (map Js.trim l) = l.
Proof.
  unfold Js.filterTruthy. induction 1 as [|y r Hy Hall IH]; [reflexivity|].
  apply isCleanToken_iff in Hy. destruct Hy as (Ht & Htrim & _).
  simpl. rewrite Htrim, Ht, IH. reflexivity.
Qed.

(** A list of clean facet values survives the comma-separated encoding. *)
Lemma parseListParam_listToParam (l : list string) :
  Forall (fun t => isCleanToken t = true) l ->
  parseListParam (if truthyOpt (listToParam l) then listToParam l else None) = l.
Proof.
  intros Hall. destruct l as [|x l]; [reflexivity|].
  assert (Hx : Js.truthy x = true).
  { inversion Hall as [|? ? H _]; subst. apply isCleanToken_iff in H. tauto. }
  pose proof (join_truthy x l Hx) as Hj.
  change (listToParam (x :: l)) with (Some (Js.join "," (x :: l))).
  change (truthyOpt (Some (Js.join "," (x :: l))))
    with (Js.truthy (Js.join "," (x :: l))).
  rewrite Hj. unfold parseListParam. rewrite Hj.
  rewrite split_join; [|discriminate|].
  - apply filterTruthy_trim_clean, Hall.
  - eapply Forall_impl; [|exact Hall].
    intros t Ht. apply isCleanToken_iff in Ht. tauto.
Qed.

(** The decoder trims white space of every kind: an author name that
    begins with a no-break space is not a value the encoding carries
    unchanged, it comes back without the space. *)
Lemma padded_value_is_trimmed :
  isCleanToken Sample.paddedAuthor = false /\
  parseListParam (listToParam [Sample.paddedAuthor]) = ["bob"].
Proof. split; vm_compute; reflexivity. Qed.

(** C2, for every state, fails on a facet value with a comma: the
    encoding of a state that includes an author whose name holds a comma
    does not decode to that state, the name comes back in two pieces. *)
Lemma comma_breaks_round_trip :
  ~ Reference.roundTrips Sample.commaAuthor (initialState 3).
Proof.
  unfold Reference.roundTrips. vm_compute.
  intros (_ & _ & _ & _ & H & _). discriminate H.
Qed.

Lemma numberToString_truthy (n : Z) :
  0 <= n -> Js.truthy (Js.numberToString n) = true.
Proof.
  intros Hn. destruct (numberToString_nonneg n Hn) as [d [Hnil [-> _]]].
  destruct d; [congruence|..]; reflexivity.
Qed.

(** C2 (amended). For every state whose facet values are non-empty, free of
    commas and without white space (any code point of it) at either end,
    and whose anchor index is below 2^53, decoding the encoding of the
    state, when the state's sort key is not the default or the decoder
    starts from the default sort key, gives back the sort key and the four
    facet lists unchanged; the search text unchanged when it has a non-blank
    character and as the empty text otherwise, with the same search terms
    either way; the id of the open preview as the pending preview id; and
    the anchor index, clamped to be at least 0, as the pending index. *)
Theorem codec_round_trip {host : Js.Host} (st prior : AppState) :
  Forall (fun t => isCleanToken t = true) (versionIncludes st) ->
  Forall (fun t => isCleanToken t = true) (versionExcludes st) ->
  Forall (fun t => isCleanToken t = true) (authorIncludes st) ->
  Forall (fun t => isCleanToken t = true) (authorExcludes st) ->
  sortKey st <> newest \/ sortKey prior = newest ->
  anchorIndex st < 2 ^ 53 ->
  let d := applyParams (buildParams None st) prior in
  q d = (if Js.truthy (Js.trim (q st)) then q st else "") /\
  searchTerms d = searchTerms st /\
  sortKey d = sortKey st /\
  versionIncludes d = versionIncludes st /\
  versionExcludes d = versionExcludes st /\
  authorIncludes d = authorIncludes st /\
  authorExcludes d = authorExcludes st /\
  pendingPreviewId d =
    match preview st with
    | Some p => if Js.truthy (id p) then Some (id p) else None
    | None => None
    end /\
  pendingIndex d = Some (Js.Int (Z.max 0 (anchorIndex st))).
Proof.
  intros Hvi Hve Hai Hae Hsort Hsafe d.
  destruct (applyParams_fields (buildParams None st) prior)
    as (Dq & Dsort & Dvi & Dve & Dai & Dae & Dprev & Didx & _).
  destruct (buildParams_gets None st)
    as (Gq & Gsort & Gvi & Gve & Gai & Gae & Gprev & Gidx).
  cbv zeta in *. fold d in Dq, Dsort, Dvi, Dve, Dai, Dae, Dprev, Didx.
  rewrite Gq in Dq. rewrite Gsort in Dsort. rewrite Gvi in Dvi. rewrite Gve in Dve.
  rewrite Gai in Dai. rewrite Gae in Dae. rewrite Gprev in Dprev. rewrite Gidx in Didx.
  assert (Hq : q d = if Js.truthy (Js.trim (q st)) then q st else "").
  { rewrite Dq. destruct (Js.truthy (Js.trim (q st))); reflexivity. }
  split; [exact Hq|]. split; [|split; [|split; [|split; [|split; [|split; [|split]]]]]].
  - destruct (Js.truthy (Js.trim (q st))) eqn:E.
    + unfold searchTerms. rewrite Hq. reflexivity.
    + assert (Hb : Js.trim (q st) = "").
      { destruct (Js.trim (q st)); [reflexivity | discriminate E]. }
      rewrite (searchTerms_blank st Hb).
      apply (searchTerms_blank d). rewrite Hq. reflexivity.
  - rewrite Dsort. destruct (sortKey st); simpl; try reflexivity.
    destruct Hsort as [H|H]; congruence.
  - rewrite Dvi. apply parseListParam_listToParam, Hvi.
  - rewrite Dve. apply parseListParam_listToParam, Hve.
  - rewrite Dai. apply parseListParam_listToParam, Hai.
  - rewrite Dae. apply parseListParam_listToParam, Hae.
  - exact Dprev.
  - rewrite Didx.
    rewrite numberToString_truthy, parseInt_numberToString by lia.
    reflexivity.
Qed.

Lemma codec_round_trip_witness :
  Forall (fun t => isCleanToken t = true) (versionIncludes Sample.castleSearch) /\
  (sortKey Sample.castleSearch <> newest \/ sortKey (initialState 3) = newest) /\
  anchorIndex Sample.castleSearch < 2 ^ 53 /\
  q (applyParams (buildParams None Sample.castleSearch) (initialState 3)) = "castle" /\
  sortKey (applyParams (buildParams None Sample.castleSearch) (initialState 3)) = az /\
  versionIncludes (applyParams (buildParams None Sample.castleSearch) (initialState 3))
    = ["1.20"] /\
  pendingIndex (applyParams (buildParams None Sample.castleSearch) (initialState 3))
    = Some (Js.Int 42).
Proof.
  assert (H1 : Forall (fun t => isCleanToken t = true) (versionIncludes Sample.castleSearch))
    by (repeat constructor).
  assert (H0 : Forall (fun t => isCleanToken t = true) (@nil string)) by constructor.
  assert (H2 : sortKey Sample.castleSearch <> newest \/ sortKey (initialState 3) = newest)
    by (right; reflexivity).
  assert (H3 : anchorIndex Sample.castleSearch < 2 ^ 53) by (vm_compute; reflexivity).
  split; [exact H1|]. split; [exact H2|]. split; [exact H3|].
  destruct (codec_round_trip (host := Sample.host) Sample.castleSearch (initialState 3)
              H1 H0 H0 H0 H2 H3)
    as (Hq & _ & Hs & Hv & _ & _ & _ & _ & Hi).
  repeat split; assumption.
Defined.

(** The parts of the decoder that tolerate any query string: keys it does
    not know are not read, an anchor value without a leading integer becomes
    0, an unknown sort value on a freshly mounted component leaves the
    default, and the facet lists are the trimmed, non-empty pieces between
    commas. *)
Lemma decoder_tolerance :
  (forall sp sp' st,
     (forall k, In k ["q"; "sort"; "vInc"; "vExc"; "aInc"; "aExc"; "preview"; "idx"] ->
        URLSearchParams.get sp k = URLSearchParams.get sp' k) ->
     applyParams sp st = applyParams sp' st) /\
  (forall sp st v,
     URLSearchParams.get sp "idx" = Some v -> Js.truthy v = true ->
     Js.parseInt v = None ->
     pendingIndex (applyParams sp st) = Some (Js.Int 0)) /\
  (forall sp c s,
     URLSearchParams.get sp "sort" = Some s ->
     s <> "newest" -> s <> "oldest" -> s <> "az" ->
     sortKey (applyParams sp (initialState c)) = newest) /\
  (forall r t,
     In t (parseListParam (Some r)) <->
     t <> "" /\ exists piece, In piece (Js.split "," r) /\ t = Js.trim piece) /\
  parseListParam (Some " a, ,b ,,") = ["a"; "b"] /\
  parseListParam None = [] /\
  Js.parseInt "abc" = None.
Proof.
  split; [|split; [|split; [|split; [|repeat split]]]].
  - intros sp sp' st H. unfold applyParams, SCROLL_PARAM_KEY.
    rewrite (H "q"), (H "sort"), (H "vInc"), (H "vExc"), (H "aInc"), (H "aExc"),
      (H "preview"), (H "idx") by (simpl; tauto).
    reflexivity.
  - intros sp st v Hget Ht Hnan.
    destruct (applyParams_fields sp st) as (_ & _ & _ & _ & _ & _ & _ & Hidx & _).
    cbv zeta in Hidx. rewrite Hidx, Hget, Ht, Hnan. reflexivity.
  - intros sp c s Hget H1 H2 H3.
    destruct (applyParams_fields sp (initialState c)) as (_ & Hsort & _).
    cbv zeta in Hsort. rewrite Hsort, Hget.
    apply String.eqb_neq in H1, H2, H3. rewrite H1, H2, H3. reflexivity.
  - intros r t. unfold parseListParam, Js.filterTruthy, Js.truthy.
    destruct r as [|c r].
    + simpl. split; [contradiction|].
      intros [Hne [piece [[<-|[]] Ht]]]. apply Hne. exact Ht.
    + change (negb (String c r =? "")%string) with true. cbv iota.
      rewrite filter_In, in_map_iff, negb_true_iff, String.eqb_neq.
      split.
      * intros [[piece [Ht Hin]] Hne]. split; [exact Hne|]. exists piece. auto.
      * intros [Hne [piece [Hin Ht]]]. split; [|exact Hne]. exists piece. auto.
Qed.

(** The decoder writes the sort key only for one of the three key names. *)
Lemma applyParams_sort_not_reset (sp : URLSearchParams.t) (st : AppState) :
  (forall k, URLSearchParams.get sp "sort" <> Some (sortKeyName k)) ->
  sortKey (applyParams sp st) = sortKey st.
Proof.
  intros H. destruct (applyParams_fields sp st) as (_ & Hsort & _).
  cbv zeta in Hsort. rewrite Hsort.
  destruct (URLSearchParams.get sp "sort") as [s|]; [|reflexivity].
  destruct (String.eqb_spec s "newest") as [->|_]; [exact (False_ind _ (H newest eq_refl))|].
  destruct (String.eqb_spec s "oldest") as [->|_]; [exact (False_ind _ (H oldest eq_refl))|].
  destruct (String.eqb_spec s "az") as [->|_]; [exact (False_ind _ (H az eq_refl))|].
  reflexivity.
Qed.

(** C8. The decoder is total, but an unrecognized sort value does not fall
    back to the default: on a component that sorts oldest first, decoding
    [sort=bogus] leaves the key at [oldest].  The setter is skipped, where
    every other field is overwritten with its default. *)
Theorem unrecognized_sort_keeps_current_key :
  sortKey (applyParams Sample.bogusSort Sample.sortedOldest) = oldest /\
  sortKey (applyParams [("idx", "0")] Sample.sortedOldest) = oldest /\
  q (applyParams Sample.bogusSort (setQ Sample.sortedOldest "castle")) = "" /\
  versionIncludes
    (applyParams Sample.bogusSort (setVersionIncludes Sample.sortedOldest ["1.20"])) = [].
Proof. repeat split; reflexivity. Qed.

(** ** Facet counter *)

(** C3, with the facet's own exclude set ignored, fails: with an author
    excluded, the author preview set drops that author's entries, which a
    set built from the version facet and the search text alone would keep;
    likewise for an excluded version. *)
Lemma own_exclude_shrinks_preview :
  ~ (forall e,
       In e (authorPreviewList (host := Sample.host) Sample.aliceExcluded) <->
       In e (entries Sample.aliceExcluded) /\
       Reference.passesVersionFacetAndSearch (host := Sample.host) Sample.aliceExcluded e) /\
  ~ (forall e,
       In e (versionPreviewList (host := Sample.host) Sample.version120Excluded) <->
       In e (entries Sample.version120Excluded) /\
       Reference.passesAuthorFacetAndSearch (host := Sample.host)
         Sample.version120Excluded e).
Proof.
  split; intros H.
  - destruct (H (normalizeEntry (Sample.raw "Castle.litematic" "alice" "1.20" 200) 0))
      as [_ Hback].
    assert (Hin : In (normalizeEntry (Sample.raw "Castle.litematic" "alice" "1.20" 200) 0)
                    (authorPreviewList (host := Sample.host) Sample.aliceExcluded)).
    { apply Hback. split; [left; reflexivity|].
      split; [intros [Hne _]; apply Hne; reflexivity|].
      split; [intros Hne; exfalso; apply Hne; reflexivity|].
      intros t []. }
    vm_compute in Hin. destruct Hin as [Heq|[]]. discriminate Heq.
  - destruct (H (normalizeEntry (Sample.raw "Castle.litematic" "alice" "1.20" 200) 0))
      as [_ Hback].
    assert (Hin : In (normalizeEntry (Sample.raw "Castle.litematic" "alice" "1.20" 200) 0)
                    (versionPreviewList (host := Sample.host) Sample.version120Excluded)).
    { apply Hback. split; [left; reflexivity|].
      split; [intros [Hne _]; apply Hne; reflexivity|].
      split; [intros Hne; exfalso; apply Hne; reflexivity|].
      intros t []. }
    vm_compute in Hin. destruct Hin as [Heq|[]]. discriminate Heq.
Qed.

Lemma own_bump_other {host : Js.Host} (m : Counts) (k k' : string) :
  k' <> k -> own (bump m k') k = own m k.
Proof.
  intros Hne. unfold bump, assign.
  destruct (Js.inherited k'); [destruct (k' =? "__proto__")%string; [reflexivity|]|];
    simpl; apply String.eqb_neq in Hne; rewrite Hne; reflexivity.
Qed.

Lemma own_bump_same {host : Js.Host} (m : Counts) (k : string) :
  Js.inherited k = None -> own (bump m k) k = Some (increment (own m k)).
Proof.
  intros Hk. unfold bump, assign, valueOf. rewrite Hk. simpl.
  rewrite String.eqb_refl. destruct (own m k); reflexivity.
Qed.

(** The number that the counting object holds under a name. *)
Lemma countBy_from {host : Js.Host} (key : LitematicEntry -> string) (k : string)
    (l : list LitematicEntry) :
  Js.inherited k = None ->
  forall m n,
    (own m k = None /\ n = 0) \/ own m k = Some (Count n) ->
    countOrZero (fold_left (fun m e => bump m (key e)) l m) k
    = Count (n + Z.of_nat (List.length (filter (fun e => (key e =? k)%string) l))).
Proof.
  intros Hk. induction l as [|e l IH]; intros m n Hm.
  - simpl. unfold countOrZero, valueOf. rewrite Hk, Z.add_0_r.
    destruct Hm as [[-> ->] | ->]; reflexivity.
  - cbn [fold_left filter]. destruct (String.eqb_spec (key e) k) as [Heq|Hne].
    + rewrite (IH (bump m (key e)) (n + 1)).
      * cbn [List.length]. f_equal. lia.
      * right. rewrite Heq, (own_bump_same m k Hk).
        destruct Hm as [[-> ->] | ->]; reflexivity.
    + apply IH. rewrite (own_bump_other m k (key e) Hne). exact Hm.
Qed.

Lemma countBy_spec {host : Js.Host} (key : LitematicEntry -> string)
    (l : list LitematicEntry) (k : string) :
  Js.inherited k = None ->
  countOrZero (countBy key l) k
  = Count (Z.of_nat (List.length (filter (fun e => (key e =? k)%string) l))).
Proof.
  intros Hk. unfold countBy. rewrite (countBy_from key k l Hk [] 0); [reflexivity|].
  left. split; reflexivity.
Qed.

(** For an author named like a member that the counting object inherits the
    count is text, not a number: the inherited function with 1 appended. *)
Lemma inherited_name_counts_as_text :
  countOrZero (host := Sample.host)
    (countBy (host := Sample.host) author [Sample.constructorBuild]) "constructor"
  = Text "function Object() { [native code] }1".
Proof. vm_compute. reflexivity. Qed.

(** C3 (amended). The preview set of a facet is the catalog filtered by
    both facets' exclude sets, the other facet's include set and the search
    text: it is what the main filter keeps once that facet's own include
    set is emptied, and it does not depend on that include set.  The count
    shown for a value whose name the counting object does not inherit is
    the number of entries of the preview set with that value. *)
Theorem preview_lists_ignore_own_includes {host : Js.Host} (st : AppState) :
  versionPreviewList st = filterList (setVersionIncludes st []) /\
  authorPreviewList st = filterList (setAuthorIncludes st []) /\
  (forall l, versionPreviewList (setVersionIncludes st l) = versionPreviewList st) /\
  (forall l, authorPreviewList (setAuthorIncludes st l) = authorPreviewList st) /\
  (forall e, In e (versionPreviewList st) <->
             In e (entries st) /\ Reference.survives (setVersionIncludes st []) e) /\
  (forall e, In e (authorPreviewList st) <->
             In e (entries st) /\ Reference.survives (setAuthorIncludes st []) e) /\
  (forall v, Js.inherited v = None ->
             countOrZero (filteredVersionCounts st) v =
             Count (Z.of_nat (List.length
               (filter (fun e => (version e =? v)%string) (versionPreviewList st))))) /\
  (forall a, Js.inherited a = None ->
             countOrZero (filteredAuthorCounts st) a =
             Count (Z.of_nat (List.length
               (filter (fun e => (author e =? a)%string) (authorPreviewList st))))).
Proof.
  assert (Hv : versionPreviewList st = filterList (setVersionIncludes st [])).
  { unfold versionPreviewList, filterList. apply filter_ext. intros e.
    unfold filterCallback. reflexivity. }
  assert (Ha : authorPreviewList st = filterList (setAuthorIncludes st [])).
  { unfold authorPreviewList, filterList. apply filter_ext. intros e.
    unfold filterCallback. simpl.
    destruct (setAndHas _ _); [reflexivity|].
    destruct (setAndHas _ _); [reflexivity|].
    destruct (setAndLacks _ _); reflexivity. }
  split; [exact Hv|]. split; [exact Ha|].
  split; [intros l; reflexivity|]. split; [intros l; reflexivity|].
  split; [|split; [|split]].
  - intros e. rewrite Hv. unfold filterList.
    rewrite filter_In, filterCallback_iff. reflexivity.
  - intros e. rewrite Ha. unfold filterList.
    rewrite filter_In, filterCallback_iff. reflexivity.
  - intros v Hk. apply countBy_spec, Hk.
  - intros a Hk. apply countBy_spec, Hk.
Qed.

(* ================================================================== *)
(** * Further properties *)

(** ** Layout *)

(** X1. The column count is always between 1 and 4, so the row arithmetic
    of the window never divides by zero, and a wider window never has fewer
    columns. *)
Theorem getCols_range_monotone :
  (forall w, 1 <= getCols w <= 4) /\
  (forall w1 w2, w1 <= w2 -> getCols (Some w1) <= getCols (Some w2)) /\
  (forall w, getCols (Some w) = 1 <-> w < 640).
Proof.
  split; [|split].
  - intros [w|]; unfold getCols; [|lia].
    destruct (1536 <=? w), (1280 <=? w), (640 <=? w); lia.
  - intros w1 w2 H. unfold getCols.
    destruct (Z.leb_spec 1536 w1), (Z.leb_spec 1280 w1), (Z.leb_spec 640 w1),
             (Z.leb_spec 1536 w2), (Z.leb_spec 1280 w2), (Z.leb_spec 640 w2); lia.
  - intros w. unfold getCols.
    destruct (Z.leb_spec 1536 w), (Z.leb_spec 1280 w), (Z.leb_spec 640 w); lia.
Qed.

(** ** Value sets *)

Lemma uniqueFrom_In (xs : list string) :
  forall seen x, In x (uniqueFrom seen xs) <-> In x xs /\ ~ In x seen.
Proof.
  induction xs as [|y xs IH]; intros seen x; simpl; [tauto|].
  destruct (has seen y) eqn:Hy.
  - apply has_iff in Hy. rewrite IH. split.
    + intros [H1 H2]. tauto.
    + intros [[<-|H1] H2]; [contradiction | tauto].
  - assert (Hn : ~ In y seen) by (rewrite <- has_iff, Hy; discriminate).
    simpl. rewrite IH. simpl. split.
    + intros [<-|[H1 H2]]; [tauto|]. split; [tauto|]. intros H; apply H2; tauto.
    + intros [[<-|H1] H2]; [tauto|].
      destruct (string_dec y x) as [->|Hne]; [tauto|]. right. split; [exact H1|].
      intros [H|H]; [congruence | contradiction].
Qed.

Lemma uniqueFrom_NoDup (xs : list string) :
  forall seen, NoDup (uniqueFrom seen xs).
Proof.
  induction xs as [|y xs IH]; intros seen; simpl; [constructor|].
  destruct (has seen y); [apply IH|]. constructor; [|apply IH].
  rewrite uniqueFrom_In. simpl. tauto.
Qed.

Lemma uniqueFrom_fixed (xs : list string) :
  forall seen, NoDup xs -> (forall x, In x xs -> ~ In x seen) ->
  uniqueFrom seen xs = xs.
Proof.
  induction xs as [|y xs IH]; intros seen Hnd Hdis; simpl; [reflexivity|].
  inversion Hnd as [|? ? Hy Hnd']; subst.
  destruct (has seen y) eqn:E.
  - apply has_iff in E. exfalso. apply (Hdis y); simpl; tauto.
  - f_equal. apply IH; [exact Hnd'|].
    intros x Hx [<-|Hs]; [contradiction|]. apply (Hdis x); simpl; tauto.
Qed.

Lemma unique_In (xs : list string) (x : string) : In x (unique xs) <-> In x xs.
Proof. unfold unique. rewrite uniqueFrom_In. simpl. tauto. Qed.

Lemma unique_NoDup (xs : list string) : NoDup (unique xs).
Proof. apply uniqueFrom_NoDup. Qed.

(** X2. Passing a list through a set keeps exactly its values, each once,
    and a second pass changes nothing. *)
Theorem unique_set_of_values (xs : list string) :
  NoDup (unique xs) /\
  (forall x, In x (unique xs) <-> In x xs) /\
  unique (unique xs) = unique xs /\
  (List.length (unique xs) <= List.length xs)%nat.
Proof.
  assert (Hin : forall x, In x (unique xs) <-> In x xs) by apply unique_In.
  assert (Hnd : NoDup (unique xs)) by apply unique_NoDup.
  split; [exact Hnd|]. split; [exact Hin|]. split.
  - unfold unique at 1. apply uniqueFrom_fixed; [exact Hnd | intros x _ []].
  - apply NoDup_incl_length; [exact Hnd|]. intros x Hx. apply Hin, Hx.
Qed.

(** ** Version order *)

(** Rounding to a double keeps the sign. *)
Lemma roundToDouble_sign (z : Z) :
  (z < 0 -> Js.sortOrder (Some (Js.roundToDouble z)) < 0) /\
  (0 < z -> 0 < Js.sortOrder (Some (Js.roundToDouble z))).
Proof.
  unfold Js.roundToDouble.
  destruct (Z.ltb_spec (Z.abs z) (2 ^ 53)) as [Hs|Hb]; [simpl; lia|].
  set (a := Z.abs z) in *.
  set (ulp := 2 ^ (Z.log2 a - 52)).
  assert (Ha : 0 < a) by (assert (0 < 2 ^ 53) by reflexivity; lia).
  assert (Hlog : 53 <= Z.log2 a).
  { rewrite <- (Z.log2_pow2 53) by lia. apply Z.log2_le_mono. exact Hb. }
  assert (Hulp : 0 < ulp) by (apply Z.pow_pos_nonneg; lia).
  assert (Hle : ulp <= a).
  { pose proof (Z.log2_spec a Ha) as [Hlo _].
    assert (ulp <= 2 ^ Z.log2 a) by (apply Z.pow_le_mono_r; lia). lia. }
  assert (Hq : 1 <= a / ulp).
  { apply Z.div_le_lower_bound; lia. }
  set (m := (if (ulp <? 2 * (a mod ulp)) || ((2 * (a mod ulp) =? ulp) && Z.odd (a / ulp))
             then a / ulp + 1 else a / ulp) * ulp).
  assert (Hm : 0 < m).
  { subst m. destruct (_ || _); apply Z.mul_pos_pos; lia. }
  split; intros Hz.
  - replace (z <? 0) with true by (symmetry; apply Z.ltb_lt; exact Hz).
    destruct (2 ^ 1024 <=? m); simpl; [lia|].
    rewrite (Z.sgn_neg z Hz). lia.
  - replace (z <? 0) with false by (symmetry; apply Z.ltb_ge; lia).
    destruct (2 ^ 1024 <=? m); simpl; [lia|].
    rewrite (Z.sgn_pos z Hz). lia.
Qed.

Lemma roundToDouble_zero (z : Z) : Js.roundToDouble z = Js.Int 0 <-> z = 0.
Proof.
  split; [|intros ->; reflexivity].
  intros H. destruct (Z.lt_trichotomy z 0) as [Hz|[Hz|Hz]]; [|exact Hz|].
  - pose proof (proj1 (roundToDouble_sign z) Hz) as Hs. rewrite H in Hs. simpl in Hs. lia.
  - pose proof (proj2 (roundToDouble_sign z) Hz) as Hs. rewrite H in Hs. simpl in Hs. lia.
Qed.


Lemma versionLoop_step (pa pb : list Js.Num) (i n : nat) :
  versionLoop pa pb i (S n) =
    if match Js.sub (partAt pb i) (partAt pa i) with
       | Some (Js.Int z) => z =? 0
       | _ => false
       end
    then versionLoop pa pb (S i) n
    else Some (Js.sub (partAt pb i) (partAt pa i)).
Proof.
  cbn [versionLoop]. destruct (Js.sub _ _) as [[z|b]|]; try reflexivity.
  destruct z; reflexivity.
Qed.

Lemma partAt_finite (p : list Js.Num) (i : nat) :
  forallb Js.isFinite p = true -> partAt p i = Js.Int (partValue p i).
Proof.
  intros H. unfold partValue, partAt.
  destruct (nth_in_or_default i p (Js.Int 0)) as [Hin | ->]; [|reflexivity].
  rewrite forallb_forall in H. specialize (H _ Hin).
  destruct (nth i p (Js.Int 0)); [reflexivity | discriminate].
Qed.

Lemma partValue_overflow (p : list Js.Num) (i : nat) :
  (List.length p <= i)%nat -> partValue p i = 0.
Proof. intros H. unfold partValue, partAt. rewrite nth_overflow by exact H. reflexivity. Qed.

Section FiniteParts.

Variables pa pb : list Js.Num.
Hypothesis pa_finite : forallb Js.isFinite pa = true.
Hypothesis pb_finite : forallb Js.isFinite pb = true.

Lemma versionLoop_finite_step (i n : nat) :
  versionLoop pa pb i (S n) =
    if partValue pb i - partValue pa i =? 0
    then versionLoop pa pb (S i) n
    else Some (Some (Js.roundToDouble (partValue pb i - partValue pa i))).
Proof.
  rewrite versionLoop_step, (partAt_finite pa i pa_finite), (partAt_finite pb i pb_finite).
  cbn [Js.sub].
  destruct (Z.eqb_spec (partValue pb i - partValue pa i) 0) as [E|E].
  - rewrite E. reflexivity.
  - destruct (Js.roundToDouble _) as [z|b] eqn:R; [|reflexivity].
    destruct (Z.eqb_spec z 0) as [->|_]; [|reflexivity].
    apply roundToDouble_zero in R. contradiction.
Qed.

Lemma versionLoop_none :
  forall n i,
    versionLoop pa pb i n = None <->
    (forall j, (i <= j < i + n)%nat -> partValue pb j = partValue pa j).
Proof.
  induction n as [|n IH]; intros i.
  - simpl. split; [intros _ j Hj; lia | reflexivity].
  - rewrite versionLoop_finite_step.
    destruct (Z.eqb_spec (partValue pb i - partValue pa i) 0) as [E|E].
    + rewrite IH. split; intros H j Hj.
      * destruct (Nat.eq_dec j i) as [->|Hne]; [lia | apply H; lia].
      * apply H; lia.
    + split; [discriminate|]. intros H. exfalso. apply E.
      rewrite (H i) by lia. lia.
Qed.

Lemma versionLoop_some :
  forall n i d,
    versionLoop pa pb i n = Some d ->
    exists k, (i <= k < i + n)%nat /\
      (forall j, (i <= j < k)%nat -> partValue pb j = partValue pa j) /\
      d = Some (Js.roundToDouble (partValue pb k - partValue pa k)) /\
      partValue pb k <> partValue pa k.
Proof.
  induction n as [|n IH]; intros i d; [discriminate|].
  rewrite versionLoop_finite_step.
  destruct (Z.eqb_spec (partValue pb i - partValue pa i) 0) as [E|E].
  - intros H. destruct (IH _ _ H) as [k [Hk [Heq [Hd Hnz]]]].
    exists k. split; [lia|]. split; [|tauto].
    intros j Hj. destruct (Nat.eq_dec j i) as [->|Hne]; [lia | apply Heq; lia].
  - intros [= <-]. exists i. split; [lia|]. split; [intros j Hj; lia|].
    split; [reflexivity | lia].
Qed.

End FiniteParts.

(** How two versions with finite parts compare: by the first position at
    which their zero-padded parts differ, else by the collation. *)
Lemma versionOrder_cases (lc : string -> string -> Z) (a b : string) :
  finiteVersion a = true -> finiteVersion b = true ->
  let pa := versionParts a in
  let pb := versionParts b in
  (exists k,
     (forall j, (j < k)%nat -> partValue pa j = partValue pb j) /\
     partValue pb k < partValue pa k /\ versionOrder lc a b < 0) \/
  (exists k,
     (forall j, (j < k)%nat -> partValue pa j = partValue pb j) /\
     partValue pa k < partValue pb k /\ 0 < versionOrder lc a b) \/
  ((forall j, partValue pa j = partValue pb j) /\ versionOrder lc a b = lc b a).
Proof.
  intros Ha Hb pa pb. unfold versionOrder, compareVersionsDesc, finiteVersion in *.
  fold pa pb in Ha, Hb |- *.
  set (len := Nat.max (List.length pa) (List.length pb)).
  destruct (versionLoop pa pb 0 len) as [d|] eqn:E.
  - destruct (versionLoop_some pa pb Ha Hb _ _ _ E) as [k [Hk [Heq [-> Hnz]]]].
    assert (Hpre : forall j, (j < k)%nat -> partValue pa j = partValue pb j)
      by (intros j Hj; symmetry; apply Heq; lia).
    destruct (Z.lt_trichotomy (partValue pb k) (partValue pa k)) as [H|[H|H]];
      [left | congruence | right; left]; exists k; (split; [exact Hpre|]);
      (split; [exact H|]).
    + apply roundToDouble_sign. lia.
    + apply roundToDouble_sign. lia.
  - right. right. split; [|reflexivity].
    pose proof (proj1 (versionLoop_none pa pb Ha Hb _ _) E) as Hnone.
    intros j. destruct (Nat.lt_ge_cases j len) as [H|H].
    + symmetry. apply Hnone. lia.
    + rewrite !partValue_overflow by lia. reflexivity.
Qed.

Lemma versionOrder_le (lc : string -> string -> Z) (a b : string) :
  finiteVersion a = true -> finiteVersion b = true ->
  (versionOrder lc a b <= 0 <->
   (exists k,
      (forall j, (j < k)%nat ->
         partValue (versionParts a) j = partValue (versionParts b) j) /\
      partValue (versionParts b) k < partValue (versionParts a) k) \/
   ((forall j, partValue (versionParts a) j = partValue (versionParts b) j) /\
    lc b a <= 0)).
Proof.
  intros Ha Hb.
  destruct (versionOrder_cases lc a b Ha Hb)
    as [[k [Heq [Hlt Ho]]] | [[k [Heq [Hlt Ho]]] | [Hall Ho]]]; split.
  - intros _. left. exists k. auto.
  - intros _. lia.
  - intros H. lia.
  - intros [[k' [Heq' Hlt']] | [Hall _]].
    + destruct (Nat.lt_trichotomy k k') as [H|[H|H]].
      * specialize (Heq' k H). lia.
      * subst k'. lia.
      * specialize (Heq k' H). lia.
    + specialize (Hall k). lia.
  - intros H. right. split; [exact Hall | lia].
  - intros [[k [_ Hlt]] | [_ Hle]]; [specialize (Hall k); lia | lia].
Qed.

Lemma versionOrder_total (lc : string -> string -> Z) :
  (forall a b, 0 < lc a b -> lc b a <= 0) ->
  forall a b, finiteVersion a = true -> finiteVersion b = true ->
    0 < versionOrder lc a b -> versionOrder lc b a <= 0.
Proof.
  intros Htot a b Ha Hb Hpos. apply (versionOrder_le lc b a Hb Ha).
  destruct (versionOrder_cases lc a b Ha Hb)
    as [[k [Heq [Hlt Ho]]] | [[k [Heq [Hlt Ho]]] | [Hall Ho]]].
  - lia.
  - left. exists k. split; [intros j Hj; symmetry; apply Heq, Hj | exact Hlt].
  - right. split; [intros j; symmetry; apply Hall|]. apply Htot. lia.
Qed.

Lemma versionOrder_trans (lc : string -> string -> Z) :
  (forall a b c, lc a b <= 0 -> lc b c <= 0 -> lc a c <= 0) ->
  forall a b c,
    finiteVersion a = true -> finiteVersion b = true -> finiteVersion c = true ->
    versionOrder lc a b <= 0 -> versionOrder lc b c <= 0 -> versionOrder lc a c <= 0.
Proof.
  intros Htr a b c Ha Hb Hc.
  rewrite (versionOrder_le lc a b Ha Hb), (versionOrder_le lc b c Hb Hc),
    (versionOrder_le lc a c Ha Hc).
  intros [[k1 [E1 L1]] | [E1 L1]] [[k2 [E2 L2]] | [E2 L2]].
  - left. destruct (Nat.lt_trichotomy k1 k2) as [H|[H|H]].
    + exists k1. split; [intros j Hj; rewrite E1, E2 by lia; reflexivity|].
      rewrite <- (E2 k1 H). exact L1.
    + subst k2. exists k1. split; [intros j Hj; rewrite E1, E2 by lia; reflexivity | lia].
    + exists k2. split; [intros j Hj; rewrite E1, E2 by lia; reflexivity|].
      rewrite (E1 k2 H). exact L2.
  - left. exists k1. split; [intros j Hj; rewrite E1 by lia; apply E2|].
    rewrite <- E2. exact L1.
  - left. exists k2. split; [intros j Hj; rewrite E1; apply E2, Hj|].
    rewrite E1. exact L2.
  - right. split; [intros j; rewrite E1; apply E2|].
    apply Htr with b; assumption.
Qed.

(** Sorting a list whose members all satisfy [P] needs the comparator to be
    a total preorder on [P] only. *)
Section SortOn.
Context {A : Type}.
Variable cmp : A -> A -> Z.
Variable P : A -> Prop.
Hypothesis cmp_total : forall a b, P a -> P b -> 0 < cmp a b -> cmp b a <= 0.
Hypothesis cmp_trans :
  forall a b c, P a -> P b -> P c -> cmp a b <= 0 -> cmp b c <= 0 -> cmp a c <= 0.

Lemma sortInsert_sorted_on (x : A) (l : list A) :
  P x -> Forall P l ->
  StronglySorted (fun a b => cmp a b <= 0) l ->
  StronglySorted (fun a b => cmp a b <= 0) (sortInsert cmp x l).
Proof.
  intros Hx HP Hs. induction Hs as [|y l Hs IH Hall]; simpl.
  - constructor; constructor.
  - inversion HP as [|? ? Hy HPl]; subst.
    destruct (Z.leb_spec (cmp x y) 0) as [Hle|Hgt].
    + constructor; [constructor; assumption|].
      constructor; [exact Hle|].
      rewrite Forall_forall in *. intros z Hz.
      apply cmp_trans with y; auto.
    + constructor; [apply IH, HPl|].
      rewrite Forall_forall in *. intros z Hz.
      apply (Permutation_in _ (sortInsert_perm cmp x l)) in Hz.
      destruct Hz as [<-|Hz]; [apply cmp_total; assumption | apply Hall, Hz].
Qed.

Lemma jsSort_sorted_on (l : list A) :
  Forall P l -> StronglySorted (fun a b => cmp a b <= 0) (jsSort cmp l).
Proof.
  induction 1 as [|x l Hx HP IH]; simpl; [constructor|].
  apply sortInsert_sorted_on; [exact Hx | | exact IH].
  rewrite Forall_forall in *. intros z Hz. apply HP.
  apply (Permutation_in _ (jsSort_perm cmp l)), Hz.
Qed.

End SortOn.




(** X4. The version list of the filter panel holds every version of the
    catalog exactly once, and the author list every author exactly once, in
    collation order.  When every version of the catalog has finite parts,
    the version list is ordered by the version comparison. *)
Theorem available_values_sorted_sets (lc : string -> string -> Z) (st : AppState) :
  (forall a b, 0 < lc a b -> lc b a <= 0) ->
  (forall a b c, lc a b <= 0 -> lc b c <= 0 -> lc a c <= 0) ->
  NoDup (availableVersions lc st) /\
  (forall v, In v (availableVersions lc st) <-> exists e, In e (entries st) /\ version e = v) /\
  ((forall e, In e (entries st) -> finiteVersion (version e) = true) ->
   StronglySorted (fun a b => versionOrder lc a b <= 0) (availableVersions lc st)) /\
  NoDup (availableAuthors lc st) /\
  (forall a, In a (availableAuthors lc st) <-> exists e, In e (entries st) /\ author e = a) /\
  StronglySorted (fun a b => lc a b <= 0) (availableAuthors lc st).
Proof.
  intros Htot Htr. unfold availableVersions, availableAuthors.
  split; [|split; [|split; [|split; [|split]]]].
  - eapply Permutation_NoDup; [symmetry; apply jsSort_perm | apply unique_NoDup].
  - intros v. rewrite jsSort_In, unique_In, in_map_iff. split.
    + intros [e [He Hin]]. exists e. tauto.
    + intros [e [Hin He]]. exists e. tauto.
  - intros Hfin.
    apply (jsSort_sorted_on (versionOrder lc) (fun v => finiteVersion v = true)).
    + intros a b Ha Hb. apply versionOrder_total; assumption.
    + intros a b c Ha Hb Hc. apply versionOrder_trans; assumption.
    + apply Forall_forall. intros v Hv. apply unique_In, in_map_iff in Hv.
      destruct Hv as [e [<- Hin]]. apply Hfin, Hin.
  - eapply Permutation_NoDup; [symmetry; apply jsSort_perm | apply unique_NoDup].
  - intros a. rewrite jsSort_In, unique_In, in_map_iff. split.
    + intros [e [He Hin]]. exists e. tauto.
    + intros [e [Hin He]]. exists e. tauto.
  - apply jsSort_sorted; assumption.
Qed.

Lemma available_values_sorted_sets_witness :
  (forall a b, 0 < asciiCollate a b -> asciiCollate b a <= 0) /\
  (forall a b c, asciiCollate a b <= 0 -> asciiCollate b c <= 0 -> asciiCollate a c <= 0) /\
  NoDup (availableVersions asciiCollate (setEntries (initialState 3) Sample.catalog)) /\
  StronglySorted (fun a b => versionOrder asciiCollate a b <= 0)
    (availableVersions asciiCollate (setEntries (initialState 3) Sample.catalog)).
Proof.
  split; [exact asciiCollate_total|]. split; [exact asciiCollate_trans|].
  destruct (available_values_sorted_sets asciiCollate
              (setEntries (initialState 3) Sample.catalog)
              asciiCollate_total asciiCollate_trans) as (H1 & _ & H3 & _).
  split; [exact H1|]. apply H3.
  intros e [<-|[<-|[]]]; vm_compute; reflexivity.
Defined.

(** ** Option lists *)

(** Every entry is counted under exactly one of the names of a duplicate-free
    list that holds the names of all of them. *)
Lemma filter_count_sum (key : LitematicEntry -> string) (l : list LitematicEntry) :
  forall ks, NoDup ks -> (forall e, In e l -> In (key e) ks) ->
  fold_right Z.add 0
    (map (fun k => Z.of_nat (List.length (filter (fun e => (key e =? k)%string) l))) ks)
  = Z.of_nat (List.length l).
Proof.
  induction l as [|e l IH]; intros ks Hnd Hin.
  - simpl. induction ks as [|k ks IHk]; [reflexivity|].
    simpl. inversion Hnd; subst. rewrite IHk; [reflexivity | assumption | intros e []].
  - assert (Hone : forall ks', NoDup ks' ->
              fold_right Z.add 0
                (map (fun k => Z.of_nat (List.length
                        (filter (fun e' => (key e' =? k)%string) (e :: l)))) ks')
              = (if in_dec string_dec (key e) ks' then 1 else 0)
                + fold_right Z.add 0
                    (map (fun k => Z.of_nat (List.length
                            (filter (fun e' => (key e' =? k)%string) l))) ks')).
    { induction ks' as [|k ks' IHk]; intros Hnd'; [reflexivity|].
      inversion Hnd' as [|? ? Hk Hnd'']; subst.
      cbn [map fold_right]. rewrite (IHk Hnd''). cbn [filter].
      destruct (String.eqb_spec (key e) k) as [->|Hne].
      - destruct (in_dec string_dec k (k :: ks')) as [_|Hn];
          [|exfalso; apply Hn; left; reflexivity].
        destruct (in_dec string_dec k ks'); [contradiction|].
        cbn [List.length]. lia.
      - destruct (in_dec string_dec (key e) (k :: ks')) as [[H|H]|Hn].
        + congruence.
        + destruct (in_dec string_dec (key e) ks'); [lia | contradiction].
        + destruct (in_dec string_dec (key e) ks') as [H|_];
            [exfalso; apply Hn; right; exact H | lia]. }
    rewrite (Hone ks Hnd), (IH ks Hnd) by (intros x Hx; apply Hin; right; exact Hx).
    destruct (in_dec string_dec (key e) ks) as [_|Hn];
      [cbn [List.length]; lia | exfalso; apply Hn, Hin; left; reflexivity].
Qed.

(** An option whose count is a number. *)
Lemma compareOptions_counted (lc : string -> string -> Z) (a b : Option) (x y : Z) :
  count a = Some (Count x) -> count b = Some (Count y) ->
  compareOptions lc a b = if y - x =? 0 then lc (value a) (value b) else y - x.
Proof. intros Ha Hb. unfold compareOptions. rewrite Ha, Hb. reflexivity. Qed.

Lemma optionCount_counted (a : Option) (x : Z) :
  count a = Some (Count x) -> optionCount a = x.
Proof. intros Ha. unfold optionCount. rewrite Ha. reflexivity. Qed.

Lemma compareOptions_total (lc : string -> string -> Z) :
  (forall a b, 0 < lc a b -> lc b a <= 0) ->
  forall a b,
    (exists x, count a = Some (Count x)) -> (exists y, count b = Some (Count y)) ->
    0 < compareOptions lc a b -> compareOptions lc b a <= 0.
Proof.
  intros Htot a b [x Ha] [y Hb].
  rewrite (compareOptions_counted lc a b x y Ha Hb), (compareOptions_counted lc b a y x Hb Ha).
  destruct (Z.eqb_spec (y - x) 0); destruct (Z.eqb_spec (x - y) 0); try lia. apply Htot.
Qed.

Lemma compareOptions_trans (lc : string -> string -> Z) :
  (forall a b c, lc a b <= 0 -> lc b c <= 0 -> lc a c <= 0) ->
  forall a b c,
    (exists x, count a = Some (Count x)) -> (exists y, count b = Some (Count y)) ->
    (exists z, count c = Some (Count z)) ->
    compareOptions lc a b <= 0 -> compareOptions lc b c <= 0 ->
    compareOptions lc a c <= 0.
Proof.
  intros Htr a b c [x Ha] [y Hb] [z Hc].
  rewrite (compareOptions_counted lc a b x y Ha Hb), (compareOptions_counted lc b c y z Hb Hc),
    (compareOptions_counted lc a c x z Ha Hc).
  destruct (Z.eqb_spec (y - x) 0); destruct (Z.eqb_spec (z - y) 0);
    destruct (Z.eqb_spec (z - x) 0); try lia. apply Htr.
Qed.

Lemma fold_add_perm (l l' : list Z) :
  Permutation l l' -> fold_right Z.add 0 l = fold_right Z.add 0 l'.
Proof. induction 1; simpl; lia. Qed.

Lemma StronglySorted_impl_on {A : Type} (P : A -> Prop) (R R' : A -> A -> Prop)
    (l : list A) :
  (forall a b, P a -> P b -> R a b -> R' a b) ->
  Forall P l -> StronglySorted R l -> StronglySorted R' l.
Proof.
  intros HR HP Hs. induction Hs as [|x l Hs IH Hall]; constructor.
  - apply IH. inversion HP; assumption.
  - inversion HP as [|? ? Hx HPl]; subst.
    rewrite Forall_forall in *. intros b Hb. apply HR; auto.
Qed.

(** The options built from a duplicate-free list of names that the counting
    object does not inherit. *)
Lemma options_of_counts {host : Js.Host} (lc : string -> string -> Z)
    (key : LitematicEntry -> string) (l : list LitematicEntry) (names : list string) :
  (forall a b, 0 < lc a b -> lc b a <= 0) ->
  (forall a b c, lc a b <= 0 -> lc b c <= 0 -> lc a c <= 0) ->
  NoDup names ->
  (forall k, In k names -> Js.inherited k = None) ->
  (forall e, In e l -> In (key e) names) ->
  let options :=
    jsSort (compareOptions lc)
      (map (fun k => mkOption k (Some (countOrZero (countBy key l) k))) names) in
  Permutation (map value options) names /\
  (forall o, In o options ->
     count o = Some (Count (Z.of_nat (List.length
       (filter (fun e => (key e =? value o)%string) l))))) /\
  fold_right Z.add 0 (map optionCount options) = Z.of_nat (List.length l) /\
  StronglySorted (fun a b => optionCount b <= optionCount a) options.
Proof.
  intros Htot Htr Hnd Hown Hkeys options.
  assert (Hcount : forall o, In o options ->
            count o = Some (Count (Z.of_nat (List.length
              (filter (fun e => (key e =? value o)%string) l))))).
  { intros o Ho. apply jsSort_In, in_map_iff in Ho. destruct Ho as [k [<- Hk]].
    simpl. rewrite (countBy_spec key l k (Hown k Hk)). reflexivity. }
  assert (Hnum : Forall (fun o => exists x, count o = Some (Count x)) options).
  { apply Forall_forall. intros o Ho. eexists. apply Hcount, Ho. }
  split; [|split; [exact Hcount|split]].
  - unfold options. rewrite jsSort_perm, map_map. simpl. rewrite map_id. reflexivity.
  - unfold options.
    rewrite (fold_add_perm _ _ (Permutation_map _ (jsSort_perm _ _))), map_map.
    rewrite <- (filter_count_sum key l names Hnd Hkeys). f_equal.
    apply map_ext_in. intros k Hk. unfold optionCount. simpl.
    rewrite (countBy_spec key l k (Hown k Hk)). reflexivity.
  - apply (StronglySorted_impl_on (fun o => exists x, count o = Some (Count x))
             (fun a b => compareOptions lc a b <= 0)); [|exact Hnum|].
    + intros a b [x Ha] [y Hb].
      rewrite (compareOptions_counted lc a b x y Ha Hb),
        (optionCount_counted a x Ha), (optionCount_counted b y Hb).
      destruct (Z.eqb_spec (y - x) 0); lia.
    + apply (jsSort_sorted_on (compareOptions lc)
               (fun o => exists x, count o = Some (Count x))).
      * apply compareOptions_total, Htot.
      * apply compareOptions_trans, Htr.
      * apply Forall_forall. intros o Ho.
        rewrite Forall_forall in Hnum. apply Hnum, jsSort_In, Ho.
Qed.

(** X5. On a catalog none of whose versions and authors is a name that an
    empty object inherits, the version options offer every catalog version
    exactly once, each with the number of entries of the version preview
    list that have it; the counts add up to the size of that list, and the
    options are ordered by count, largest first.  The author options do the
    same with the author preview list. *)
Theorem options_count_the_preview_lists {host : Js.Host}
    (lc : string -> string -> Z) (st : AppState) :
  (forall a b, 0 < lc a b -> lc b a <= 0) ->
  (forall a b c, lc a b <= 0 -> lc b c <= 0 -> lc a c <= 0) ->
  (forall e, In e (entries st) ->
     Js.inherited (version e) = None /\ Js.inherited (author e) = None) ->
  Permutation (map value (versionOptions lc st)) (availableVersions lc st) /\
  (forall o, In o (versionOptions lc st) ->
     count o = Some (Count (Z.of_nat (List.length
       (filter (fun e => (version e =? value o)%string) (versionPreviewList st)))))) /\
  fold_right Z.add 0 (map optionCount (versionOptions lc st))
    = Z.of_nat (List.length (versionPreviewList st)) /\
  StronglySorted (fun a b => optionCount b <= optionCount a) (versionOptions lc st) /\
  Permutation (map value (authorOptions lc st)) (availableAuthors lc st) /\
  (forall o, In o (authorOptions lc st) ->
     count o = Some (Count (Z.of_nat (List.length
       (filter (fun e => (author e =? value o)%string) (authorPreviewList st)))))) /\
  fold_right Z.add 0 (map optionCount (authorOptions lc st))
    = Z.of_nat (List.length (authorPreviewList st)) /\
  StronglySorted (fun a b => optionCount b <= optionCount a) (authorOptions lc st).
Proof.
  intros Htot Htr Hown.
  assert (Hv : forall k, In k (availableVersions lc st) ->
                 exists e, In e (entries st) /\ version e = k).
  { intros k Hk. unfold availableVersions in Hk.
    apply jsSort_In, unique_In, in_map_iff in Hk.
    destruct Hk as [e [He Hin]]. exists e. tauto. }
  assert (Ha : forall k, In k (availableAuthors lc st) ->
                 exists e, In e (entries st) /\ author e = k).
  { intros k Hk. unfold availableAuthors in Hk.
    apply jsSort_In, unique_In, in_map_iff in Hk.
    destruct Hk as [e [He Hin]]. exists e. tauto. }
  destruct (options_of_counts lc version (versionPreviewList st) (availableVersions lc st)
              Htot Htr) as (V1 & V2 & V3 & V4).
  { unfold availableVersions.
    eapply Permutation_NoDup; [symmetry; apply jsSort_perm | apply unique_NoDup]. }
  { intros k Hk. destruct (Hv k Hk) as [e [Hin <-]]. apply Hown, Hin. }
  { intros e He. unfold availableVersions. apply jsSort_In, unique_In, in_map.
    unfold versionPreviewList in He. apply filter_In in He. tauto. }
  destruct (options_of_counts lc author (authorPreviewList st) (availableAuthors lc st)
              Htot Htr) as (A1 & A2 & A3 & A4).
  { unfold availableAuthors.
    eapply Permutation_NoDup; [symmetry; apply jsSort_perm | apply unique_NoDup]. }
  { intros k Hk. destruct (Ha k Hk) as [e [Hin <-]]. apply Hown, Hin. }
  { intros e He. unfold availableAuthors. apply jsSort_In, unique_In, in_map.
    unfold authorPreviewList in He. apply filter_In in He. tauto. }
  repeat split; assumption.
Qed.

Lemma options_count_the_preview_lists_witness :
  (forall a b, 0 < asciiCollate a b -> asciiCollate b a <= 0) /\
  (forall a b c, asciiCollate a b <= 0 -> asciiCollate b c <= 0 -> asciiCollate a c <= 0) /\
  (forall e, In e (entries Sample.aliceExcluded) ->
     Js.inherited (Host := Sample.host) (version e) = None /\
     Js.inherited (Host := Sample.host) (author e) = None) /\
  fold_right Z.add 0
    (map optionCount (versionOptions (host := Sample.host) asciiCollate Sample.aliceExcluded))
  = Z.of_nat (List.length (versionPreviewList (host := Sample.host) Sample.aliceExcluded)).
Proof.
  assert (H : forall e, In e (entries Sample.aliceExcluded) ->
     Js.inherited (Host := Sample.host) (version e) = None /\
     Js.inherited (Host := Sample.host) (author e) = None).
  { intros e [<-|[<-|[]]]; split; vm_compute; reflexivity. }
  split; [exact asciiCollate_total|]. split; [exact asciiCollate_trans|].
  split; [exact H|].
  destruct (options_count_the_preview_lists (host := Sample.host) asciiCollate
              Sample.aliceExcluded asciiCollate_total asciiCollate_trans H)
    as (_ & _ & H3 & _).
  exact H3.
Defined.

(** ** Autocomplete and chips *)

Lemma slice_first (A : Type) (xs : list A) (n : nat) :
  slice xs 0 (Z.of_nat n) = firstn n xs.
Proof.
  unfold slice. simpl (0 <? 0).
  replace (Z.of_nat n <? 0) with false by (symmetry; apply Z.ltb_ge; lia).
  replace (Z.min 0 (Z.of_nat (List.length xs))) with 0 by lia.
  simpl skipn. rewrite Z.sub_0_r.
  destruct (Nat.le_ge_cases n (List.length xs)) as [H|H].
  - f_equal. lia.
  - rewrite (firstn_all2 xs H).
    apply firstn_all2. lia.
Qed.

Lemma firstn_incl (A : Type) (n : nat) (l : list A) (x : A) :
  In x (firstn n l) -> In x l.
Proof.
  intros H. rewrite <- (firstn_skipn n l). apply in_or_app. left. exact H.
Qed.

Lemma autocomplete_offers_sound {host : Js.Host} (options : list Option)
    (query : string) (selected : list string) (o : Option) :
  In o (AutocompleteBox.filtered options query selected) ->
  In o options /\ ~ In (value o) selected.
Proof.
  unfold AutocompleteBox.filtered.
  change (slice ?l 0 20) with (slice l 0 (Z.of_nat 20)).
  rewrite slice_first. intros H. apply firstn_incl, filter_In in H.
  destruct H as [Hin Hc]. apply andb_true_iff in Hc. destruct Hc as [Hc _].
  split; [exact Hin|]. apply negb_true_iff in Hc.
  rewrite <- has_iff, Hc. discriminate.
Qed.

(** X6. The autocomplete offers at most twenty options, all taken from the
    option list, none of them selected already, each holding the typed text
    once both are lower-cased; an option that qualifies is left out only
    when twenty others are shown. *)
Theorem autocomplete_offers {host : Js.Host} (options : list Option) (query : string)
    (selected : list string) :
  (List.length (AutocompleteBox.filtered options query selected) <= 20)%nat /\
  (forall o, In o (AutocompleteBox.filtered options query selected) ->
     In o options /\ ~ In (value o) selected /\
     Reference.containsIgnoringCase query (value o)) /\
  (forall o, In o options -> ~ In (value o) selected ->
     Reference.containsIgnoringCase query (value o) ->
     In o (AutocompleteBox.filtered options query selected) \/
     List.length (AutocompleteBox.filtered options query selected) = 20%nat).
Proof.
  unfold AutocompleteBox.filtered.
  set (cand := fun opt : Option =>
    negb (has selected (value opt)) &&
    (negb (Js.truthy (Js.toLowerCase query))
     || Js.includes (Js.toLowerCase (value opt)) (Js.toLowerCase query))).
  change (slice (filter cand options) 0 20)
    with (slice (filter cand options) 0 (Z.of_nat 20)).
  rewrite (slice_first _ (filter cand options) 20).
  assert (Hcand : forall o, cand o = true <->
            ~ In (value o) selected /\ Reference.containsIgnoringCase query (value o)).
  { intros o. unfold cand, Reference.containsIgnoringCase.
    rewrite andb_true_iff, orb_true_iff, !negb_true_iff, includes_iff.
    rewrite <- (has_iff selected (value o)).
    assert (Hq : Js.truthy (Js.toLowerCase query) = false ->
                 exists a b, Js.toLowerCase (value o)
                             = (a ++ Js.toLowerCase query ++ b)%string).
    { intros H. destruct (Js.toLowerCase query); [|discriminate H].
      exists "", (Js.toLowerCase (value o)). reflexivity. }
    destruct (has selected (value o)); intuition congruence. }
  split; [apply firstn_le_length|]. split.
  - intros o Ho. apply firstn_incl in Ho.
    apply filter_In in Ho. destruct Ho as [Hin Hc]. apply Hcand in Hc. tauto.
  - intros o Hin Hsel Hq.
    assert (Ho : In o (filter cand options)) by (apply filter_In; split; [|apply Hcand]; tauto).
    destruct (Nat.le_ge_cases (List.length (filter cand options)) 20) as [H|H].
    + left. rewrite firstn_all2 by exact H. exact Ho.
    + right. apply firstn_length_le, H.
Qed.

Lemma onRemove_In (prev : list string) (v x : string) :
  In x (AutocompleteBox.onRemove prev v) <-> In x prev /\ x <> v.
Proof.
  unfold AutocompleteBox.onRemove.
  rewrite filter_In, negb_true_iff, String.eqb_neq. reflexivity.
Qed.

(** X7. Removing a chip deletes that value and no other; removing a value
    right after adding it restores the list; and adding a value the
    autocomplete offers keeps the selection free of duplicates. *)
Theorem chips_add_remove {host : Js.Host} (prev : list string) (v : string) :
  ~ In v (AutocompleteBox.onRemove prev v) /\
  (forall x, x <> v -> (In x (AutocompleteBox.onRemove prev v) <-> In x prev)) /\
  (~ In v prev ->
   AutocompleteBox.onRemove (AutocompleteBox.onAdd prev v) v = prev) /\
  (forall options query o,
     NoDup prev ->
     In o (AutocompleteBox.filtered options query prev) ->
     NoDup (AutocompleteBox.onAdd prev (value o))).
Proof.
  split; [|split; [|split]].
  - rewrite onRemove_In. tauto.
  - intros x Hx. rewrite onRemove_In. tauto.
  - intros Hv. unfold AutocompleteBox.onRemove, AutocompleteBox.onAdd.
    rewrite filter_app. simpl. rewrite String.eqb_refl. simpl.
    rewrite app_nil_r. induction prev as [|x prev IH]; [reflexivity|].
    simpl. destruct (String.eqb_spec x v) as [->|Hne].
    + exfalso. apply Hv. left. reflexivity.
    + simpl. f_equal. apply IH. intros H. apply Hv. right. exact H.
  - intros options query o Hnd Ho.
    destruct (autocomplete_offers_sound options query prev o Ho) as [_ Hsel].
    unfold AutocompleteBox.onAdd. apply NoDup_app; [exact Hnd | repeat constructor; intros [] |].
    intros x Hx [<-|[]]. contradiction.
Qed.

(** ** Filters and the view *)

Lemma hasFilters_false (st : AppState) :
  hasFilters st = false ->
  Js.trim (q st) = "" /\
  versionIncludes st = [] /\ versionExcludes st = [] /\
  authorIncludes st = [] /\ authorExcludes st = [].
Proof.
  unfold hasFilters. rewrite !orb_false_iff, !Nat.ltb_ge.
  intros ((((Hq & H1) & H2) & H3) & H4).
  split.
  - destruct (Js.trim (q st)); [reflexivity | simpl in Hq; lia].
  - repeat split;
      match goal with |- ?l = [] => destruct l; [reflexivity | simpl in *; lia] end.
Qed.

Lemma no_filters_filterList {host : Js.Host} (st : AppState) :
  hasFilters st = false -> filterList st = entries st.
Proof.
  intros H. destruct (hasFilters_false st H) as (Hq & Hvi & Hve & Hai & Hae).
  apply filterList_unconstrained; assumption.
Qed.

(** X8. Whenever no filter is active the view holds the whole catalog, each
    entry once per occurrence; the reset button leads to such a state and
    touches nothing but the search text and the four facet lists. *)
Theorem no_filters_whole_catalog {host : Js.Host} (localeCompare : string -> string -> Z) :
  (forall st, hasFilters st = false ->
     filterList st = entries st /\
     Permutation (filtered localeCompare st) (entries st)) /\
  (forall st,
     hasFilters (clearFilters st) = false /\
     Permutation (filtered localeCompare (clearFilters st)) (entries st) /\
     sortKey (clearFilters st) = sortKey st /\
     preview (clearFilters st) = preview st /\
     windowStart (clearFilters st) = windowStart st /\
     anchorIndex (clearFilters st) = anchorIndex st).
Proof.
  split.
  - intros st H. split; [apply no_filters_filterList, H|].
    unfold filtered. rewrite jsSort_perm, (no_filters_filterList st H). reflexivity.
  - intros st. assert (H : hasFilters (clearFilters st) = false) by reflexivity.
    split; [exact H|]. split; [|repeat split].
    unfold filtered. rewrite jsSort_perm, (no_filters_filterList _ H). reflexivity.
Qed.

Lemma filterList_In {host : Js.Host} (st : AppState) (e : LitematicEntry) :
  In e (filterList st) <-> In e (entries st) /\ Reference.survives st e.
Proof. unfold filterList. rewrite filter_In, filterCallback_iff. reflexivity. Qed.

(** X9. Adding a value to an exclude list removes from the view exactly the
    entries with that value; removing a value from an exclude list loses no
    entry of the view; picking the first value of an include list keeps
    exactly the entries with that value. *)
Theorem facet_edits_change_view {host : Js.Host} (st : AppState) (v : string)
    (e : LitematicEntry) :
  (In e (filterList (setVersionExcludes st (AutocompleteBox.onAdd (versionExcludes st) v)))
   <-> In e (filterList st) /\ version e <> v) /\
  (In e (filterList (setAuthorExcludes st (AutocompleteBox.onAdd (authorExcludes st) v)))
   <-> In e (filterList st) /\ author e <> v) /\
  (In e (filterList st) ->
   In e (filterList (setVersionExcludes st (AutocompleteBox.onRemove (versionExcludes st) v)))) /\
  (In e (filterList st) ->
   In e (filterList (setAuthorExcludes st (AutocompleteBox.onRemove (authorExcludes st) v)))) /\
  (versionIncludes st = [] ->
   (In e (filterList (setVersionIncludes st (AutocompleteBox.onAdd (versionIncludes st) v)))
    <-> In e (filterList st) /\ version e = v)) /\
  (authorIncludes st = [] ->
   (In e (filterList (setAuthorIncludes st (AutocompleteBox.onAdd (authorIncludes st) v)))
    <-> In e (filterList st) /\ author e = v)).
Proof.
  rewrite !filterList_In. unfold Reference.survives, AutocompleteBox.onAdd.
  cbn [entries versionExcludes versionIncludes authorExcludes authorIncludes q
       setVersionExcludes setAuthorExcludes setVersionIncludes setAuthorIncludes].
  assert (Happ : forall (l : list string) x, In x (l ++ [v]) <-> In x l \/ x = v).
  { intros l x. rewrite in_app_iff. simpl. intuition congruence. }
  assert (Hne : forall l : list string, (l ++ [v])%list <> []).
  { intros [|? ?]; discriminate. }
  assert (Hin : forall (l : list string) x, In x l -> l <> []).
  { intros l x H ->. destruct H. }
  pose proof (Hin (versionExcludes st) (version e)) as I1.
  pose proof (Hin (authorExcludes st) (author e)) as I2.
  split; [|split; [|split; [|split; [|split]]]].
  - rewrite Happ. pose proof (Hne (versionExcludes st)).
    destruct (string_dec (version e) v); intuition.
  - rewrite Happ. pose proof (Hne (authorExcludes st)).
    destruct (string_dec (author e) v); intuition.
  - rewrite onRemove_In. intuition.
  - rewrite onRemove_In. intuition.
  - intros Hv. rewrite Hv. simpl. intuition congruence.
  - intros Ha. rewrite Ha. simpl. intuition congruence.
Qed.

(** ** Search text *)

Lemma matchesSearch_app {host : Js.Host} (e : LitematicEntry) (t1 t2 : list string) :
  matchesSearch e (t1 ++ t2) = matchesSearch e t1 && matchesSearch e t2.
Proof.
  assert (H : forall l, matchesSearch e l = forallb (fun t => Js.includes (haystack e) t) l).
  { intros [|? ?]; reflexivity. }
  rewrite !H. apply forallb_app.
Qed.

Lemma filterCallback_setQ {host : Js.Host} (st : AppState) (query : string)
    (e : LitematicEntry) :
  filterCallback (setQ st query) e
  = filterCallback (setQ st "") e && matchesSearch e (searchTerms (setQ st query)).
Proof.
  unfold filterCallback, versionExcludeSet, authorExcludeSet, versionIncludeSet,
    authorIncludeSet.
  change (searchTerms (setQ st "")) with (@nil string).
  cbn [versionExcludes versionIncludes authorExcludes authorIncludes setQ].
  destruct (setAndHas _ _); [reflexivity|].
  destruct (setAndHas _ _); [reflexivity|].
  destruct (setAndLacks _ _); [reflexivity|].
  destruct (setAndLacks _ _); reflexivity.
Qed.

(** X10. Searching for two pieces of text separated by a space shows the
    entries found by both searches, so the order of the words does not
    matter, on a host whose case mapping does not look across a space; and
    the letter case of the search text does not matter either. *)
Theorem search_words_intersect {host : Js.Host} (st : AppState) (q1 q2 : string) :
  (Js.caseByWords host ->
   forall e,
     In e (filterList (setQ st (q1 ++ " " ++ q2)))
     <-> In e (filterList (setQ st q1)) /\ In e (filterList (setQ st q2))) /\
  (Js.caseByWords host ->
   forall e,
     In e (filterList (setQ st (q1 ++ " " ++ q2)))
     <-> In e (filterList (setQ st (q2 ++ " " ++ q1)))) /\
  (Js.toLowerCase q1 = Js.toLowerCase q2 ->
   filterList (setQ st q1) = filterList (setQ st q2)).
Proof.
  assert (Hboth : Js.caseByWords host -> forall a b e,
            In e (filterList (setQ st (a ++ " " ++ b)))
            <-> In e (filterList (setQ st a)) /\ In e (filterList (setQ st b))).
  { intros Hwords a b e.
    assert (Hterms : searchTerms (setQ st (a ++ " " ++ b))
                     = (searchTerms (setQ st a) ++ searchTerms (setQ st b))%list).
    { rewrite !searchTerms_terms. unfold Reference.terms.
      cbn [q setQ]. rewrite Hwords. apply words_app_space. }
    unfold filterList. rewrite !filter_In.
    rewrite (filterCallback_setQ st (a ++ " " ++ b)), (filterCallback_setQ st a),
      (filterCallback_setQ st b), Hterms, matchesSearch_app.
    simpl entries. rewrite !andb_true_iff. tauto. }
  split; [intros Hwords; apply Hboth, Hwords|]. split.
  - intros Hwords e. rewrite !(Hboth Hwords). tauto.
  - intros Hcase. unfold filterList. apply filter_ext. intros e.
    rewrite (filterCallback_setQ st q1), (filterCallback_setQ st q2).
    unfold searchTerms. cbn [q setQ]. rewrite Hcase. reflexivity.
Qed.

Lemma search_words_intersect_witness :
  Js.caseByWords Sample.host /\
  forall e,
    In e (filterList (host := Sample.host)
            (setQ (setEntries (initialState 3) Sample.catalog) ("castle" ++ " " ++ "ALICE")))
    <-> In e (filterList (host := Sample.host)
                (setQ (setEntries (initialState 3) Sample.catalog) "castle")) /\
        In e (filterList (host := Sample.host)
                (setQ (setEntries (initialState 3) Sample.catalog) "ALICE")).
Proof.
  split; [exact sample_caseByWords|].
  exact (proj1 (search_words_intersect (host := Sample.host)
                  (setEntries (initialState 3) Sample.catalog) "castle" "ALICE")
           sample_caseByWords).
Defined.

(** ** Card titles *)

Lemma stripTrailing_length (p : ascii -> bool) (s : string) :
  (String.length (stripTrailing p s) <= String.length s)%nat.
Proof.
  induction s as [|c s IH]; simpl; [lia|].
  destruct (stripTrailing p s) as [|d r]; [destruct (p c); simpl; lia | simpl in *; lia].
Qed.

Lemma stripTrailing_all (p : ascii -> bool) (t : string) :
  allChars p t = true -> stripTrailing p t = "".
Proof.
  induction t as [|c t IH]; simpl; [reflexivity|].
  intros H. apply andb_true_iff in H. destruct H as [Hc Ht].
  rewrite (IH Ht), Hc. reflexivity.
Qed.

Lemma stripTrailing_app (p : ascii -> bool) (s t : string) :
  allChars p t = true -> stripTrailing p (s ++ t) = stripTrailing p s.
Proof.
  intros Ht. induction s as [|c s IH]; simpl; [apply stripTrailing_all, Ht|].
  rewrite IH. reflexivity.
Qed.

Lemma stripTrailing_keeps (p : ascii -> bool) (s : string) :
  s <> "" -> endsIn p s = false -> stripTrailing p s = s.
Proof.
  induction s as [|c s IH]; [congruence|]. intros _ Hend.
  destruct s as [|d s].
  - simpl in *. rewrite Hend. reflexivity.
  - change (endsIn p (String c (String d s))) with (endsIn p (String d s)) in Hend.
    change (stripTrailing p (String c (String d s)))
      with (match stripTrailing p (String d s) with
            | EmptyString => if p c then EmptyString else String c EmptyString
            | r' => String c r'
            end).
    rewrite IH by (congruence || exact Hend). reflexivity.
Qed.

Lemma endsIn_app (p : ascii -> bool) (a b : string) :
  endsIn p (a ++ b) = match b with EmptyString => endsIn p a | _ => endsIn p b end.
Proof.
  induction a as [|c a IH]; [destruct b; reflexivity|].
  simpl. destruct (a ++ b)%string eqn:E.
  - destruct a; [|discriminate]. simpl in E. subst b. reflexivity.
  - rewrite IH. destruct a as [|d a]; simpl in *; [subst b; reflexivity|].
    destruct b; reflexivity.
Qed.

Lemma stripSuffix_unfold (suffix s : string) :
  stripSuffixIgnoringCase suffix s =
  if (Js.foldCase s =? suffix)%string then Some EmptyString
  else match s with
       | EmptyString => None
       | String c r => option_map (String c) (stripSuffixIgnoringCase suffix r)
       end.
Proof. destruct s; reflexivity. Qed.

Lemma stripSuffix_app (suffix s ext : string) :
  Js.foldCase ext = suffix ->
  stripSuffixIgnoringCase suffix (s ++ ext) = Some s.
Proof.
  intros Hext. subst suffix. induction s as [|c s IH].
  - change ("" ++ ext)%string with ext.
    rewrite stripSuffix_unfold, String.eqb_refl. reflexivity.
  - change (String c s ++ ext)%string with (String c (s ++ ext)).
    rewrite stripSuffix_unfold. cbv iota.
    rewrite IH. simpl option_map.
    destruct (String.eqb_spec (Js.foldCase (String c (s ++ ext))) (Js.foldCase ext))
      as [E|_]; [|reflexivity].
    exfalso. apply (f_equal String.length) in E.
    rewrite !foldCase_length in E.
    simpl in E. rewrite string_length_app in E. lia.
Qed.

Lemma stripSuffix_length (suffix s base : string) :
  stripSuffixIgnoringCase suffix s = Some base ->
  (String.length base <= String.length s)%nat.
Proof.
  revert base; induction s as [|c s IH]; intros base; rewrite stripSuffix_unfold.
  - destruct (_ =? _)%string; [intros [= <-]; simpl; lia | discriminate].
  - destruct (_ =? _)%string; [intros [= <-]; simpl; lia|].
    destruct (stripSuffixIgnoringCase suffix s) as [b|]; [|discriminate].
    intros [= <-]. simpl. specialize (IH b eq_refl). lia.
Qed.

Lemma underscoresToSpaces_length (s : string) :
  String.length (underscoresToSpaces s) = String.length s.
Proof. induction s as [|c s IH]; simpl; congruence. Qed.

Lemma underscoresToSpaces_clean (s : string) :
  Js.hasChar "_" (underscoresToSpaces s) = false.
Proof.
  induction s as [|c s IH]; simpl; [reflexivity|]. rewrite IH, orb_false_r.
  destruct (Ascii.eqb_spec c "_"); [reflexivity | apply Ascii.eqb_neq; assumption].
Qed.

Lemma stripSnowflake_length (base : string) :
  (String.length (stripSnowflake base) <= String.length base)%nat.
Proof.
  unfold stripSnowflake. destruct (_ <=? _)%nat; [|lia].
  pose proof (stripTrailing_length isDashOrUnderscore (stripTrailing isDigit base)).
  pose proof (stripTrailing_length isDigit base). lia.
Qed.

(** X11. A card title never holds an underscore, is never longer than the
    file name, and is empty only when the file name is nothing but the
    extension. *)
Theorem displayName_shape (file : string) :
  Js.hasChar "_" (displayName file) = false /\
  (String.length (displayName file) <= String.length file)%nat /\
  (displayName file = "" <-> stripLitematic file = "").
Proof.
  unfold displayName.
  set (base := stripLitematic file).
  set (w := stripTrailing isDashOrUnderscore (stripSnowflake base)).
  assert (Hbase : (String.length base <= String.length file)%nat).
  { subst base. unfold stripLitematic.
    destruct (stripSuffixIgnoringCase ".litematic" file) eqn:E; [|lia].
    apply (stripSuffix_length _ _ _ E). }
  assert (Hw : (String.length w <= String.length base)%nat).
  { subst w. pose proof (stripTrailing_length isDashOrUnderscore (stripSnowflake base)).
    pose proof (stripSnowflake_length base). lia. }
  split; [apply underscoresToSpaces_clean|]. split.
  - rewrite underscoresToSpaces_length. destruct (Js.truthy w); lia.
  - assert (Hempty : forall s, underscoresToSpaces s = "" <-> s = "").
    { intros [|c s]; simpl; split; congruence. }
    rewrite Hempty. unfold Js.truthy.
    destruct (String.eqb_spec w "") as [E|E]; simpl; [tauto|].
    split; [congruence|]. intros Hb. rewrite Hb in Hw.
    destruct w; [congruence | simpl in Hw; lia].
Qed.

(** X12. A file name made of a name, dashes or underscores, a run of eight
    or more digits and the extension in any letter case gets the name as its
    title, underscores shown as spaces. *)
Theorem displayName_drops_snowflake (name sep digits ext : string) :
  name <> "" ->
  endsIn (fun c => isDigit c || isDashOrUnderscore c) name = false ->
  allChars isDashOrUnderscore sep = true ->
  allChars isDigit digits = true ->
  (8 <= String.length digits)%nat ->
  Js.foldCase ext = ".litematic" ->
  displayName (name ++ sep ++ digits ++ ext) = underscoresToSpaces name.
Proof.
  intros Hname Hend Hsep Hdigits Hlen Hext.
  assert (Hend_or : forall p1 p2 s,
            endsIn (fun c => p1 c || p2 c) s = false ->
            endsIn p1 s = false /\ endsIn p2 s = false).
  { intros p1 p2 s. induction s as [|c [|d s] IH]; simpl; [auto| |exact IH].
    intros H. apply orb_false_iff in H. exact H. }
  destruct (Hend_or _ _ _ Hend) as [HendD HendU].
  unfold displayName, stripLitematic.
  replace (name ++ sep ++ digits ++ ext)%string
    with ((name ++ sep ++ digits) ++ ext)%string
    by (rewrite !string_app_assoc; reflexivity).
  rewrite (stripSuffix_app _ _ _ Hext).
  assert (HnoDigits : stripTrailing isDigit (name ++ sep ++ digits) = (name ++ sep)%string).
  { replace (name ++ sep ++ digits)%string with ((name ++ sep) ++ digits)%string
      by (rewrite string_app_assoc; reflexivity).
    rewrite (stripTrailing_app _ _ _ Hdigits).
    apply stripTrailing_keeps.
    - destruct name; [congruence | discriminate].
    - rewrite endsIn_app. destruct sep as [|c sep]; [exact HendD|].
      clear - Hsep. revert c Hsep. induction sep as [|d sep IH]; intros c Hsep.
      + simpl in *. rewrite andb_true_r in Hsep.
        unfold isDashOrUnderscore in Hsep. apply orb_true_iff in Hsep.
        destruct Hsep as [H|H]; apply Ascii.eqb_eq in H; subst; reflexivity.
      + change (endsIn isDigit (String c (String d sep)))
          with (endsIn isDigit (String d sep)).
        apply IH. simpl in Hsep. apply andb_true_iff in Hsep. tauto. }
  assert (Hsnow : stripSnowflake (name ++ sep ++ digits) = name).
  { unfold stripSnowflake. rewrite HnoDigits.
    replace (8 <=? _)%nat with true.
    - rewrite (stripTrailing_app _ _ _ Hsep).
      apply stripTrailing_keeps; assumption.
    - symmetry. apply Nat.leb_le. rewrite !string_length_app. lia. }
  rewrite Hsnow, (stripTrailing_keeps _ _ Hname HendU).
  destruct name; [congruence | reflexivity].
Qed.

Lemma displayName_drops_snowflake_witness :
  "Iron_Farm" <> "" /\
  endsIn (fun c => isDigit c || isDashOrUnderscore c) "Iron_Farm" = false /\
  allChars isDashOrUnderscore "_-" = true /\
  allChars isDigit "1357924680135792468" = true /\
  (8 <= String.length "1357924680135792468")%nat /\
  Js.foldCase ".LiteMatic" = ".litematic" /\
  displayName ("Iron_Farm" ++ "_-" ++ "1357924680135792468" ++ ".LiteMatic") = "Iron Farm".
Proof.
  assert (H1 : "Iron_Farm" <> "") by discriminate.
  assert (H2 : endsIn (fun c => isDigit c || isDashOrUnderscore c) "Iron_Farm" = false)
    by reflexivity.
  assert (H3 : allChars isDashOrUnderscore "_-" = true) by reflexivity.
  assert (H4 : allChars isDigit "1357924680135792468" = true) by reflexivity.
  assert (H5 : (8 <= String.length "1357924680135792468")%nat) by (simpl; lia).
  assert (H6 : Js.foldCase ".LiteMatic" = ".litematic") by reflexivity.
  repeat (split; [assumption|]).
  exact (displayName_drops_snowflake "Iron_Farm" "_-" "1357924680135792468" ".LiteMatic"
           H1 H2 H3 H4 H5 H6).
Defined.

(** ** Address bar *)

Lemma paramsEqb_eq (a b : URLSearchParams.t) : paramsEqb a b = true <-> a = b.
Proof.
  revert b; induction a as [|[k v] a IH]; intros [|[k' v'] b]; simpl;
    try (split; [discriminate | congruence]); [tauto|].
  rewrite !andb_true_iff, !String.eqb_eq, IH. split.
  - intros [[-> ->] ->]. reflexivity.
  - intros [= -> -> ->]. auto.
Qed.

Lemma paramsEqb_refl (a : URLSearchParams.t) : paramsEqb a a = true.
Proof. apply paramsEqb_eq. reflexivity. Qed.

(** X13. Writes to the address bar are deduplicated and suppressed during
    a restoration: a second run of either sync in the same state writes
    nothing; a change of filters, sort or preview adds at most one history
    entry, whose query string is the encoding of the state; scrolling never
    adds an entry, it overwrites the current one. *)
Theorem address_sync_rules (dom : Dom) (st : AppState) (nav : Nav) :
  syncEffect st (syncEffect st nav) = syncEffect st nav /\
  scrollSync dom st (scrollSync dom st nav) = scrollSync dom st nav /\
  (restoringRef st = true -> syncEffect st nav = nav /\ scrollSync dom st nav = nav) /\
  (syncEffect st nav = nav \/
   history (syncEffect st nav) = buildParams None st :: history nav) /\
  (restoringRef st = false ->
   lastPushedParamsRef (syncEffect st nav) = buildParams None st /\
   lastPushedParamsRef (scrollSync dom st nav)
   = buildParams (Some (scrollAnchor dom st)) st) /\
  (history nav <> [] ->
   List.length (history (scrollSync dom st nav)) = List.length (history nav)).
Proof.
  unfold syncEffect, scrollSync, pushState, replaceState.
  destruct (restoringRef st) eqn:Er; simpl.
  - repeat split; auto; discriminate.
  - split; [|split; [|split; [|split; [|split]]]].
    + destruct (paramsEqb _ (lastPushedParamsRef nav)) eqn:E; simpl;
        [rewrite E | rewrite paramsEqb_refl]; reflexivity.
    + destruct (paramsEqb _ (lastPushedParamsRef nav)) eqn:E; simpl;
        [rewrite E | rewrite paramsEqb_refl]; reflexivity.
    + discriminate.
    + destruct (paramsEqb _ (lastPushedParamsRef nav)); simpl; auto.
    + intros _. split.
      * destruct (paramsEqb _ (lastPushedParamsRef nav)) eqn:E; simpl; [|reflexivity].
        apply paramsEqb_eq in E. symmetry. exact E.
      * destruct (paramsEqb _ (lastPushedParamsRef nav)) eqn:E; simpl; [|reflexivity].
        apply paramsEqb_eq in E. symmetry. exact E.
    + intros Hne. destruct (paramsEqb _ (lastPushedParamsRef nav)); simpl; [reflexivity|].
      destruct (history nav); [congruence | reflexivity].
Qed.

(** ** Scroll tracking *)

Lemma handleScroll_unfold (dom : Dom) (st : AppState) :
  restoringRef st = false ->
  handleScroll dom st =
  setWindowStart (setAnchorIndex st (scrollAnchor dom st))
    (Z.max 0 (scrollAnchor dom st - BUFFER_ROWS * cols st)).
Proof. intros H. unfold handleScroll, scrollAnchor. rewrite H. reflexivity. Qed.

(** X14. Outside a restoration, a scroll event puts the anchor on the row
    boundary nearest to the scroll offset, as a multiple of the column
    count, and starts the window at most three rows above it, also on a row
    boundary; a second event at the same position changes nothing.  During
    a restoration scroll events are ignored. *)
Theorem handleScroll_snaps_to_rows (dom : Dom) (st : AppState) :
  1 <= cols st ->
  0 < approxRowHeight st ->
  (restoringRef st = true -> handleScroll dom st = st) /\
  (restoringRef st = false ->
   let st' := handleScroll dom st in
   let rel := Z.max 0 (scrollY st + getHeaderOffset dom - gridTop dom) in
   (exists row, 0 <= row /\ anchorIndex st' = row * cols st /\
                2 * Z.abs (rel - row * approxRowHeight st) <= approxRowHeight st) /\
   (exists row, 0 <= row /\ windowStart st' = row * cols st) /\
   0 <= windowStart st' <= anchorIndex st' /\
   anchorIndex st' - windowStart st' <= BUFFER_ROWS * cols st /\
   handleScroll dom st' = st').
Proof.
  intros Hcols Hh. split.
  - intros H. unfold handleScroll. rewrite H. reflexivity.
  - intros Hr st' rel. subst st'. rewrite (handleScroll_unfold dom st Hr).
    unfold scrollAnchor. fold rel. cbv zeta.
    set (h := approxRowHeight st) in *. set (c := cols st) in *.
    pose proof (floor_div_bounds rel h Hh) as Hdiv.
    assert (Hrel : 0 <= rel) by (subst rel; lia).
    set (row := rel / h) in *.
    assert (Hrow : 0 <= row) by nia.
    set (anchorRow := if h <? 2 * (rel - row * h) then row + 1 else row).
    assert (Har : 0 <= anchorRow /\ 2 * Z.abs (rel - anchorRow * h) <= h).
    { subst anchorRow. destruct (Z.ltb_spec h (2 * (rel - row * h))); split; try lia. }
    destruct Har as [Har0 Harn].
    assert (Hanchor : Z.max 0 (anchorRow * c) = anchorRow * c) by nia.
    cbn [windowStart anchorIndex cols setWindowStart setAnchorIndex].
    fold c. rewrite Hanchor. unfold BUFFER_ROWS.
    split; [exists anchorRow; auto|]. split; [|split; [|split]].
    + destruct (Z.le_gt_cases 3 anchorRow) as [H3|H3].
      * exists (anchorRow - 3). split; [lia|].
        replace (anchorRow * c - 3 * c) with ((anchorRow - 3) * c) by ring.
        apply Z.max_r, Z.mul_nonneg_nonneg; lia.
      * exists 0. split; [lia|].
        assert (0 <= (3 - anchorRow) * c) by (apply Z.mul_nonneg_nonneg; lia).
        rewrite Z.max_l by lia. ring.
    + assert (0 <= anchorRow * c) by (apply Z.mul_nonneg_nonneg; lia). lia.
    + lia.
    + rewrite handleScroll_unfold by exact Hr.
      assert (Hsame : scrollAnchor dom
                (setWindowStart (setAnchorIndex st (anchorRow * c))
                   (Z.max 0 (anchorRow * c - 3 * c))) = anchorRow * c).
      { unfold scrollAnchor.
        cbn [scrollY cols measuredCardHeight setWindowStart setAnchorIndex approxRowHeight].
        fold (approxRowHeight st). fold h. fold c. fold rel. fold row. fold anchorRow.
        exact Hanchor. }
      rewrite Hsame. reflexivity.
Qed.

Lemma handleScroll_snaps_to_rows_witness :
  1 <= cols (setScrollY (initialState 3) 1000) /\
  0 < approxRowHeight (setScrollY (initialState 3) 1000) /\
  anchorIndex (handleScroll Sample.emptyDom (setScrollY (initialState 3) 1000)) = 9 /\
  windowStart (handleScroll Sample.emptyDom (setScrollY (initialState 3) 1000)) = 0.
Proof.
  assert (H1 : 1 <= cols (setScrollY (initialState 3) 1000)) by (simpl; lia).
  assert (H2 : 0 < approxRowHeight (setScrollY (initialState 3) 1000))
    by (vm_compute; reflexivity).
  split; [exact H1|]. split; [exact H2|].
  destruct (handleScroll_snaps_to_rows Sample.emptyDom (setScrollY (initialState 3) 1000)
              H1 H2) as [_ H].
  specialize (H eq_refl). cbv zeta in H. destruct H as (_ & _ & _ & _ & Hidem).
  split; [rewrite <- Hidem|]; reflexivity.
Defined.

(** ** Rows and spacers *)

(** X15. When the window starts on a row boundary, the rows of the top
    spacer, of the rendered slice and of the bottom spacer together never
    fall short of the rows of the whole view and exceed them by at most one;
    they are exactly the rows of the view when the column count divides
    WINDOW_SIZE. *)
Theorem spacers_cover_grid (st : AppState) (viewLength : Z) :
  1 <= cols st ->
  0 <= windowStart st <= viewLength ->
  windowStart st mod cols st = 0 ->
  let rendered := ceilDiv (windowEnd viewLength st - windowStart st) (cols st) in
  let total := ceilDiv viewLength (cols st) in
  total <= topRows st + rendered + bottomRows viewLength st <= total + 1 /\
  (WINDOW_SIZE mod cols st = 0 ->
   topRows st + rendered + bottomRows viewLength st = total).
Proof.
  intros Hc Hws Hmod rendered total.
  set (k := cols st) in *. set (a := windowStart st) in *.
  set (we := windowEnd viewLength st) in *.
  assert (Hk : 0 < k) by lia.
  assert (Ha : a = topRows st * k).
  { unfold topRows. fold a. fold k.
    pose proof (Z.div_mod a k ltac:(lia)). lia. }
  assert (Hwe : we = Z.min viewLength (a + 200)) by reflexivity.
  pose proof (ceilDiv_bounds (we - a) k Hk) as Hb. fold rendered in Hb.
  pose proof (ceilDiv_bounds (viewLength - we) k Hk) as Hcb.
  change (ceilDiv (viewLength - we) k) with (bottomRows viewLength st) in Hcb.
  pose proof (ceilDiv_bounds viewLength k Hk) as Ht. fold total in Ht.
  set (m := topRows st) in *. set (y := bottomRows viewLength st) in *.
  assert (Hlow : total <= m + rendered + y).
  { assert (E : (total - 1) * k < (m + rendered + y) * k) by lia.
    apply Z.mul_lt_mono_pos_r in E; lia. }
  assert (Hhigh : m + rendered + y <= total + 1).
  { assert (E : (m + rendered + y - 2) * k < total * k) by lia.
    apply Z.mul_lt_mono_pos_r in E; lia. }
  split; [lia|].
  unfold WINDOW_SIZE. intros H200.
  assert (Hq : 200 = (200 / k) * k).
  { pose proof (Z.div_mod 200 k ltac:(lia)). lia. }
  set (n := 200 / k) in *.
  destruct (Z.le_gt_cases viewLength (a + 200)) as [Hcase|Hcase].
  - assert (Hy : (y - 1) * k < 0) by lia.
    assert (y <= 0) by nia.
    assert (E : (m + rendered - 1) * k < total * k) by lia.
    apply Z.mul_lt_mono_pos_r in E; lia.
  - assert (Hr : (rendered - 1) * k < n * k <= rendered * k) by lia.
    assert (rendered = n).
    { destruct Hr as [R1 R2].
      apply Z.mul_lt_mono_pos_r in R1; [|lia].
      apply Z.mul_le_mono_pos_r in R2; lia. }
    assert (E : (m + n + y - 1) * k < total * k) by lia.
    apply Z.mul_lt_mono_pos_r in E; lia.
Qed.

Lemma spacers_cover_grid_witness :
  1 <= cols (setWindowStart (initialState 3) 48) /\
  0 <= windowStart (setWindowStart (initialState 3) 48) <= 1000 /\
  windowStart (setWindowStart (initialState 3) 48) mod cols (setWindowStart (initialState 3) 48) = 0 /\
  ceilDiv 1000 3
  <= topRows (setWindowStart (initialState 3) 48)
     + ceilDiv (windowEnd 1000 (setWindowStart (initialState 3) 48) - 48) 3
     + bottomRows 1000 (setWindowStart (initialState 3) 48)
  <= ceilDiv 1000 3 + 1.
Proof.
  assert (H1 : 1 <= cols (setWindowStart (initialState 3) 48)) by (simpl; lia).
  assert (H2 : 0 <= windowStart (setWindowStart (initialState 3) 48) <= 1000)
    by (simpl; lia).
  assert (H3 : windowStart (setWindowStart (initialState 3) 48)
               mod cols (setWindowStart (initialState 3) 48) = 0) by reflexivity.
  repeat (split; [assumption|]).
  exact (proj1 (spacers_cover_grid (setWindowStart (initialState 3) 48) 1000 H1 H2 H3)).
Defined.

Lemma slice_window (A : Type) (xs : list A) (start stop : Z) :
  0 <= start <= stop -> stop <= Z.of_nat (List.length xs) ->
  slice xs start stop = firstn (Z.to_nat (stop - start)) (skipn (Z.to_nat start) xs).
Proof.
  intros H1 H2. unfold slice.
  replace (start <? 0) with false by (symmetry; apply Z.ltb_ge; lia).
  replace (stop <? 0) with false by (symmetry; apply Z.ltb_ge; lia).
  rewrite !Z.min_l by lia. reflexivity.
Qed.

(** X16. For a window start inside the view, the rendered slice holds the
    entries of the view from windowStart up to windowEnd, in order and
    nothing else; it is not empty when the start is before the end of the
    view. *)
Theorem visible_is_the_window (flt : list LitematicEntry) (st : AppState) :
  0 <= windowStart st <= Z.of_nat (List.length flt) ->
  let len := Z.of_nat (List.length flt) in
  Z.of_nat (List.length (visible flt st)) = windowEnd len st - windowStart st /\
  (forall i, (i < List.length (visible flt st))%nat ->
     nth_error (visible flt st) i = nth_error flt (Z.to_nat (windowStart st) + i)) /\
  (windowStart st < len -> visible flt st <> []).
Proof.
  intros Hws len.
  assert (Hwe : windowStart st <= windowEnd len st <= len)
    by (unfold windowEnd, WINDOW_SIZE; lia).
  assert (Hvis : visible flt st
                 = firstn (Z.to_nat (windowEnd len st - windowStart st))
                     (skipn (Z.to_nat (windowStart st)) flt)).
  { unfold visible. fold len. apply slice_window; lia. }
  assert (Hlen : Z.of_nat (List.length (visible flt st))
                 = windowEnd len st - windowStart st).
  { rewrite Hvis, length_firstn, length_skipn. subst len. lia. }
  split; [exact Hlen|]. split.
  - intros i Hi. rewrite Hvis in *. rewrite nth_error_firstn.
    replace (i <? Z.to_nat (windowEnd len st - windowStart st))%nat with true.
    + apply nth_error_skipn.
    + symmetry. apply Nat.ltb_lt. rewrite length_firstn in Hi. lia.
  - intros Hlt Hnil. rewrite Hnil in Hlen. simpl in Hlen.
    unfold windowEnd, WINDOW_SIZE in *. lia.
Qed.

Lemma visible_is_the_window_witness :
  0 <= windowStart (setWindowStart (initialState 3) 48)
    <= Z.of_nat (List.length Sample.sixtyEntries) /\
  Z.of_nat (List.length (visible Sample.sixtyEntries (setWindowStart (initialState 3) 48)))
  = 12.
Proof.
  assert (H : 0 <= windowStart (setWindowStart (initialState 3) 48)
                <= Z.of_nat (List.length Sample.sixtyEntries))
    by (vm_compute; split; discriminate).
  split; [exact H|].
  exact (proj1 (visible_is_the_window Sample.sixtyEntries
                  (setWindowStart (initialState 3) 48) H)).
Defined.

(** ** Restoration from a decoded state *)

(** What one frame callback does when the lookup does not throw. *)
Lemma runCallback_progress (dom : Dom) (cb : Frame) (s : AppState) :
  neverThrows dom ->
  let s' := runCallback dom cb s in
  pendingIndex s' = pendingIndex s /\
  (restoringRef s = false -> restoringRef s' = false) /\
  (exists more,
     frames s' = (frames s ++ more)%list /\
     forall cb', In cb' more ->
       exists t a, cb = FrameTryScroll t a /\ cb' = FrameTryScroll t (a + 1) /\
                   a + 1 < 10) /\
  (exists more, timeouts s' = (timeouts s ++ more)%list) /\
  restorationEnds s'.
Proof.
  intros Hdom. unfold runCallback, restorationEnds.
  destruct cb as [|t a].
  - simpl. split; [reflexivity|]. split; [auto|].
    split; [exists []; split; [symmetry; apply app_nil_r | intros ? []]|].
    split; [eexists; reflexivity|].
    right. right. apply in_or_app. right. left. reflexivity.
  - destruct (querySelector dom (entrySelector t)) as [| |top] eqn:E.
    + exfalso. exact (Hdom _ E).
    + destruct (Z.ltb_spec (a + 1) 10) as [Hlt|Hge]; simpl.
      * split; [reflexivity|]. split; [auto|].
        split; [|split; [exists []; symmetry; apply app_nil_r|]].
        -- exists [FrameTryScroll t (a + 1)]. split; [reflexivity|].
           intros cb' [<-|[]]. exists t, a. auto.
        -- right. left. destruct (frames s); discriminate.
      * split; [reflexivity|]. split; [auto|].
        split; [exists []; split; [symmetry; apply app_nil_r | intros ? []]|].
        split; [exists []; symmetry; apply app_nil_r|].
        left. reflexivity.
    + simpl. split; [reflexivity|]. split; [auto|].
      split; [exists []; split; [symmetry; apply app_nil_r | intros ? []]|].
      split; [eexists; reflexivity|].
      right. right. apply in_or_app. right. left. reflexivity.
Qed.

(** The callbacks of one frame, run from any state. *)
Lemma runCallbacks_progress (dom : Dom) (l : list Frame) :
  neverThrows dom ->
  forall s,
    let s' := fold_left (fun s cb => runCallback dom cb s) l s in
    pendingIndex s' = pendingIndex s /\
    (restoringRef s = false -> restoringRef s' = false) /\
    (forall cb', In cb' (frames s') ->
       In cb' (frames s) \/
       exists t a, In (FrameTryScroll t a) l /\ cb' = FrameTryScroll t (a + 1) /\
                   a + 1 < 10) /\
    (frames s <> [] -> frames s' <> []) /\
    (In TimeoutEndRestoring (timeouts s) -> In TimeoutEndRestoring (timeouts s')) /\
    (l <> [] -> restorationEnds s').
Proof.
  intros Hdom. induction l as [|cb l IH]; intros s.
  - simpl. repeat split; auto. intros H. congruence.
  - cbn [fold_left].
    destruct (runCallback_progress dom cb s Hdom) as (P & R & [mf [F Fnew]] & [mt T] & E).
    destruct (IH (runCallback dom cb s)) as (P' & R' & F' & NF & NT & E').
    cbv zeta in *.
    split; [congruence|]. split; [auto|]. split; [|split; [|split]].
    + intros cb' Hin. destruct (F' cb' Hin) as [H | (t & a & H1 & H2 & H3)].
      * rewrite F in H. apply in_app_or in H. destruct H as [H|H]; [left; exact H|].
        right. destruct (Fnew cb' H) as (t & a & -> & -> & Hlt).
        exists t, a. split; [left; reflexivity | auto].
      * right. exists t, a. split; [right; exact H1 | auto].
    + intros H. apply NF. rewrite F. destruct (frames s); [congruence | discriminate].
    + intros H. apply NT. rewrite T. apply in_or_app. left. exact H.
    + intros _. destruct l as [|cb2 l]; [exact E | apply E'; discriminate].
Qed.

(** One animation frame: every search that is still queued afterwards has
    made one more attempt, and fewer than ten. *)
Lemma runFrame_progress (dom : Dom) (s : AppState) (k : Z) :
  neverThrows dom ->
  pendingIndex (runFrame dom s) = pendingIndex s /\
  (searchesFrom k s -> 0 <= k -> searchesFrom (k + 1) (runFrame dom s)) /\
  (restorationEnds s -> restorationEnds (runFrame dom s)).
Proof.
  intros Hdom. unfold runFrame.
  destruct (runCallbacks_progress dom (frames s) Hdom (setFrames s []))
    as (P & R & F & _ & NT & E).
  cbv zeta in *. split; [exact P|]. split.
  - intros Hs Hk cb' Hin. destruct (F cb' Hin) as [[] | (t & a & H1 & -> & Hlt)].
    specialize (Hs _ H1). simpl in Hs. lia.
  - intros [H | [H | H]].
    + left. apply R, H.
    + apply E, H.
    + right. right. apply NT, H.
Qed.

(** A timer that fires while no index is pending clears the flag. *)
Lemma fireTimeout_progress (i : nat) (s : AppState) :
  pendingIndex s = None ->
  pendingIndex (fireTimeout i s) = None /\
  frames (fireTimeout i s) = frames s /\
  (restorationEnds s -> restorationEnds (fireTimeout i s)).
Proof.
  intros Hp. unfold fireTimeout, restorationEnds.
  destruct (nth_error (timeouts s) i) as [[|]|]; cbn [pendingIndex setTimeouts];
    rewrite ?Hp; simpl; auto.
Qed.

(** The effects of a commit up to the restoration. *)
Lemma flush_stages (ch : Changed) (dom : Dom) (flt : list LitematicEntry)
    (card : option Z) (st : AppState) :
  exists s4,
    restoringRef s4 = restoringRef st /\ pendingIndex s4 = pendingIndex st /\
    pendingScrollId s4 = pendingScrollId st /\ frames s4 = frames st /\
    timeouts s4 = timeouts st /\
    flush ch dom flt card st =
      let s5 := if lengthChanged ch || colsChanged ch || rowHeightChanged ch
                then restoreEffect flt s4 else s4 in
      let s6 := if lengthChanged ch || colsChanged ch then measureEffect card s5 else s5 in
      if visibleChanged ch then locateEffect s6 else s6.
Proof.
  unfold flush.
  set (s1 := if entriesChanged ch then previewEffect st else st).
  assert (H1 : restoringRef s1 = restoringRef st /\ pendingIndex s1 = pendingIndex st /\
               pendingScrollId s1 = pendingScrollId st /\ frames s1 = frames st /\
               timeouts s1 = timeouts st).
  { subst s1. destruct (entriesChanged ch); [|auto].
    destruct (previewEffect_keeps st) as (A & B & C & D & E & _). auto. }
  clearbody s1. destruct H1 as (A1 & B1 & C1 & D1 & E1).
  set (s2 := if lengthChanged ch then resetEffect s1 else s1).
  assert (H2 : restoringRef s2 = restoringRef st /\ pendingIndex s2 = pendingIndex st /\
               pendingScrollId s2 = pendingScrollId st /\ frames s2 = frames st /\
               timeouts s2 = timeouts st).
  { subst s2. destruct (lengthChanged ch); [|auto].
    destruct (resetEffect_keeps s1) as (A & B & C & D & E & _).
    rewrite A, B, C, D, E. auto. }
  clearbody s2. clear s1 A1 B1 C1 D1 E1. destruct H2 as (A2 & B2 & C2 & D2 & E2).
  set (s3 := if lengthChanged ch then clampEffect _ s2 else s2).
  assert (H3 : restoringRef s3 = restoringRef st /\ pendingIndex s3 = pendingIndex st /\
               pendingScrollId s3 = pendingScrollId st /\ frames s3 = frames st /\
               timeouts s3 = timeouts st).
  { subst s3. destruct (lengthChanged ch); auto. }
  clearbody s3. clear s2 A2 B2 C2 D2 E2. destruct H3 as (A3 & B3 & C3 & D3 & E3).
  set (s4 := if rowHeightChanged ch || colsChanged ch || filtersChanged ch
             then handleScroll dom s3 else s3).
  assert (H4 : restoringRef s4 = restoringRef st /\ pendingIndex s4 = pendingIndex st /\
               pendingScrollId s4 = pendingScrollId st /\ frames s4 = frames st /\
               timeouts s4 = timeouts st).
  { subst s4. destruct (rowHeightChanged ch || colsChanged ch || filtersChanged ch); [|auto].
    destruct (handleScroll_keeps dom s3) as (A & B & C & D & E & _).
    rewrite A, B, C, D, E. auto. }
  clearbody s4. exists s4. destruct H4 as (A4 & B4 & C4 & D4 & E4).
  repeat split; assumption.
Qed.

(** The effects of a commit after the restoration. *)
Lemma flush_tail (ch : Changed) (card : option Z) (s5 : AppState) :
  let s6 := if lengthChanged ch || colsChanged ch then measureEffect card s5 else s5 in
  let s7 := if visibleChanged ch then locateEffect s6 else s6 in
  restoringRef s7 = restoringRef s5 /\ pendingIndex s7 = pendingIndex s5 /\
  timeouts s7 = timeouts s5 /\
  frames s7 =
    (frames s5 ++
     match pendingScrollId s5 with
     | Some t => if visibleChanged ch && Js.truthy t then [FrameTryScroll t 0] else []
     | None => []
     end)%list.
Proof.
  intros s6 s7.
  assert (H6 : restoringRef s6 = restoringRef s5 /\ pendingIndex s6 = pendingIndex s5 /\
               timeouts s6 = timeouts s5 /\ frames s6 = frames s5 /\
               pendingScrollId s6 = pendingScrollId s5).
  { subst s6. destruct (lengthChanged ch || colsChanged ch); [|auto].
    destruct (measureEffect_keeps card s5) as (A & B & C & D & E & _). auto. }
  clearbody s6. destruct H6 as (A & B & C & D & E). subst s7.
  rewrite <- A, <- B, <- C, <- D, <- E.
  destruct (visibleChanged ch).
  - unfold locateEffect. destruct (pendingScrollId s6) as [t|]; cbn [andb].
    + destruct (Js.truthy t); simpl; rewrite ?app_nil_r; auto.
    + rewrite app_nil_r. auto.
  - destruct (pendingScrollId s6); cbn [andb]; rewrite app_nil_r; auto.
Qed.

(** A commit while no index is pending queues at most a fresh search. *)
Lemma flush_progress (ch : Changed) (dom : Dom) (flt : list LitematicEntry)
    (card : option Z) (s : AppState) :
  pendingIndex s = None ->
  let s' := flush ch dom flt card s in
  pendingIndex s' = None /\
  (searchesFrom 0 s -> searchesFrom 0 s') /\
  (restorationEnds s -> restorationEnds s').
Proof.
  intros Hp. destruct (flush_stages ch dom flt card s) as (s4 & A & B & C & D & E & ->).
  cbv zeta.
  assert (H5 : (if lengthChanged ch || colsChanged ch || rowHeightChanged ch
                then restoreEffect flt s4 else s4) = s4).
  { destruct (_ || _); [apply restoreEffect_idle; congruence | reflexivity]. }
  rewrite H5.
  destruct (flush_tail ch card s4) as (A' & B' & E' & D'). cbv zeta in *.
  split; [congruence|]. split.
  - intros Hs cb Hin. rewrite D', D in Hin. apply in_app_or in Hin.
    destruct Hin as [Hin|Hin]; [apply Hs, Hin|].
    destruct (pendingScrollId s4) as [t|]; [|destruct Hin].
    destruct (visibleChanged ch && Js.truthy t); [|destruct Hin].
    destruct Hin as [<-|[]]. simpl. lia.
  - unfold restorationEnds. rewrite A', E', D', A, E, D.
    intros [H|[H|H]]; auto. right. left.
    destruct (frames s); [congruence | discriminate].
Qed.

(** Whatever happens between two navigations keeps a restoration that has
    started on its way to the end. *)
Lemma runStep_progress (step : Step) (s : AppState) :
  (forall d, stepDom step = Some d -> neverThrows d) ->
  pendingIndex s = None -> searchesFrom 0 s -> restorationEnds s ->
  pendingIndex (runStep step s) = None /\ searchesFrom 0 (runStep step s) /\
  restorationEnds (runStep step s).
Proof.
  intros Hdom Hp Hs He. destruct step as [dom|i|dom y|ch dom flt card]; cbn [runStep].
  - destruct (runFrame_progress dom s 0 (Hdom dom eq_refl)) as (P & Sq & E).
    split; [congruence|]. split; [|apply E, He].
    intros cb Hin. specialize (Sq Hs ltac:(lia) cb Hin).
    destruct cb; simpl in *; lia.
  - destruct (fireTimeout_progress i s Hp) as (P & F & E).
    split; [exact P|]. split; [|apply E, He].
    intros cb Hin. unfold searchesFrom in Hs. rewrite F in Hin. apply Hs, Hin.
  - destruct (handleScroll_keeps dom (setScrollY s y)) as (A & B & _ & D & E & _).
    cbv zeta in *. split; [rewrite B; exact Hp|]. split.
    + intros cb Hin. rewrite D in Hin. apply Hs, Hin.
    + unfold restorationEnds. rewrite A, D, E. exact He.
  - destruct (flush_progress ch dom flt card s Hp) as (P & Sq & E). auto.
Qed.

Lemma runSteps_progress (steps : list Step) :
  (forall step d, In step steps -> stepDom step = Some d -> neverThrows d) ->
  forall s,
    pendingIndex s = None -> searchesFrom 0 s -> restorationEnds s ->
    pendingIndex (runSteps steps s) = None /\ searchesFrom 0 (runSteps steps s) /\
    restorationEnds (runSteps steps s).
Proof.
  unfold runSteps. induction steps as [|step steps IH]; intros Hdom s Hp Hs He;
    [simpl; auto|].
  cbn [fold_left].
  destruct (runStep_progress step s) as (P & Sq & E); try assumption.
  { intros d. apply Hdom. left. reflexivity. }
  apply IH; try assumption. intros step' d Hin. apply Hdom. right. exact Hin.
Qed.

(** Animation frames in a row. *)
Lemma runFrames_progress (doms : nat -> Dom) :
  (forall i, neverThrows (doms i)) ->
  forall n i k s,
    0 <= k -> searchesFrom k s -> restorationEnds s ->
    let s' := runFrames (framesFrom doms i n) s in
    pendingIndex s' = pendingIndex s /\ searchesFrom (k + Z.of_nat n) s' /\
    restorationEnds s'.
Proof.
  intros Hdom. induction n as [|n IH]; intros i k s Hk Hs He.
  - simpl. rewrite Z.add_0_r. auto.
  - rewrite framesFrom_succ. cbn [runFrames].
    destruct (runFrame_progress (doms i) s k (Hdom i)) as (P & Sq & E).
    destruct (IH (S i) (k + 1) (runFrame (doms i) s) ltac:(lia) (Sq Hs Hk) (E He))
      as (P' & S' & E').
    cbv zeta in *. split; [congruence|]. split; [|exact E'].
    replace (k + Z.of_nat (S n)) with (k + 1 + Z.of_nat n) by lia. exact S'.
Qed.

Lemma searchesFrom_ten (s : AppState) : searchesFrom 10 s -> frames s = [].
Proof.
  intros H. destruct (frames s) as [|cb l] eqn:E; [reflexivity|].
  specialize (H cb). rewrite E in H. specialize (H (or_introl eq_refl)).
  destruct cb; simpl in H; lia.
Qed.

(** The queued timers, fired in turn while no index is pending. *)
Lemma iter_runTimeout_progress (s : AppState) :
  pendingIndex s = None ->
  forall n, (n <= List.length (timeouts s))%nat ->
    let s' := Nat.iter n runTimeout s in
    timeouts s' = skipn n (timeouts s) /\ frames s' = frames s /\
    pendingIndex s' = None /\
    restoringRef s' = match n with O => restoringRef s | S _ => false end.
Proof.
  intros Hp. induction n as [|n IH]; intros Hn; [simpl; auto|].
  destruct (IH ltac:(lia)) as (T & F & P & R). cbv zeta in *.
  change (Nat.iter (S n) runTimeout s) with (runTimeout (Nat.iter n runTimeout s)).
  set (s1 := Nat.iter n runTimeout s) in *. clearbody s1.
  assert (Hne : exists t rest, skipn n (timeouts s) = t :: rest /\
                               skipn (S n) (timeouts s) = rest).
  { clear -Hn. revert n Hn. induction (timeouts s) as [|t l IHl]; intros n Hn;
      [simpl in Hn; lia|].
    destruct n as [|n]; [exists t, l; auto|].
    apply IHl. simpl in Hn. lia. }
  destruct Hne as (t & rest & Hsk & Hsk'). rewrite Hsk in T. rewrite Hsk'.
  unfold runTimeout. rewrite T.
  destruct t; cbn [pendingIndex setTimeouts]; rewrite ?P; simpl; auto.
Qed.

Lemma drainTimeouts_progress (s : AppState) :
  pendingIndex s = None -> frames s = [] -> restorationEnds s ->
  let s' := drainTimeouts s in
  restoringRef s' = false /\ frames s' = [] /\ timeouts s' = [] /\
  pendingIndex s' = None.
Proof.
  intros Hp Hf He. unfold drainTimeouts.
  destruct (iter_runTimeout_progress s Hp (List.length (timeouts s)) (le_n _))
    as (T & F & P & R).
  cbv zeta in *. rewrite skipn_all in T.
  split; [|split; [congruence | split; assumption]].
  rewrite R. destruct (timeouts s) as [|t l] eqn:E; [|reflexivity].
  simpl. destruct He as [H|[H|H]]; [exact H | congruence | rewrite E in H; destruct H].
Qed.

(** The commit that runs the restoration on a view with entries starts
    it. *)
Lemma flush_starts_restoration (ch : Changed) (dom : Dom) (flt : list LitematicEntry)
    (card : option Z) (st : AppState) (p : Js.Num) :
  pendingIndex st = Some p ->
  searchesFrom 0 st ->
  lengthChanged ch || colsChanged ch || rowHeightChanged ch = true ->
  visibleChanged ch = true ->
  flt <> [] ->
  (forall e, In e flt -> Js.truthy (id e) = true) ->
  let s := flush ch dom flt card st in
  pendingIndex s = None /\ searchesFrom 0 s /\ frames s <> [].
Proof.
  intros Hp Hs Hdeps Hvis Hflt Hids.
  destruct (flush_stages ch dom flt card st) as (s4 & A & B & C & D & E & ->).
  cbv zeta. rewrite Hdeps.
  pose proof (flush_tail ch card (restoreEffect flt s4)) as T. cbv zeta in T.
  rewrite Hvis in T |- *. cbn [andb] in T. cbv iota in T |- *.
  destruct T as (A' & B' & E' & D').
  set (s7 := locateEffect _) in *. clearbody s7.
  assert (Hlen : (Z.of_nat (List.length flt) =? 0) = false).
  { apply Z.eqb_neq. destruct flt; [congruence | simpl; lia]. }
  assert (Hr : pendingIndex (restoreEffect flt s4) = None /\
               ((frames (restoreEffect flt s4) = (frames s4 ++ [FrameScrollTop])%list /\
                 pendingScrollId (restoreEffect flt s4) = pendingScrollId s4) \/
                (frames (restoreEffect flt s4) = frames s4 /\
                 exists t, pendingScrollId (restoreEffect flt s4) = Some t /\
                           Js.truthy t = true))).
  { unfold restoreEffect. rewrite B, Hp, Hlen.
    set (idx := Js.clamp 0 (Z.of_nat (List.length flt) - 1) p).
    assert (Hidx : 0 <= idx <= Z.of_nat (List.length flt) - 1).
    { subst idx. unfold Js.clamp. destruct flt; [congruence|].
      cbn [List.length]. destruct p as [z|[]]; lia. }
    destruct (idx =? 0) eqn:Ei.
    - split; [reflexivity|]. left. split; reflexivity.
    - split; [reflexivity|]. right. split; [reflexivity|].
      cbn [pendingScrollId setRestoringRef setPendingIndex setPendingScrollId].
      destruct (nth_error flt (Z.to_nat idx)) as [e|] eqn:En.
      + rewrite (Hids e (nth_error_In _ _ En)). exists (id e).
        split; [reflexivity | apply Hids, (nth_error_In _ _ En)].
      + apply nth_error_None in En. lia. }
  destruct Hr as (P & F).
  split; [congruence|]. split.
  - intros cb Hin. rewrite D' in Hin. apply in_app_or in Hin.
    destruct Hin as [Hin|Hin].
    + destruct F as [[F _] | [F _]]; rewrite F, D in Hin.
      * apply in_app_or in Hin. destruct Hin as [Hin|[<-|[]]]; [apply Hs, Hin | reflexivity].
      * apply Hs, Hin.
    + destruct (pendingScrollId (restoreEffect flt s4)) as [t|]; [|destruct Hin].
      destruct (Js.truthy t); [|destruct Hin].
      destruct Hin as [<-|[]]. simpl. lia.
  - rewrite D'. destruct F as [[F _] | [F (t & Ht & Htruthy)]]; rewrite F.
    + destruct (frames s4); discriminate.
    + rewrite Ht, Htruthy. destruct (frames s4); discriminate.
Qed.

(** X17. A restoration finishes once it has started.  When an index is
    pending and a commit in which the view length, the column count or the
    row height has changed, and with them the rendered slice, shows a view
    with entries, then whatever follows short of another navigation
    (animation frames, timers in any order, scroll events, further
    commits), ten animation frames later nothing is queued, no index is
    pending and, the timers fired, the suppression flag is clear, whatever
    the documents show, as long as no element lookup throws. *)
Theorem restoration_completes (st : AppState) (p : Js.Num) (ch : Changed) (dom : Dom)
    (flt : list LitematicEntry) (card : option Z) (steps : list Step)
    (doms : nat -> Dom) :
  pendingIndex st = Some p ->
  (forall targetId attempts,
     In (FrameTryScroll targetId attempts) (frames st) -> 0 <= attempts) ->
  lengthChanged ch || colsChanged ch || rowHeightChanged ch = true ->
  visibleChanged ch = true ->
  flt <> [] ->
  (forall e, In e flt -> Js.truthy (id e) = true) ->
  (forall step d, In step steps -> stepDom step = Some d -> neverThrows d) ->
  (forall i, neverThrows (doms i)) ->
  let st' :=
    drainTimeouts
      (runFrames (framesFrom doms 0 10) (runSteps steps (flush ch dom flt card st))) in
  restoringRef st' = false /\ frames st' = [] /\ timeouts st' = [] /\
  pendingIndex st' = None.
Proof.
  intros Hp Hatt Hdeps Hvis Hflt Hids Hsteps Hdoms.
  assert (Hs : searchesFrom 0 st).
  { intros cb Hin. destruct cb as [|t a]; [reflexivity|].
    specialize (Hatt t a Hin). lia. }
  destruct (flush_starts_restoration ch dom flt card st p Hp Hs Hdeps Hvis Hflt Hids)
    as (P0 & S0 & F0).
  cbv zeta in *.
  destruct (runSteps_progress steps Hsteps _ P0 S0 (or_intror (or_introl F0)))
    as (P1 & S1 & E1).
  destruct (runFrames_progress doms Hdoms 10 0 0 _ ltac:(lia) S1 E1) as (P2 & S2 & E2).
  cbv zeta in *.
  apply drainTimeouts_progress; [congruence | apply searchesFrom_ten, S2 | exact E2].
Qed.

Lemma normalize_id_truthy (rawEntries : list RawLitematicEntry) (e : LitematicEntry) :
  In e (normalize rawEntries) -> Js.truthy (id e) = true.
Proof.
  intros He. unfold normalize in He. apply mapFrom_In in He.
  destruct He as [r [k [_ [_ ->]]]]. simpl. destruct (raw_file r); reflexivity.
Qed.

Lemma restoration_completes_witness :
  pendingIndex (applyParams [("idx", "57")] (initialState 3)) = Some (Js.Int 57) /\
  Sample.sixtyEntries <> [] /\
  (forall e, In e Sample.sixtyEntries -> Js.truthy (id e) = true) /\
  neverThrows Sample.emptyDom /\
  restoringRef
    (drainTimeouts
       (runFrames (framesFrom (fun _ => Sample.emptyDom) 0 10)
          (runSteps [StepTimer 0; StepScroll Sample.emptyDom 120;
                     StepFrame Sample.emptyDom]
             (flush (mkChanged true false true false false true) Sample.emptyDom
                Sample.sixtyEntries None
                (applyParams [("idx", "57")] (initialState 3))))))
  = false.
Proof.
  assert (H0 : pendingIndex (applyParams [("idx", "57")] (initialState 3))
               = Some (Js.Int 57)) by (vm_compute; reflexivity).
  assert (H1 : Sample.sixtyEntries <> []) by (vm_compute; discriminate).
  assert (H2 : forall e, In e Sample.sixtyEntries -> Js.truthy (id e) = true)
    by (intros e; apply normalize_id_truthy).
  assert (H3 : neverThrows Sample.emptyDom) by (intros selector; discriminate).
  split; [exact H0|]. split; [exact H1|]. split; [exact H2|]. split; [exact H3|].
  refine (proj1 (restoration_completes
            (applyParams [("idx", "57")] (initialState 3)) (Js.Int 57)
            (mkChanged true false true false false true) Sample.emptyDom
            Sample.sixtyEntries None
            [StepTimer 0; StepScroll Sample.emptyDom 120; StepFrame Sample.emptyDom]
            (fun _ => Sample.emptyDom) H0 _ eq_refl eq_refl H1 H2 _ (fun _ => H3))).
  - intros targetId attempts Hin. vm_compute in Hin. destruct Hin.
  - intros step d [<-|[<-|[<-|[]]]]; simpl; intros E; try discriminate E;
      injection E as <-; exact H3.
Defined.

Lemma suspended_state (s : AppState) (i : Js.Num) (dom : Dom) (nav : Nav) :
  restoringRef s = true ->
  pendingIndex s = Some i ->
  restoreEffect [] s = s /\
  resetEffect s = s /\
  handleScroll dom s = s /\
  syncEffect s nav = nav /\
  scrollSync dom s nav = nav.
Proof.
  intros Hr Hp.
  unfold restoreEffect, resetEffect, handleScroll, syncEffect, scrollSync.
  rewrite Hp, Hr. simpl. repeat split; reflexivity.
Qed.

(** X18. While a decoded index waits for a view that is still empty, the
    component stays in restoration: the restoration and reset effects do
    nothing, scroll events are ignored and nothing is written to the address
    bar. *)
Theorem pending_index_suspends_sync (sp : URLSearchParams.t) (st : AppState)
    (v : string) (dom : Dom) (nav : Nav) :
  URLSearchParams.get sp "idx" = Some v ->
  Js.truthy v = true ->
  timeouts st = [] ->
  let st1 := runTimeout (applyParams sp st) in
  restoringRef st1 = true /\
  pendingIndex st1 = Some (Js.orZero (Js.parseInt v)) /\
  restoreEffect [] st1 = st1 /\
  resetEffect st1 = st1 /\
  handleScroll dom st1 = st1 /\
  syncEffect st1 nav = nav /\
  scrollSync dom st1 nav = nav.
Proof.
  intros Hget Htruthy Htimeouts st1.
  destruct (applyParams_fields sp st)
    as (_ & _ & _ & _ & _ & _ & _ & Hidx & Hrest & Htm & _).
  cbv zeta in *. rewrite Hget, Htruthy in Hidx. rewrite Htimeouts in Htm.
  change ([] ++ [TimeoutApplyParams])%list with [TimeoutApplyParams] in Htm.
  subst st1. revert Hidx Hrest Htm. generalize (applyParams sp st) as st0.
  intros st0 Hidx Hrest Htm.
  assert (Hst1 : runTimeout st0 = setTimeouts st0 []).
  { unfold runTimeout. rewrite Htm. cbv zeta iota beta.
    change (pendingIndex (setTimeouts st0 [])) with (pendingIndex st0).
    rewrite Hidx. reflexivity. }
  assert (Hr : restoringRef (runTimeout st0) = true) by (rewrite Hst1; exact Hrest).
  assert (Hp : pendingIndex (runTimeout st0) = Some (Js.orZero (Js.parseInt v)))
    by (rewrite Hst1; exact Hidx).
  split; [exact Hr|]. split; [exact Hp|].
  exact (suspended_state _ _ dom nav Hr Hp).
Qed.

Lemma pending_index_suspends_sync_witness :
  URLSearchParams.get [("idx", "57")] "idx" = Some "57" /\
  Js.truthy "57" = true /\
  restoringRef (runTimeout (applyParams [("idx", "57")] (initialState 3))) = true /\
  pendingIndex (runTimeout (applyParams [("idx", "57")] (initialState 3)))
  = Some (Js.Int 57).
Proof.
  split; [reflexivity|]. split; [reflexivity|].
  destruct (pending_index_suspends_sync [("idx", "57")] (initialState 3) "57"
              Sample.emptyDom (mkNav [] [[]]) eq_refl eq_refl eq_refl)
    as (H1 & H2 & _).
  split; [exact H1 | exact H2].
Defined.

(** ** Catalog load *)

Lemma normalize_length (rawEntries : list RawLitematicEntry) :
  List.length (normalize rawEntries) = List.length rawEntries.
Proof.
  unfold normalize. generalize 0.
  induction rawEntries as [|r l IH]; intros i; simpl; [reflexivity | rewrite IH; reflexivity].
Qed.

Lemma normalize_files (rawEntries : list RawLitematicEntry) :
  map file (normalize rawEntries) = map raw_file rawEntries.
Proof.
  unfold normalize. generalize 0.
  induction rawEntries as [|r l IH]; intros i; simpl; [reflexivity | rewrite IH; reflexivity].
Qed.

(** X19. A load that was torn down leaves only the loading flag set and
    the error cleared.  Otherwise loading always ends; a failed load reports
    an error and keeps the catalog it had, and a load that replaces the
    catalog reports no error, keeps the files of the document in their
    order and gives the entries pairwise distinct ids. *)
Theorem load_outcomes (outcome : FetchOutcome) (ls : LoadState) :
  load outcome true ls = mkLoad (loadedEntries ls) true None /\
  loading (load outcome false ls) = false /\
  ((exists message,
      error (load outcome false ls) = Some message /\
      loadedEntries (load outcome false ls) = loadedEntries ls)
   \/
   (exists status jsonEntries rawEntries,
      outcome = FetchResponse true status (JsonValue jsonEntries) /\
      rawEntries = match jsonEntries with Some l => l | None => [] end /\
      error (load outcome false ls) = None /\
      loadedEntries (load outcome false ls) = normalize rawEntries /\
      map file (loadedEntries (load outcome false ls)) = map raw_file rawEntries /\
      NoDup (map id (loadedEntries (load outcome false ls))))) /\
  (forall status body,
     outcome = FetchResponse false status body ->
     error (load outcome false ls)
     = Some ("Failed to load litematics (" ++ Js.numberToString status ++ ")")%string).
Proof.
  split; [|split; [|split]].
  - destruct outcome as [e|[] status [e|j]]; reflexivity.
  - destruct outcome as [e|[] status [e|j]]; reflexivity.
  - destruct outcome as [e|[] status [e|j]]; simpl;
      try (left; eexists; split; reflexivity).
    right. exists status, j, (match j with Some l => l | None => [] end).
    split; [reflexivity|]. split; [reflexivity|]. split; [reflexivity|].
    split; [reflexivity|].
    split; [apply normalize_files | apply mapFrom_ids_NoDup; lia].
  - intros status body ->. destruct body; reflexivity.
Qed.

(** ** Shared preview links *)

(** X20. On a loaded catalog, a preview identifier taken from a link opens
    the entry with that id, provided no file is named like it, and is then
    consumed; an identifier that matches neither an id nor a file name is
    consumed without touching the preview; and before the catalog has
    loaded the identifier is kept. *)
Theorem preview_link_resolution (rawEntries : list RawLitematicEntry) (st : AppState)
    (pid : string) :
  entries st = normalize rawEntries ->
  pendingPreviewId st = Some pid ->
  Js.truthy pid = true ->
  (rawEntries = [] -> previewEffect st = st) /\
  (forall e, In e (entries st) -> id e = pid ->
     (forall e', In e' (entries st) -> file e' <> pid) ->
     preview (previewEffect st) = Some e /\ pendingPreviewId (previewEffect st) = None) /\
  ((forall e', In e' (entries st) -> id e' <> pid /\ file e' <> pid) ->
   rawEntries <> [] ->
   preview (previewEffect st) = preview st /\ pendingPreviewId (previewEffect st) = None) /\
  (forall m, preview (previewEffect st) = Some m -> preview st <> Some m ->
     In m (entries st) /\ (id m = pid \/ file m = pid)).
Proof.
  intros Hent Hpid Htruthy.
  split; [|split; [|split]].
  - intros ->. unfold previewEffect. rewrite Hpid, Hent. reflexivity.
  - intros e Hin Hid Hfile.
    apply (previewEffect_resolves_id st e pid);
      [rewrite Hent; apply mapFrom_ids_NoDup; lia | assumption ..].
  - intros Hnone Hne. unfold previewEffect. rewrite Hpid, Htruthy.
    destruct (entries st) as [|x l] eqn:El.
    { exfalso. apply Hne. apply (f_equal (@List.length _)) in Hent.
      rewrite normalize_length in Hent. destruct rawEntries; [reflexivity | discriminate]. }
    rewrite <- El in *.
    destruct (find _ (entries st)) as [m|] eqn:Hfind; [|split; reflexivity].
    exfalso. apply find_some in Hfind. destruct Hfind as [Hm Hmatch].
    destruct (Hnone m Hm) as [H1 H2].
    apply orb_true_iff in Hmatch. destruct Hmatch as [H|H];
      apply String.eqb_eq in H; contradiction.
  - intros m Hprev Hnew. unfold previewEffect in Hprev. rewrite Hpid, Htruthy in Hprev.
    destruct (entries st) as [|x l] eqn:El; [contradiction|]. rewrite <- El in *.
    destruct (find _ (entries st)) as [m'|] eqn:Hfind; [|contradiction].
    simpl in Hprev. injection Hprev as ->.
    apply find_some in Hfind. destruct Hfind as [Hm Hmatch].
    split; [exact Hm|]. apply orb_true_iff in Hmatch.
    destruct Hmatch as [H|H]; apply String.eqb_eq in H; auto.
Qed.

Lemma preview_link_resolution_witness :
  entries (setPendingPreviewId (setEntries (initialState 3) Sample.catalog)
             (Some "bridge.litematic-1"))
  = normalize [Sample.raw "Castle.litematic" "alice" "1.20" 200;
               Sample.raw "bridge.litematic" "bob" "1.21" 100] /\
  Js.truthy "bridge.litematic-1" = true /\
  option_map file
    (preview (previewEffect
       (setPendingPreviewId (setEntries (initialState 3) Sample.catalog)
          (Some "bridge.litematic-1"))))
  = Some "bridge.litematic".
Proof.
  split; [reflexivity|]. split; [reflexivity|].
  destruct (preview_link_resolution
              [Sample.raw "Castle.litematic" "alice" "1.20" 200;
               Sample.raw "bridge.litematic" "bob" "1.21" 100]
              (setPendingPreviewId (setEntries (initialState 3) Sample.catalog)
                 (Some "bridge.litematic-1"))
              "bridge.litematic-1" eq_refl eq_refl eq_refl) as (_ & H & _).
  destruct (H (normalizeEntry (Sample.raw "bridge.litematic" "bob" "1.21" 100) 1))
    as [Hp _].
  - right. left. reflexivity.
  - reflexivity.
  - intros e' [<-|[<-|[]]]; vm_compute; discriminate.
  - rewrite Hp. reflexivity.
Defined.
(** ** Suspended restoration *)

Lemma restoreEffect_empty (st : AppState) : restoreEffect [] st = st.
Proof. unfold restoreEffect. destruct (pendingIndex st); reflexivity. Qed.

(** One step of a component whose decoded index waits for its commit. *)
Lemma runStep_waiting (p : Js.Num) (step : Step) (s : AppState) :
  match step with
  | StepFlush ch _ flt _ =>
      lengthChanged ch || colsChanged ch || rowHeightChanged ch = false \/ flt = []
  | _ => True
  end ->
  pendingIndex s = Some p -> restoringRef s = true -> pendingScrollId s = None ->
  frames s = [] -> (forall t, In t (timeouts s) -> t = TimeoutApplyParams) ->
  let s' := runStep step s in
  pendingIndex s' = Some p /\ restoringRef s' = true /\ pendingScrollId s' = None /\
  frames s' = [] /\ (forall t, In t (timeouts s') -> t = TimeoutApplyParams).
Proof.
  intros Hstep Hp Hr Hs Hf Ht.
  destruct step as [dom|i|dom y|ch dom flt card]; cbn [runStep]; cbv zeta.
  - rewrite (runFrame_idle dom s Hf). auto.
  - unfold fireTimeout. destruct (nth_error (timeouts s) i) as [cb|] eqn:E; [|auto].
    rewrite (Ht cb (nth_error_In _ _ E)).
    cbn [pendingIndex setTimeouts]. rewrite Hp.
    cbn [pendingIndex restoringRef pendingScrollId frames timeouts setTimeouts].
    repeat split; try assumption.
    intros t Hin. apply Ht. apply in_app_or in Hin. destruct Hin as [Hin|Hin].
    + rewrite <- (firstn_skipn i (timeouts s)). apply in_or_app. left. exact Hin.
    + rewrite <- (firstn_skipn (S i) (timeouts s)). apply in_or_app. right. exact Hin.
  - destruct (handleScroll_keeps dom (setScrollY s y)) as (A & B & C & D & E & _).
    cbv zeta in *. rewrite A, B, C, D, E. auto.
  - destruct (flush_stages ch dom flt card s) as (s4 & A & B & C & D & E & ->).
    cbv zeta.
    assert (H5 : (if lengthChanged ch || colsChanged ch || rowHeightChanged ch
                  then restoreEffect flt s4 else s4) = s4).
    { destruct Hstep as [-> | ->]; [reflexivity|].
      rewrite restoreEffect_empty. destruct (_ || _); reflexivity. }
    rewrite H5.
    destruct (flush_tail ch card s4) as (A' & B' & E' & D'). cbv zeta in *.
    assert (C' : pendingScrollId
                   (if visibleChanged ch
                    then locateEffect
                           (if lengthChanged ch || colsChanged ch
                            then measureEffect card s4 else s4)
                    else if lengthChanged ch || colsChanged ch
                         then measureEffect card s4 else s4) = None).
    { assert (H6 : pendingScrollId
                     (if lengthChanged ch || colsChanged ch
                      then measureEffect card s4 else s4) = None).
      { destruct (lengthChanged ch || colsChanged ch); [|congruence].
        destruct (measureEffect_keeps card s4) as (_ & _ & K & _). congruence. }
      destruct (visibleChanged ch); [|exact H6].
      destruct (locateEffect_keeps
                  (if lengthChanged ch || colsChanged ch
                   then measureEffect card s4 else s4)) as (_ & _ & K & _).
      congruence. }
    rewrite A', B', E', D', C', A, B, D, E, C, Hs, Hf. auto.
Qed.

(** X26. A decoded index waits for a commit in which the view length, the
    column count or the row height changes while the view has entries.  As
    long as no such commit comes, as after going back to a view of the same
    length on the same layout, the restoration does not start, whatever
    frames, timers, scroll events and other commits follow: the suppression
    flag stays set, the index stays pending, nothing is queued for the next
    frame, and nothing is written to the address bar. *)
Theorem restoration_waits_for_view_change (st : AppState) (p : Js.Num)
    (steps : list Step) :
  pendingIndex st = Some p ->
  restoringRef st = true ->
  pendingScrollId st = None ->
  frames st = [] ->
  (forall t, In t (timeouts st) -> t = TimeoutApplyParams) ->
  (forall step, In step steps ->
     match step with
     | StepFlush ch _ flt _ =>
         lengthChanged ch || colsChanged ch || rowHeightChanged ch = false \/ flt = []
     | _ => True
     end) ->
  let st' := runSteps steps st in
  restoringRef st' = true /\ pendingIndex st' = Some p /\ frames st' = [] /\
  (forall nav, syncEffect st' nav = nav) /\
  (forall dom nav, scrollSync dom st' nav = nav).
Proof.
  intros Hp Hr Hs Hf Ht Hsteps.
  assert (H : pendingIndex (runSteps steps st) = Some p /\
              restoringRef (runSteps steps st) = true /\
              pendingScrollId (runSteps steps st) = None /\
              frames (runSteps steps st) = [] /\
              (forall t, In t (timeouts (runSteps steps st)) -> t = TimeoutApplyParams)).
  { unfold runSteps. revert st Hp Hr Hs Hf Ht.
    induction steps as [|step steps IH]; intros st Hp Hr Hs Hf Ht; [simpl; auto|].
    cbn [fold_left].
    destruct (runStep_waiting p step st) as (P & R & S' & F & T); try assumption.
    { apply Hsteps. left. reflexivity. }
    apply IH; try assumption. intros step' Hin. apply Hsteps. right. exact Hin. }
  destruct H as (P & R & _ & F & _). cbv zeta.
  split; [exact R|]. split; [exact P|]. split; [exact F|].
  unfold syncEffect, scrollSync. rewrite R. split; reflexivity.
Qed.

Lemma restoration_waits_for_view_change_witness :
  pendingIndex (applyParams [("idx", "57")] (initialState 3)) = Some (Js.Int 57) /\
  restoringRef
    (runSteps [StepTimer 0;
               StepFlush (mkChanged false true false false false true) Sample.emptyDom
                 Sample.sixtyEntries None;
               StepFrame Sample.emptyDom; StepScroll Sample.emptyDom 300]
       (applyParams [("idx", "57")] (initialState 3))) = true.
Proof.
  assert (H0 : pendingIndex (applyParams [("idx", "57")] (initialState 3))
               = Some (Js.Int 57)) by (vm_compute; reflexivity).
  split; [exact H0|].
  refine (proj1 (restoration_waits_for_view_change
            (applyParams [("idx", "57")] (initialState 3)) (Js.Int 57)
            [StepTimer 0;
             StepFlush (mkChanged false true false false false true) Sample.emptyDom
               Sample.sixtyEntries None;
             StepFrame Sample.emptyDom; StepScroll Sample.emptyDom 300]
            H0 eq_refl eq_refl eq_refl _ _)).
  - intros t Hin. vm_compute in Hin. destruct Hin as [<-|[]]. reflexivity.
  - intros step [<-|[<-|[<-|[<-|[]]]]]; simpl; auto.
Defined.

(** ** End of the element search *)

(** X27. The element search ends: when no lookup throws, ten animation
    frames after any number of searches were queued, none is queued any
    more, whatever the documents show, and each search has either found its
    element and set the timer that ends the restoration, or given up and
    cleared the suppression flag. *)
Theorem element_search_ends_within_ten_frames (st : AppState) (doms : nat -> Dom) :
  (forall targetId attempts,
     In (FrameTryScroll targetId attempts) (frames st) -> 0 <= attempts) ->
  (forall i, neverThrows (doms i)) ->
  frames st <> [] ->
  let st' := runFrames (framesFrom doms 0 10) st in
  frames st' = [] /\
  (restoringRef st' = false \/ In TimeoutEndRestoring (timeouts st')) /\
  pendingIndex st' = pendingIndex st.
Proof.
  intros Hatt Hdoms Hf.
  assert (Hs : searchesFrom 0 st).
  { intros cb Hin. destruct cb as [|t a]; [reflexivity|].
    specialize (Hatt t a Hin). lia. }
  destruct (runFrames_progress doms Hdoms 10 0 0 st ltac:(lia) Hs
              (or_intror (or_introl Hf))) as (P & S' & E).
  cbv zeta in *. pose proof (searchesFrom_ten _ S') as F.
  split; [exact F|]. split; [|exact P].
  destruct E as [E|[E|E]]; [left; exact E | congruence | right; exact E].
Qed.

Lemma element_search_ends_within_ten_frames_witness :
  neverThrows Sample.emptyDom /\
  frames
    (runFrames (framesFrom (fun _ => Sample.emptyDom) 0 10)
       (requestAnimationFrame (FrameTryScroll "bridge.litematic-1" 0)
          (requestAnimationFrame (FrameTryScroll "Castle.litematic-0" 4)
             (setRestoringRef (initialState 3) true)))) = [].
Proof.
  assert (H3 : neverThrows Sample.emptyDom) by (intros selector; discriminate).
  split; [exact H3|].
  refine (proj1 (element_search_ends_within_ten_frames
            (requestAnimationFrame (FrameTryScroll "bridge.litematic-1" 0)
               (requestAnimationFrame (FrameTryScroll "Castle.litematic-0" 4)
                  (setRestoringRef (initialState 3) true)))
            (fun _ => Sample.emptyDom) _ (fun _ => H3) _)).
  - intros targetId attempts Hin. vm_compute in Hin.
    destruct Hin as [E|[E|[]]]; injection E as _ <-; lia.
  - vm_compute. discriminate.
Defined.


(** ** Utilities *)

Lemma join_space_cons (x : string) (l : list string) :
  l <> [] -> Js.join " " (x :: l) = (x ++ " " ++ Js.join " " l)%string.
Proof. destruct l; [congruence | reflexivity]. Qed.

Lemma join_space_app (a b : list string) :
  a <> [] -> b <> [] ->
  Js.join " " (a ++ b) = (Js.join " " a ++ " " ++ Js.join " " b)%string.
Proof.
  intros Ha Hb. induction a as [|x a IH]; [congruence|].
  destruct a as [|y a].
  - simpl app. rewrite join_space_cons by exact Hb. reflexivity.
  - change ((x :: y :: a) ++ b)%list with (x :: ((y :: a) ++ b))%list.
    rewrite join_space_cons by discriminate.
    rewrite IH by discriminate.
    rewrite (join_space_cons x (y :: a)) by discriminate.
    rewrite !string_app_assoc. reflexivity.
Qed.

Lemma join_space_truthy (a : list string) :
  a <> [] -> Forall (fun s => Js.truthy s = true) a ->
  Js.truthy (Js.join " " a) = true.
Proof.
  intros Ha Hall. destruct a as [|x a]; [congruence|].
  inversion Hall as [|? ? Hx _]; subst.
  destruct x as [|c x]; [discriminate Hx|].
  destruct a; reflexivity.
Qed.

Lemma kept_names_truthy (xs : list (option string)) :
  Forall (fun s => Js.truthy s = true) (map orEmpty (filter truthyOpt xs)).
Proof.
  induction xs as [|x xs IH]; simpl; [constructor|].
  destruct (truthyOpt x) eqn:E; [|exact IH].
  simpl. constructor; [|exact IH]. destruct x; [exact E | discriminate E].
Qed.

Lemma truthy_false_empty (s : string) : Js.truthy s = false -> s = "".
Proof. destruct s; [reflexivity | discriminate]. Qed.

Lemma clsx_pair (a b : string) :
  Utils.clsx [Some a; Some b] =
    if Js.truthy a
    then (if Js.truthy b then (a ++ " " ++ b)%string else a)
    else (if Js.truthy b then b else "").
Proof. destruct a, b; reflexivity. Qed.

(** X21. [clsx] joins the class names that are present: joining two lists at
    once is the same as joining their two results, so conditional groups of
    class names can be nested; the result is empty exactly when every
    argument is [undefined], [false] or empty; and absent arguments leave
    no trace. *)
Theorem clsx_nests (xs ys : list (option string)) :
  Utils.clsx (xs ++ ys) = Utils.clsx [Some (Utils.clsx xs); Some (Utils.clsx ys)] /\
  (Utils.clsx xs = "" <-> forall x, In x xs -> truthyOpt x = false) /\
  Utils.clsx xs = Utils.clsx (filter truthyOpt xs).
Proof.
  assert (Hnil : forall l : list (option string),
             filter truthyOpt l = [] <-> forall x, In x l -> truthyOpt x = false).
  { intros l. induction l as [|x l IH]; simpl.
    - split; [intros _ x [] | reflexivity].
    - destruct (truthyOpt x) eqn:E.
      + split; [discriminate|]. intros H. specialize (H x (or_introl eq_refl)). congruence.
      + rewrite IH. split.
        * intros H y [<-|Hy]; [exact E | exact (H y Hy)].
        * intros H y Hy. apply H. right; exact Hy. }
  assert (Hempty : forall l : list (option string),
             Utils.clsx l = "" <-> filter truthyOpt l = []).
  { intros l. unfold Utils.clsx. split.
    - intros H. destruct (filter truthyOpt l) as [|x k] eqn:E; [reflexivity|].
      pose proof (kept_names_truthy l) as Hk. rewrite E in Hk.
      assert (Ht : Js.truthy (Js.join " " (map orEmpty (x :: k))) = true)
        by (apply join_space_truthy; [discriminate | exact Hk]).
      rewrite H in Ht. discriminate Ht.
    - intros ->. reflexivity. }
  assert (Htruthy : forall l : list (option string),
             filter truthyOpt l <> [] -> Js.truthy (Utils.clsx l) = true).
  { intros l Hl. unfold Utils.clsx. apply join_space_truthy.
    - destruct (filter truthyOpt l); [congruence | discriminate].
    - apply kept_names_truthy. }
  split; [|split].
  - rewrite clsx_pair.
    destruct (filter truthyOpt xs) as [|x kx] eqn:Ex;
      destruct (filter truthyOpt ys) as [|y ky] eqn:Ey.
    + assert (Hx : Utils.clsx xs = "") by (apply Hempty; exact Ex).
      assert (Hy : Utils.clsx ys = "") by (apply Hempty; exact Ey).
      rewrite Hx, Hy. unfold Utils.clsx. rewrite filter_app, Ex, Ey. reflexivity.
    + assert (Hx : Utils.clsx xs = "") by (apply Hempty; exact Ex).
      assert (Hy : Js.truthy (Utils.clsx ys) = true)
        by (apply Htruthy; rewrite Ey; discriminate).
      rewrite Hx, Hy. unfold Utils.clsx. rewrite filter_app, Ex, Ey. reflexivity.
    + assert (Hy : Utils.clsx ys = "") by (apply Hempty; exact Ey).
      assert (Hx : Js.truthy (Utils.clsx xs) = true)
        by (apply Htruthy; rewrite Ex; discriminate).
      rewrite Hy, Hx. unfold Utils.clsx. rewrite filter_app, Ex, Ey, app_nil_r.
      reflexivity.
    + assert (Hx : Js.truthy (Utils.clsx xs) = true)
        by (apply Htruthy; rewrite Ex; discriminate).
      assert (Hy : Js.truthy (Utils.clsx ys) = true)
        by (apply Htruthy; rewrite Ey; discriminate).
      rewrite Hx, Hy. unfold Utils.clsx. rewrite filter_app, map_app, Ex, Ey.
      apply join_space_app; discriminate.
  - rewrite Hempty. apply Hnil.
  - unfold Utils.clsx. f_equal. f_equal.
    induction xs as [|x l IH]; simpl; [reflexivity|].
    destruct (truthyOpt x) eqn:E; simpl; rewrite ?E; congruence.
Qed.

Lemma roundDiv_bounds (n d : Z) :
  0 < d ->
  2 * d * Utils.roundDiv n d <= 2 * n + d < 2 * d * Utils.roundDiv n d + 2 * d.
Proof.
  intros Hd. unfold Utils.roundDiv.
  assert (H2 : 0 < 2 * d) by lia.
  pose proof (Z.mul_div_le (2 * n + d) (2 * d) H2).
  pose proof (Z.mul_succ_div_gt (2 * n + d) (2 * d) H2).
  lia.
Qed.

(** X22. [timeAgo] prints a whole number and one of five units.  Seconds are
    printed below one minute (and for times in the future, with a number that
    is then not positive), minutes from 1 to 59, hours from 1 to 47, days from
    2 to 364 and years from 1 on; for a time that is not in the future the
    number is never negative; and a number of seconds is within half a
    second of the true age. *)
Theorem timeAgo_units (now ts : Z) :
  exists n u,
    Utils.timeAgo now ts = (Js.numberToString n ++ u ++ " ago")%string /\
    ((u = "s" /\ n < 60 /\ 1000 * n - 500 <= now - ts < 1000 * n + 500) \/
     (u = "m" /\ 1 <= n < 60) \/
     (u = "h" /\ 1 <= n < 48) \/
     (u = "d" /\ 2 <= n < 365) \/
     (u = "y" /\ 1 <= n)) /\
    (ts <= now -> 0 <= n) /\
    (now < ts -> u = "s" /\ n <= 0) /\
    (u = "s" <-> now - ts < 59500).
Proof.
  exists (fst (Utils.timeAgoParts now ts)), (snd (Utils.timeAgoParts now ts)).
  split; [reflexivity|].
  unfold Utils.timeAgoParts.
  set (sec := Utils.roundDiv (now - ts) 1000).
  set (mn := Utils.roundDiv sec 60).
  set (hr := Utils.roundDiv mn 60).
  set (day := Utils.roundDiv hr 24).
  set (yr := Utils.roundDiv day 365).
  pose proof (roundDiv_bounds (now - ts) 1000 ltac:(lia)) as Bs. fold sec in Bs.
  pose proof (roundDiv_bounds sec 60 ltac:(lia)) as Bm. fold mn in Bm.
  pose proof (roundDiv_bounds mn 60 ltac:(lia)) as Bh. fold hr in Bh.
  pose proof (roundDiv_bounds hr 24 ltac:(lia)) as Bd. fold day in Bd.
  pose proof (roundDiv_bounds day 365 ltac:(lia)) as By. fold yr in By.
  destruct (Z.ltb_spec sec 60) as [H1|H1]; cbn [fst snd].
  { split; [left; repeat split; lia|].
    split; [lia|]. split; [intros; split; [reflexivity | lia]|].
    split; [lia | reflexivity]. }
  destruct (Z.ltb_spec mn 60) as [H2|H2]; cbn [fst snd].
  { split; [right; left; split; [reflexivity | lia]|].
    split; [lia|]. split; [lia|]. split; [discriminate | lia]. }
  destruct (Z.ltb_spec hr 48) as [H3|H3]; cbn [fst snd].
  { split; [right; right; left; split; [reflexivity | lia]|].
    split; [lia|]. split; [lia|]. split; [discriminate | lia]. }
  destruct (Z.ltb_spec day 365) as [H4|H4]; cbn [fst snd].
  { split; [right; right; right; left; split; [reflexivity | lia]|].
    split; [lia|]. split; [lia|]. split; [discriminate | lia]. }
  split; [right; right; right; right; split; [reflexivity | lia]|].
  split; [lia|]. split; [lia|]. split; [discriminate | lia].
Qed.

(** X24. [getAuthorName] never returns an empty name; an empty display name,
    user name or reason counts as a missing one; and the two fallback
    names appear only when all three are missing or empty. *)
Theorem getAuthorName_never_empty (a : Utils.Author) :
  Js.truthy (Utils.getAuthorName a) = true /\
  Utils.getAuthorName a =
    Utils.getAuthorName
      (Utils.mkAuthor
         (if truthyOpt (Utils.authorDisplayName a) then Utils.authorDisplayName a else None)
         (if truthyOpt (Utils.authorUsername a) then Utils.authorUsername a else None)
         (if truthyOpt (Utils.authorReason a) then Utils.authorReason a else None)
         (Utils.isDiscordDeleted a)) /\
  (In (Some (Utils.getAuthorName a))
      [Utils.authorDisplayName a; Utils.authorUsername a; Utils.authorReason a] \/
   (truthyOpt (Utils.authorDisplayName a) = false /\
    truthyOpt (Utils.authorUsername a) = false /\
    truthyOpt (Utils.authorReason a) = false /\
    Utils.getAuthorName a = if Utils.isDiscordDeleted a then "Deleted" else "Unknown")).
Proof.
  destruct a as [d u r k]. unfold Utils.getAuthorName. cbn [Utils.authorDisplayName
    Utils.authorUsername Utils.authorReason Utils.isDiscordDeleted].
  destruct d as [[|c1 d]|]; destruct u as [[|c2 u]|]; destruct r as [[|c3 r]|];
    cbn [truthyOpt orEmpty Js.truthy String.eqb negb];
    (split; [try reflexivity; destruct k; reflexivity|]);
    (split; [reflexivity|]);
    cbn [In];
    try (left; auto; fail);
    try (right; repeat split; reflexivity).
Qed.

Lemma collapseSlashes_cons (c : ascii) (r : string) :
  Utils.collapseSlashes (String c r) =
    if ((c =? "/")%char && startsWithSlash r)%bool then Utils.collapseSlashes r
    else String c (Utils.collapseSlashes r).
Proof.
  destruct (Ascii.eqb_spec c "/") as [->|Hc].
  - destruct r as [|d r]; [reflexivity|].
    destruct d as [[] [] [] [] [] [] [] []]; reflexivity.
  - cbn [Utils.collapseSlashes]. destruct (Ascii.eqb_spec c "/"); [contradiction|].
    reflexivity.
Qed.

Lemma stripLeadingSlashes_cons (c : ascii) (r : string) :
  Utils.stripLeadingSlashes (String c r) =
    if (c =? "/")%char then Utils.stripLeadingSlashes r else String c r.
Proof. destruct c as [[] [] [] [] [] [] [] []]; reflexivity. Qed.

Lemma startsWithSlash_iff (s : string) :
  startsWithSlash s = true <-> exists b, s = String "/" b.
Proof.
  destruct s as [|c s]; simpl.
  - split; [discriminate | intros [b Hb]; discriminate].
  - destruct (Ascii.eqb_spec c "/") as [->|Hc].
    + split; eauto.
    + split; [discriminate | intros [b Hb]; congruence].
Qed.

Lemma collapseSlashes_head (s : string) :
  startsWithSlash (Utils.collapseSlashes s) = startsWithSlash s.
Proof.
  induction s as [|c r IH]; [reflexivity|].
  rewrite collapseSlashes_cons.
  destruct (Ascii.eqb_spec c "/") as [->|Hc]; cbn [andb].
  - destruct (startsWithSlash r) eqn:E; [rewrite IH; reflexivity | reflexivity].
  - reflexivity.
Qed.

Lemma collapseSlashes_single (s a b : string) :
  Utils.collapseSlashes s <> (a ++ "//" ++ b)%string.
Proof.
  revert a. induction s as [|c r IH]; intros a.
  - destruct a; discriminate.
  - rewrite collapseSlashes_cons.
    destruct ((c =? "/")%char && startsWithSlash r)%bool eqn:E; [apply IH|].
    destruct a as [|x a].
    + intros H. simpl in H. injection H as Hc Hr.
      assert (Hs : startsWithSlash (Utils.collapseSlashes r) = true)
        by (rewrite Hr; reflexivity).
      rewrite collapseSlashes_head in Hs. subst c. rewrite Hs in E. discriminate E.
    + intros H. simpl in H. injection H as _ Hr. exact (IH a Hr).
Qed.

Lemma collapseSlashes_double (a rest : string) :
  Utils.collapseSlashes (a ++ String "/" (String "/" rest)) =
  Utils.collapseSlashes (a ++ String "/" rest).
Proof.
  induction a as [|c a IH]; [reflexivity|].
  cbn [String.append]. rewrite !collapseSlashes_cons, IH.
  replace (startsWithSlash (a ++ String "/" (String "/" rest)))
    with (startsWithSlash (a ++ String "/" rest)) by (destruct a; reflexivity).
  reflexivity.
Qed.

Lemma stripLeadingSlashes_suffix (s : string) :
  exists p, s = (p ++ Utils.stripLeadingSlashes s)%string.
Proof.
  induction s as [|c r [p Hp]]; [exists ""; reflexivity|].
  rewrite stripLeadingSlashes_cons. destruct (c =? "/")%char.
  - exists (String c p). simpl. congruence.
  - exists "". reflexivity.
Qed.

Lemma stripLeadingSlashes_head (s : string) :
  startsWithSlash (Utils.stripLeadingSlashes s) = false.
Proof.
  induction s as [|c r IH]; [reflexivity|].
  rewrite stripLeadingSlashes_cons. destruct (c =? "/")%char eqn:E; [exact IH|].
  simpl. exact E.
Qed.

Lemma stripLeadingSlashes_fixed (s : string) :
  startsWithSlash s = false -> Utils.stripLeadingSlashes s = s.
Proof.
  destruct s as [|c r]; [reflexivity|]. simpl startsWithSlash. intros E.
  rewrite stripLeadingSlashes_cons, E. reflexivity.
Qed.

(** X25. The path that [assetURL] builds from a channel path, an entry path
    and a relative path never contains two slashes in a row and never starts
    with a slash; a slash at the end of a segment or at the start of the
    next one makes no difference; and the address is the raw-content prefix
    of the repository followed by the encoding of exactly that path. *)
Theorem assetURL_path_clean (encodeURI : string -> string)
    (channelPath entryPath rel owner repo branch : string) :
  Js.includes (Utils.joinedPath channelPath entryPath rel) "//" = false /\
  startsWithSlash (Utils.joinedPath channelPath entryPath rel) = false /\
  Utils.joinedPath (channelPath ++ "/") entryPath rel
    = Utils.joinedPath channelPath entryPath rel /\
  Utils.joinedPath channelPath ("/" ++ entryPath) rel
    = Utils.joinedPath channelPath entryPath rel /\
  Utils.joinedPath channelPath (entryPath ++ "/") rel
    = Utils.joinedPath channelPath entryPath rel /\
  Utils.joinedPath channelPath entryPath ("/" ++ rel)
    = Utils.joinedPath channelPath entryPath rel /\
  Utils.assetURL encodeURI channelPath entryPath rel owner repo branch
    = ("https://raw.githubusercontent.com/" ++ owner ++ "/" ++ repo ++ "/" ++ branch
       ++ "/" ++ encodeURI (Utils.joinedPath channelPath entryPath rel))%string.
Proof.
  assert (Hj : forall c e r,
             Js.join "/" [c; e; r] = (c ++ String "/" (e ++ String "/" r))%string)
    by reflexivity.
  split; [|split; [|split; [|split; [|split; [|split]]]]].
  - destruct (Js.includes (Utils.joinedPath channelPath entryPath rel) "//") eqn:E;
      [|reflexivity].
    exfalso. apply includes_iff in E. destruct E as [a [b Hab]].
    unfold Utils.joinedPath in Hab.
    destruct (stripLeadingSlashes_suffix
                (Utils.collapseSlashes (Js.join "/" [channelPath; entryPath; rel])))
      as [p Hp].
    rewrite Hab in Hp.
    apply (collapseSlashes_single (Js.join "/" [channelPath; entryPath; rel])
             (p ++ a) b).
    rewrite Hp. rewrite !string_app_assoc. reflexivity.
  - apply stripLeadingSlashes_head.
  - unfold Utils.joinedPath. rewrite !Hj. f_equal.
    rewrite string_app_assoc.
    change ("/" ++ String "/" (entryPath ++ String "/" rel))%string
      with (String "/" (String "/" (entryPath ++ String "/" rel))).
    apply collapseSlashes_double.
  - unfold Utils.joinedPath. rewrite !Hj. f_equal.
    change (String "/" (("/" ++ entryPath) ++ String "/" rel))%string
      with (String "/" (String "/" (entryPath ++ String "/" rel))).
    apply collapseSlashes_double.
  - unfold Utils.joinedPath. rewrite !Hj. f_equal.
    rewrite string_app_assoc.
    change ("/" ++ String "/" rel)%string with (String "/" (String "/" rel)).
    change (channelPath ++ String "/" (entryPath ++ String "/" (String "/" rel)))%string
      with (channelPath ++ (String "/" entryPath ++ String "/" (String "/" rel)))%string.
    change (channelPath ++ String "/" (entryPath ++ String "/" rel))%string
      with (channelPath ++ (String "/" entryPath ++ String "/" rel))%string.
    rewrite <- !string_app_assoc.
    apply collapseSlashes_double.
  - unfold Utils.joinedPath. rewrite !Hj. f_equal.
    change ("/" ++ rel)%string with (String "/" rel).
    change (channelPath ++ String "/" (entryPath ++ String "/" (String "/" rel)))%string
      with (channelPath ++ (String "/" entryPath ++ String "/" (String "/" rel)))%string.
    change (channelPath ++ String "/" (entryPath ++ String "/" rel))%string
      with (channelPath ++ (String "/" entryPath ++ String "/" rel))%string.
    rewrite <- !string_app_assoc.
    apply collapseSlashes_double.
  - unfold Utils.assetURL, Utils.getRawURL.
    rewrite stripLeadingSlashes_fixed by apply stripLeadingSlashes_head.
    reflexivity.
Qed.
